(** * DynamicLoadBalancing: the load-priority heap, the balancing engine,
      the interactive topology graph and the yes/no prompt

    Shallow embedding of [load_balancer.c] and [load_balancer_interactive.c].
    The heap, the balancing functions and the registry are textually the same
    in both programs; the graph with validation and the console prompt are
    those of the interactive program.

    Conventions of the embedding:
    - the value of a C [float] is a rational ([Q]); equalities between
      computed loads are stated with [==].  The functions that do
      arithmetic on loads are given twice: with exact operations, and, in
      [Rounded], with the rounding of every [float] operation written out
      ([round32] is the rounding to the nearest binary32 value);
    - array indices and server identifiers produced by the program's own
      loops are [nat]; integers typed in by the operator (edge endpoints)
      are [Z];
    - [heap->arr] is represented by its live prefix [arr[0 .. size)], so
      [heap->size] is [length (arr h)]: no function reads a slot at or
      beyond [size] before writing it. *)

From Equations Require Import Equations.
From Stdlib Require Import List Arith Lia ZArith ZifyNat QArith Qminmax Lqa
  Qround Qpower SpecFloat Permutation Sorted Bool Ascii.
Import ListNotations.

Set Implicit Arguments.
Close Scope Q_scope.
Open Scope nat_scope.

Ltac Zify.zify_post_hook ::= Z.div_mod_to_equations.

(* ===================================================================== *)
(** ** Data structures *)
(* ===================================================================== *)

Record Server := mkServer {
  id : nat;
  server_capacity : Q;
  currentLoad : Q
}.

Record HeapNode := mkHeapNode {
  serverId : nat;
  load : Q
}.

Record MinHeap := mkMinHeap {
  arr : list HeapNode;
  capacity : nat
}.

Definition size (h : MinHeap) : nat := length (arr h).

(** Value read from a slot that the program never reads (out of range). *)
Definition noNode : HeapNode := mkHeapNode 0 0.
Definition noServer : Server := mkServer 0 0 0.

(** [a[i]] and [a[i] = x] on arrays. *)
Definition at_ (a : list HeapNode) (i : nat) : HeapNode := nth i a noNode.

Fixpoint store {A : Type} (a : list A) (i : nat) (x : A) : list A :=
  match a, i with
  | [], _ => []
  | _ :: t, O => x :: t
  | y :: t, S j => y :: store t j x
  end.

(** [a < b] on loads, as the C comparison. *)
Definition fless (a b : Q) : bool :=
  match Qlt_le_dec a b with left _ => true | right _ => false end.

(* ===================================================================== *)
(** ** Min heap functions *)
(* ===================================================================== *)

Definition createMinHeap (cap : nat) : MinHeap := mkMinHeap [] cap.

(** [swap(&arr[i], &arr[j])] *)
Definition swap (a : list HeapNode) (i j : nat) : list HeapNode :=
  store (store a i (at_ a j)) j (at_ a i).

(** [parentIdx = (index - 1) / 2]; at index 0 the C division truncates
    [-1 / 2] to 0, as the subtraction on [nat] does here. *)
Definition parentOf (index : nat) : nat := (index - 1) / 2.

Equations? heapifyUp (a : list HeapNode) (index : nat) : list HeapNode
  by wf index lt :=
  heapifyUp a index with Nat.eq_dec index 0 => {
    | left _ := a;
    | right E with fless (load (at_ a index)) (load (at_ a (parentOf index))) => {
        | true := heapifyUp (swap a index (parentOf index)) (parentOf index);
        | false := a } }.
Proof. unfold parentOf. lia. Qed.

(** The three-way choice of [smallest] in [heapifyDown]; [sz] is
    [heap->size]. *)
Definition smallestOf (a : list HeapNode) (sz index : nat) : nat :=
  let smallest := index in
  let leftChild := 2 * index + 1 in
  let rightChild := 2 * index + 2 in
  let smallest :=
    if (leftChild <? sz) && fless (load (at_ a leftChild)) (load (at_ a smallest))
    then leftChild else smallest in
  let smallest :=
    if (rightChild <? sz) && fless (load (at_ a rightChild)) (load (at_ a smallest))
    then rightChild else smallest in
  smallest.

Equations? heapifyDown (a : list HeapNode) (sz index : nat) : list HeapNode
  by wf (sz - index) lt :=
  heapifyDown a sz index with Nat.eq_dec (smallestOf a sz index) index => {
    | left _ := a;
    | right E :=
        heapifyDown (swap a index (smallestOf a sz index)) sz (smallestOf a sz index) }.
Proof.
  revert E. unfold smallestOf.
  destruct (Nat.ltb_spec (2 * index + 1) sz);
    destruct (Nat.ltb_spec (2 * index + 2) sz); cbn [andb];
    repeat match goal with
           | |- context [if ?b then _ else _] => destruct b
           end; lia.
Qed.

Definition insertHeap (h : MinHeap) (sid : nat) (l : Q) : MinHeap :=
  if capacity h <=? size h then h
  else
    let a := arr h ++ [mkHeapNode sid l] in
    mkMinHeap (heapifyUp a (size h)) (capacity h).

(** [extractMin] on an empty heap reads [arr[0]] and [arr[-1]] of an array
    with no live slot: no result is defined ([None]). *)
Definition extractMin (h : MinHeap) : option (HeapNode * MinHeap) :=
  match arr h with
  | [] => None
  | min :: _ =>
      let a := store (arr h) 0 (at_ (arr h) (size h - 1)) in
      let a := removelast a in
      let a := if 0 <? length a then heapifyDown a (length a) 0 else a in
      Some (min, mkMinHeap a (capacity h))
  end.

(** The search loop of [updateHeap]: first index whose entry has this id. *)
Fixpoint findIndex (a : list HeapNode) (sid : nat) (i : nat) : option nat :=
  match a with
  | [] => None
  | e :: t => if serverId e =? sid then Some i else findIndex t sid (S i)
  end.

Definition setLoad (a : list HeapNode) (i : nat) (l : Q) : list HeapNode :=
  store a i (mkHeapNode (serverId (at_ a i)) l).

Definition updateHeap (h : MinHeap) (sid : nat) (newLoad : Q) : MinHeap :=
  match findIndex (arr h) sid 0 with
  | None => h
  | Some index =>
      let a := setLoad (arr h) index newLoad in
      let parentIdx := parentOf index in
      if (0 <? index) && fless (load (at_ a index)) (load (at_ a parentIdx))
      then mkMinHeap (heapifyUp a index) (capacity h)
      else mkMinHeap (heapifyDown a (length a) index) (capacity h)
  end.

(* ===================================================================== *)
(** ** Heap predicates *)
(* ===================================================================== *)

(** [a[i].load <= a[j].load] *)
Definition le_at (a : list HeapNode) (i j : nat) : Prop :=
  (load (at_ a i) <= load (at_ a j))%Q.

(** The min-heap property: every non-root slot is at least its parent. *)
Definition heap_ordered (a : list HeapNode) : Prop :=
  forall i, 0 < i < length a -> le_at a (parentOf i) i.

(** Ordered everywhere except between [i] and its parent; the children of
    [i] are already above the parent of [i] (state during a sift-up). *)
Definition up_inv (a : list HeapNode) (i : nat) : Prop :=
  i < length a /\
  (forall j, 0 < j < length a -> j <> i -> le_at a (parentOf j) j) /\
  (forall j, 0 < j < length a -> parentOf j = i -> 0 < i ->
             le_at a (parentOf i) j).

(** Ordered everywhere except between [i] and its children; the children
    of [i] are already above the parent of [i] (state during a sift-down). *)
Definition down_inv (a : list HeapNode) (i : nat) : Prop :=
  (forall j, 0 < j < length a -> parentOf j <> i -> le_at a (parentOf j) j) /\
  (forall j, 0 < j < length a -> parentOf j = i -> 0 < i ->
             le_at a (parentOf i) j).

(** Executable check of the min-heap property. *)
Definition heap_orderedb (a : list HeapNode) : bool :=
  forallb (fun i => negb (fless (load (at_ a i)) (load (at_ a (parentOf i)))))
          (seq 1 (length a - 1)).

(** Sequences of heap operations, as a driver issues them. *)
Inductive HeapOp : Type :=
| OpInsert (sid : nat) (l : Q)
| OpExtractMin
| OpUpdate (sid : nat) (l : Q).

Definition applyOp (h : MinHeap) (op : HeapOp) : option MinHeap :=
  match op with
  | OpInsert sid l => Some (insertHeap h sid l)
  | OpExtractMin =>
      match extractMin h with
      | Some (_, h') => Some h'
      | None => None
      end
  | OpUpdate sid l => Some (updateHeap h sid l)
  end.

Fixpoint runOps (h : MinHeap) (ops : list HeapOp) : option MinHeap :=
  match ops with
  | [] => Some h
  | op :: rest =>
      match applyOp h op with
      | Some h' => runOps h' rest
      | None => None
      end
  end.

(* ===================================================================== *)
(** ** Load balancing functions *)
(* ===================================================================== *)

(** In every call of the functions below [numServers] is the length of the
    [servers] array, so the array is passed as a list and its length is
    [numServers]. *)

Definition loadAt (servers : list Server) (i : nat) : Q :=
  currentLoad (nth i servers noServer).

Definition totalLoad (servers : list Server) : Q :=
  fold_left (fun total s => (total + currentLoad s)%Q) servers 0%Q.

Definition calculateAverageLoad (servers : list Server) : Q :=
  (totalLoad servers / inject_Z (Z.of_nat (length servers)))%Q.

Definition getLoadPercentage (server : Server) : Q :=
  ((currentLoad server / server_capacity server) * 100)%Q.

(** The loop [for (i = 1; i < numServers; i++)] of [findMostLoadedServer],
    over the servers from index [i] on. *)
Fixpoint findMostLoop (rest : list Server) (i mostLoaded : nat) (maxLoad : Q) : nat :=
  match rest with
  | [] => mostLoaded
  | s :: t =>
      if fless maxLoad (currentLoad s)
      then findMostLoop t (S i) i (currentLoad s)
      else findMostLoop t (S i) mostLoaded maxLoad
  end.

Definition findMostLoadedServer (servers : list Server) : nat :=
  findMostLoop (tl servers) 1 0 (loadAt servers 0).

Fixpoint findLeastLoop (rest : list Server) (i leastLoaded : nat) (minLoad : Q) : nat :=
  match rest with
  | [] => leastLoaded
  | s :: t =>
      if fless (currentLoad s) minLoad
      then findLeastLoop t (S i) i (currentLoad s)
      else findLeastLoop t (S i) leastLoaded minLoad
  end.

Definition findLeastLoadedServer (servers : list Server) : nat :=
  findLeastLoop (tl servers) 1 0 (loadAt servers 0).

(** [servers[i].currentLoad = l] *)
Definition setCurrentLoad (servers : list Server) (i : nat) (l : Q) : list Server :=
  let s := nth i servers noServer in
  store servers i (mkServer (id s) (server_capacity s) l).

(** What [rebalanceLoads] prints when it migrates load. *)
Record RebalanceReport := mkReport {
  rep_imbalance : Q;
  rep_threshold : Q;
  rep_from : nat;
  rep_to : nat;
  rep_migrationAmount : Q
}.

Definition imbalanceOf (servers : list Server) : Q :=
  let mostLoadedIdx := findMostLoadedServer servers in
  let leastLoadedIdx := findLeastLoadedServer servers in
  let mostLoadedPercent := getLoadPercentage (nth mostLoadedIdx servers noServer) in
  let leastLoadedPercent := getLoadPercentage (nth leastLoadedIdx servers noServer) in
  (mostLoadedPercent - leastLoadedPercent)%Q.

Definition migrationAmountOf (servers : list Server) : Q :=
  ((loadAt servers (findMostLoadedServer servers) - calculateAverageLoad servers)
   * (1 # 2))%Q.

Definition rebalanceLoads (servers : list Server) (threshold : Q) (heap : MinHeap)
  : list Server * MinHeap * option RebalanceReport :=
  let avgLoad := calculateAverageLoad servers in
  let mostLoadedIdx := findMostLoadedServer servers in
  let leastLoadedIdx := findLeastLoadedServer servers in
  let imbalance := imbalanceOf servers in
  if fless threshold imbalance then
    let migrationAmount :=
      ((loadAt servers mostLoadedIdx - avgLoad) * (1 # 2))%Q in
    let servers1 :=
      setCurrentLoad servers mostLoadedIdx
        (loadAt servers mostLoadedIdx - migrationAmount)%Q in
    let servers2 :=
      setCurrentLoad servers1 leastLoadedIdx
        (loadAt servers1 leastLoadedIdx + migrationAmount)%Q in
    let heap1 := updateHeap heap mostLoadedIdx (loadAt servers2 mostLoadedIdx) in
    let heap2 := updateHeap heap1 leastLoadedIdx (loadAt servers2 leastLoadedIdx) in
    (servers2, heap2,
     Some (mkReport imbalance threshold mostLoadedIdx leastLoadedIdx migrationAmount))
  else (servers, heap, None).

(** One task assignment, the body shared by [simulateTaskAssignment] and
    by cases 1 and 2 of [runInteractiveSimulation]: returns the chosen
    server with the new registry and heap.  No result when the heap is
    empty or the extracted identifier is not a slot of [servers]. *)
Definition assignTask (servers : list Server) (heap : MinHeap) (taskLoad : Q)
  : option (nat * list Server * MinHeap) :=
  match extractMin heap with
  | None => None
  | Some (minServer, heap1) =>
      if serverId minServer <? length servers then
        let servers' :=
          setCurrentLoad servers (serverId minServer)
            (loadAt servers (serverId minServer) + taskLoad)%Q in
        let newLoad := loadAt servers' (serverId minServer) in
        Some (serverId minServer, servers',
              insertHeap heap1 (serverId minServer) newLoad)
      else None
  end.

(** The registry and the heap as both [main]s build them: server [i] has
    the [i]-th capacity and load 0; the heap receives [(i, 0.0)] for
    [i = 0 .. n-1]. *)
Fixpoint initServersFrom (i : nat) (caps : list Q) : list Server :=
  match caps with
  | [] => []
  | c :: t => mkServer i c 0 :: initServersFrom (S i) t
  end.

Definition initServers (caps : list Q) : list Server := initServersFrom 0 caps.

Definition initHeap (n : nat) : MinHeap :=
  fold_left (fun h i => insertHeap h i 0%Q) (seq 0 n) (createMinHeap n).

(** The heap mirrors the registry: one entry per server, carrying that
    server's current load. *)
Definition in_sync (servers : list Server) (h : MinHeap) : Prop :=
  Permutation (map serverId (arr h)) (seq 0 (length servers)) /\
  forall e, In e (arr h) -> (load e == loadAt servers (serverId e))%Q.

(** Sum of the current loads, written as a recursion on the registry (the
    value that the loop of [calculateAverageLoad] accumulates). *)
Fixpoint sumLoads (servers : list Server) : Q :=
  match servers with
  | [] => 0%Q
  | s :: t => (currentLoad s + sumLoads t)%Q
  end.




(** What holds of the registry and the heap between two steps of a
    simulation. *)
Definition sim_inv (servers : list Server) (h : MinHeap) : Prop :=
  in_sync servers h /\ heap_ordered (arr h) /\ capacity h = length servers.

(** The two operations a driver applies to the registry and the heap after
    initialisation: assign a task of a given load, or call [rebalanceLoads]
    with a given threshold (periodically, or from menu entry 3). *)
Inductive SimStep : Type :=
| StepAssign (taskLoad : Q)
| StepRebalance (threshold : Q).

Definition simStep (st : list Server * MinHeap) (step : SimStep)
  : option (list Server * MinHeap) :=
  match step with
  | StepAssign taskLoad =>
      match assignTask (fst st) (snd st) taskLoad with
      | Some (_, servers', heap') => Some (servers', heap')
      | None => None
      end
  | StepRebalance threshold =>
      Some (fst (rebalanceLoads (fst st) threshold (snd st)))
  end.

Fixpoint simRun (st : list Server * MinHeap) (steps : list SimStep)
  : option (list Server * MinHeap) :=
  match steps with
  | [] => Some st
  | step :: rest =>
      match simStep st step with
      | Some st' => simRun st' rest
      | None => None
      end
  end.

Definition positiveTask (step : SimStep) : Prop :=
  match step with
  | StepAssign taskLoad => (0 < taskLoad)%Q
  | StepRebalance _ => True
  end.

Definition nonNegativeLoads (servers : list Server) : Prop :=
  forall k, k < length servers -> (0 <= loadAt servers k)%Q.

(* ===================================================================== *)
(** ** Interactive simulation *)
(* ===================================================================== *)

(** The variables of [runInteractiveSimulation] that change in its menu
    loop, with the list of servers chosen so far (the "Task n assigned to
    Server s" lines). *)
Record SimState := mkSimState {
  st_servers : list Server;
  st_heap : MinHeap;
  tasksAssigned : nat;
  st_assignedTo : list nat
}.

(** The body of menu entry 1, which is also the body of the loop of menu
    entry 2. *)
Definition assignNextTask (taskLoads : list Q) (threshold : Q) (interval : nat)
  (st : SimState) : option SimState :=
  let taskLoad := nth (tasksAssigned st) taskLoads 0%Q in
  match assignTask (st_servers st) (st_heap st) taskLoad with
  | None => None
  | Some (sid, servers, heap) =>
      let assigned := S (tasksAssigned st) in
      let '(servers, heap) :=
        if assigned mod interval =? 0
        then fst (rebalanceLoads servers threshold heap)
        else (servers, heap) in
      Some (mkSimState servers heap assigned (st_assignedTo st ++ [sid]))
  end.

(** [while (tasksAssigned < taskData->numTasks)] of menu entry 2, for
    [remaining = numTasks - tasksAssigned] iterations. *)
Fixpoint assignRemaining (remaining : nat) (taskLoads : list Q) (threshold : Q)
  (interval : nat) (st : SimState) : option SimState :=
  match remaining with
  | O => Some st
  | S k =>
      match assignNextTask taskLoads threshold interval st with
      | None => None
      | Some st' => assignRemaining k taskLoads threshold interval st'
      end
  end.

(** The menu loop, over the menu choices the operator types (each already
    checked to lie in 1..5 by [getIntInput]).  No result when the choices
    run out while tasks remain: the program is then waiting for input. *)
Fixpoint menuLoop (choices : list nat) (taskLoads : list Q) (threshold : Q)
  (interval : nat) (st : SimState) : option SimState :=
  if length taskLoads <=? tasksAssigned st then Some st
  else
    match choices with
    | [] => None
    | menuChoice :: rest =>
        match menuChoice with
        | 1 =>
            match assignNextTask taskLoads threshold interval st with
            | None => None
            | Some st' => menuLoop rest taskLoads threshold interval st'
            end
        | 2 =>
            match assignRemaining (length taskLoads - tasksAssigned st)
                    taskLoads threshold interval st with
            | None => None
            | Some st' => menuLoop rest taskLoads threshold interval st'
            end
        | 3 =>
            let '(servers, heap) :=
              fst (rebalanceLoads (st_servers st) threshold (st_heap st)) in
            menuLoop rest taskLoads threshold interval
              (mkSimState servers heap (tasksAssigned st) (st_assignedTo st))
        | 4 => menuLoop rest taskLoads threshold interval st
        | 5 =>
            menuLoop rest taskLoads threshold interval
              (mkSimState (st_servers st) (st_heap st) (length taskLoads)
                 (st_assignedTo st))
        | _ => None
        end
    end.

Definition runInteractiveSimulation (servers : list Server) (taskLoads : list Q)
  (threshold : Q) (interval : nat) (choices : list nat) : option SimState :=
  menuLoop choices taskLoads threshold interval
    (mkSimState servers (initHeap (length servers)) 0 []).

(** The scenario of three servers of capacity 100 and three tasks of load
    10: the task list, the state before the first task and the states after
    each of the three assignments. *)
Definition three_loads : list Q := [10; 10; 10]%Q.

Definition three_st0 : SimState :=
  mkSimState (initServers [100; 100; 100]%Q) (initHeap 3) 0 [].

Definition three_st1 : SimState :=
  mkSimState [mkServer 0 100 10; mkServer 1 100 0; mkServer 2 100 0]
    (mkMinHeap [mkHeapNode 2 0; mkHeapNode 1 0; mkHeapNode 0 10] 3) 1 [0].

Definition three_st2 : SimState :=
  mkSimState [mkServer 0 100 10; mkServer 1 100 0; mkServer 2 100 10]
    (mkMinHeap [mkHeapNode 1 0; mkHeapNode 0 10; mkHeapNode 2 10] 3) 2 [0; 2].

Definition three_st3 : SimState :=
  mkSimState [mkServer 0 100 10; mkServer 1 100 10; mkServer 2 100 10]
    (mkMinHeap [mkHeapNode 2 10; mkHeapNode 0 10; mkHeapNode 1 10] 3) 3 [0; 2; 1].

(* ===================================================================== *)
(** ** Graph functions of the interactive program *)
(* ===================================================================== *)

(** [adjList[i]] is the chain of [Node]s of server [i], head first. *)
Record Graph := mkGraph {
  numServers : Z;
  adjList : list (list Z)
}.

Definition createGraph (n : Z) : Graph := mkGraph n (repeat [] (Z.to_nat n)).

(** The scan of [edgeExists] along one adjacency chain. *)
Fixpoint chainHas (current : list Z) (dest : Z) : bool :=
  match current with
  | [] => false
  | sid :: next => if (sid =? dest)%Z then true else chainHas next dest
  end.

Definition edgeExists (graph : Graph) (src dest : Z) : bool :=
  chainHas (nth (Z.to_nat src) (adjList graph) []) dest.

(** The line [addEdge] prints. *)
Inductive EdgeMessage : Type :=
| MsgOutOfRange
| MsgSelfEdge
| MsgAlreadyExists
| MsgAdded.

Definition addEdge (graph : Graph) (src dest : Z) : Graph * Z * EdgeMessage :=
  if ((src <? 0) || (src >=? numServers graph)
      || (dest <? 0) || (dest >=? numServers graph))%Z
  then (graph, 0%Z, MsgOutOfRange)
  else if (src =? dest)%Z then (graph, 0%Z, MsgSelfEdge)
  else if edgeExists graph src dest then (graph, 0%Z, MsgAlreadyExists)
  else
    let chain := nth (Z.to_nat src) (adjList graph) [] in
    (mkGraph (numServers graph)
             (store (adjList graph) (Z.to_nat src) (dest :: chain)),
     1%Z, MsgAdded).

(** An endpoint that [addEdge] accepts. *)
Definition inRange (graph : Graph) (v : Z) : Prop :=
  (0 <= v < numServers graph)%Z.

(* ===================================================================== *)
(** ** Console input of the interactive program *)
(* ===================================================================== *)

(** Standard input is the list of characters still to be read; the empty
    list is end of file. *)
Definition newline : ascii := "010"%char.

(** [while ((c = getchar()) != '\n' && c != EOF);] *)
Fixpoint clearBuffer (input : list ascii) : list ascii :=
  match input with
  | [] => []
  | c :: rest => if Ascii.eqb c newline then rest else clearBuffer rest
  end.

(** The conditional expression that canonicalises the answer. *)
Definition canonicalAnswer (response : ascii) : ascii :=
  if Ascii.eqb response "Y"%char || Ascii.eqb response "y"%char then "Y"%char
  else if Ascii.eqb response "N"%char || Ascii.eqb response "n"%char then "N"%char
  else "?"%char.

(** [getYesNoInput]: the answer, the input left unread, and the number of
    error messages printed (each followed by a new prompt).  At end of file
    [scanf] fails, [clearBuffer] reads nothing and the loop starts again in
    the same state, so the function never returns: no result. *)
Equations? getYesNoInput (input : list ascii) : option (ascii * list ascii * nat)
  by wf (length input) lt :=
  getYesNoInput [] := None;
  getYesNoInput (response :: rest) with Ascii.eqb (canonicalAnswer response) "?"%char => {
    | true with getYesNoInput (clearBuffer rest) => {
        | Some (answer, unread, errors) := Some (answer, unread, S errors);
        | None := None };
    | false := Some (canonicalAnswer response, clearBuffer rest, 0) }.
Proof.
  assert (H : forall l, length (clearBuffer l) <= length l)
    by (induction l as [|c t IH]; simpl; [|destruct (Ascii.eqb c newline)]; lia).
  specialize (H rest). simpl. lia.
Qed.

(** One more error message before the result of the next prompt. *)
Definition reprompted (r : option (ascii * list ascii * nat))
  : option (ascii * list ascii * nat) :=
  match r with
  | Some (answer, unread, errors) => Some (answer, unread, S errors)
  | None => None
  end.

Definition isYesNoChar (c : ascii) : Prop :=
  c = "Y"%char \/ c = "y"%char \/ c = "N"%char \/ c = "n"%char.

(** Calling [extractMin] [n] times in a row (until the heap is empty, if
    that comes first): the entries in the order they come out. *)
Fixpoint extractAll (n : nat) (h : MinHeap) : list HeapNode :=
  match n with
  | O => []
  | S k =>
      match extractMin h with
      | None => []
      | Some (m, h') => m :: extractAll k h'
      end
  end.

(* ===================================================================== *)
(** ** The automated program's task loop *)
(* ===================================================================== *)

Definition REBALANCE_THRESHOLD : Q := 20.
Definition REBALANCE_INTERVAL : nat := 5.

(** The loop of [simulateTaskAssignment] from task number [task] on.  The
    random load drawn for each task is given by the list [taskLoads] (one
    per remaining task); [assignedTo] collects the servers chosen, as the
    "Task n -> Server s" lines show them.  [main] passes an array of
    [NUM_SERVERS] servers, the count [rebalanceLoads] is called with. *)
Fixpoint simulateLoop (task : nat) (taskLoads : list Q) (servers : list Server)
  (heap : MinHeap) (assignedTo : list nat)
  : option (list Server * MinHeap * list nat) :=
  match taskLoads with
  | [] => Some (servers, heap, assignedTo)
  | taskLoad :: rest =>
      match assignTask servers heap taskLoad with
      | None => None
      | Some (sid, servers, heap) =>
          let '(servers, heap) :=
            if task mod REBALANCE_INTERVAL =? 0
            then fst (rebalanceLoads servers REBALANCE_THRESHOLD heap)
            else (servers, heap) in
          simulateLoop (S task) rest servers heap (assignedTo ++ [sid])
      end
  end.

Definition simulateTaskAssignment (servers : list Server) (heap : MinHeap)
  (taskLoads : list Q) : option (list Server * MinHeap * list nat) :=
  simulateLoop 1 taskLoads servers heap [].

(** The steps that a task loop performs on the registry and the heap for
    the tasks numbered from [task] on: one assignment per task, followed by
    a rebalancing call after every task whose number is a multiple of
    [interval]. *)
Fixpoint scheduleFrom (interval : nat) (threshold : Q) (task : nat)
  (taskLoads : list Q) : list SimStep :=
  match taskLoads with
  | [] => []
  | taskLoad :: rest =>
      StepAssign taskLoad
        :: (if task mod interval =? 0 then [StepRebalance threshold] else [])
        ++ scheduleFrom interval threshold (S task) rest
  end.

(** What holds of the state of [runInteractiveSimulation] at each turn of
    its menu loop: the heap mirrors the registry, and the counter is the
    number of tasks assigned so far unless the operator has exited (entry 5
    sets it to the task count). *)
Definition menu_inv (taskLoads : list Q) (st : SimState) : Prop :=
  st_servers st <> [] /\
  sim_inv (st_servers st) (st_heap st) /\
  length (st_assignedTo st) <= length taskLoads /\
  (tasksAssigned st = length (st_assignedTo st) \/
   tasksAssigned st = length taskLoads).

(** One more error message before the result of the next prompt, for the
    integer prompt. *)
Definition repromptedInt (r : option (Z * list ascii * nat))
  : option (Z * list ascii * nat) :=
  match r with
  | Some (value, unread, errors) => Some (value, unread, S errors)
  | None => None
  end.

Section IntPrompt.
(** [scanf("%d", &value)] is a library function: it is taken as a
    parameter that, for the input still to be read, says which value the
    conversion stores (none when it fails) and how many characters it
    reads. *)
Variable scanInt : list ascii -> option Z * nat.

(** [getIntInput]: the value, the input left unread, and the number of
    error messages printed (each followed by a new prompt).  At end of file
    [scanf] fails, [clearBuffer] reads nothing and the loop starts again in
    the same state, so the function never returns: no result. *)
Equations? getIntInput (minVal maxVal : Z) (input : list ascii)
  : option (Z * list ascii * nat) by wf (length input) lt :=
  getIntInput minVal maxVal [] := None;
  getIntInput minVal maxVal (c :: rest) with scanInt (c :: rest) => {
    | (None, n) :=
        repromptedInt (getIntInput minVal maxVal (clearBuffer (skipn n (c :: rest))));
    | (Some value, n) with ((value <? minVal) || (value >? maxVal))%Z => {
        | true :=
            repromptedInt
              (getIntInput minVal maxVal (clearBuffer (skipn n (c :: rest))));
        | false := Some (value, clearBuffer (skipn n (c :: rest)), 0) } }.
Proof.
  all: assert (H : forall l, length (clearBuffer l) <= length l)
    by (induction l as [|x t IH]; simpl; [|destruct (Ascii.eqb x newline)]; lia).
  all: assert (H1 : forall l, l <> [] -> length (clearBuffer l) < length l)
    by (intros [|x t] Hl; [contradiction|]; simpl;
        destruct (Ascii.eqb x newline); [|specialize (H t)]; lia).
  all: destruct n as [|n]; [apply H1; discriminate|].
  all: change (skipn (S n) (c :: rest)) with (skipn n rest).
  all: specialize (H (skipn n rest));
    pose proof (length_skipn n rest); simpl; lia.
Qed.
End IntPrompt.

(** The [%d] conversion as the C standard describes it: white space is
    skipped, then an optional sign and a non-empty run of decimal digits are
    read; with no digit the conversion fails.  Only meant for numbers that
    fit an [int] (C leaves the others undefined; they get their
    mathematical value here). *)
Definition isSpaceChar (c : ascii) : bool :=
  let n := nat_of_ascii c in (n =? 32) || ((9 <=? n) && (n <=? 13)).

Fixpoint countSpaces (input : list ascii) : nat :=
  match input with
  | c :: rest => if isSpaceChar c then S (countSpaces rest) else 0
  | [] => 0
  end.

Fixpoint readDigits (acc : Z) (input : list ascii) : Z * nat :=
  match input with
  | c :: rest =>
      let n := nat_of_ascii c in
      if (48 <=? n) && (n <=? 57)
      then let '(v, k) := readDigits (10 * acc + Z.of_nat (n - 48)) rest in (v, S k)
      else (acc, 0)
  | [] => (acc, 0)
  end.

Definition scanDecimal (input : list ascii) : option Z * nat :=
  let ws := countSpaces input in
  let signed (neg : bool) (skipped : nat) (digits : list ascii) :=
    let '(v, k) := readDigits 0 digits in
    if k =? 0 then (None, ws + skipped)
    else (Some (if neg then (- v)%Z else v), ws + skipped + k) in
  match skipn ws input with
  | "-"%char :: rest => signed true 1 rest
  | "+"%char :: rest => signed false 1 rest
  | rest => signed false 0 rest
  end.

(** A graph as the interactive program keeps it: one chain per server,
    and in the chain of server [i] no destination twice, none out of
    range and none equal to [i]. *)
Definition graph_ok (graph : Graph) : Prop :=
  Z.of_nat (length (adjList graph)) = numServers graph /\
  forall i chain,
    nth_error (adjList graph) i = Some chain ->
    NoDup chain /\
    forall d, In d chain -> inRange graph d /\ d <> Z.of_nat i.

(** The manual edge entry loop of [inputGraphTopology], over the pairs
    that [scanf("%d %d")] delivers in order (a failed read changes nothing
    and is left out): it stops at the first pair whose source is -1. *)
Fixpoint manualEdgeEntry (graph : Graph) (pairs : list (Z * Z)) : Graph :=
  match pairs with
  | [] => graph
  | (src, dest) :: rest =>
      if (src =? -1)%Z then graph
      else manualEdgeEntry (fst (fst (addEdge graph src dest))) rest
  end.

(** The graph functions of the automated program, where they differ from
    the interactive ones. *)
Module Automated.

(** [addEdge] without checks: the new node goes to the head of the chain
    of [src].  [main] calls it with [0 <= src < numServers] only. *)
Definition addEdge (graph : Graph) (src dest : Z) : Graph :=
  mkGraph (numServers graph)
    (store (adjList graph) (Z.to_nat src)
       (dest :: nth (Z.to_nat src) (adjList graph) [])).

(** The inner loop of the topology generation in [main]: [neighbors]
    draws of a destination for server [i]; a draw equal to [i] is skipped.
    [rand k] is the value of the [k]-th call of [rand()] and [k] counts the
    calls made so far. *)
Fixpoint randomEdges (neighbors : nat) (i n : Z) (rand : nat -> Z) (k : nat)
  (graph : Graph) : Graph * nat :=
  match neighbors with
  | O => (graph, k)
  | S j =>
      let dest := Z.rem (rand k) n in
      let graph := if (dest =? i)%Z then graph else addEdge graph i dest in
      randomEdges j i n rand (S k) graph
  end.

(** The outer loop, over the servers still to be treated. *)
Fixpoint topologyLoop (servers : list nat) (n : Z) (rand : nat -> Z) (k : nat)
  (graph : Graph) : Graph * nat :=
  match servers with
  | [] => (graph, k)
  | i :: rest =>
      let neighbors := Z.to_nat (1 + Z.rem (rand k) 3) in
      let '(graph, k) := randomEdges neighbors (Z.of_nat i) n rand (S k) graph in
      topologyLoop rest n rand k graph
  end.

Definition randomTopology (n : nat) (rand : nat -> Z) : Graph :=
  fst (topologyLoop (seq 0 n) (Z.of_nat n) rand 0 (createGraph (Z.of_nat n))).

End Automated.

(** The random topology of the interactive program ([inputGraphTopology],
    answer Y): a draw is skipped when it is the server itself or an edge
    already present; the last component counts the calls of [addEdge] that
    were refused (returned 0). *)
Fixpoint autoEdges (neighbors : nat) (i n : Z) (rand : nat -> Z) (k : nat)
  (graph : Graph) (refused : nat) : Graph * nat * nat :=
  match neighbors with
  | O => (graph, k, refused)
  | S j =>
      let dest := Z.rem (rand k) n in
      if negb (dest =? i)%Z && negb (edgeExists graph i dest)
      then
        let '(graph', ret, _) := addEdge graph i dest in
        autoEdges j i n rand (S k) graph'
          (if (ret =? 0)%Z then S refused else refused)
      else autoEdges j i n rand (S k) graph refused
  end.

Fixpoint autoTopologyLoop (servers : list nat) (n : Z) (rand : nat -> Z) (k : nat)
  (graph : Graph) (refused : nat) : Graph * nat * nat :=
  match servers with
  | [] => (graph, k, refused)
  | i :: rest =>
      let neighbors := Z.to_nat (1 + Z.rem (rand k) 3) in
      let '(graph, k, refused) :=
        autoEdges neighbors (Z.of_nat i) n rand (S k) graph refused in
      autoTopologyLoop rest n rand k graph refused
  end.

Definition autoTopology (n : nat) (rand : nat -> Z) : Graph * nat * nat :=
  autoTopologyLoop (seq 0 n) (Z.of_nat n) rand 0 (createGraph (Z.of_nat n)) 0.

(** What holds of the generated graph of [n] servers once the servers below
    [a] have been given their random edges: chains of at most three valid
    destinations, none yet for the servers from [a] on. *)
Definition topo_inv (n a : nat) (graph : Graph) : Prop :=
  numServers graph = Z.of_nat n /\
  length (adjList graph) = n /\
  forall i, i < n ->
    length (nth i (adjList graph) []) <= 3 /\
    (a <= i -> nth i (adjList graph) [] = []) /\
    forall d, In d (nth i (adjList graph) []) ->
      (0 <= d < Z.of_nat n)%Z /\ d <> Z.of_nat i.

(** The same for the interactive program's generation, where the graph
    also stays well formed and no call of [addEdge] has been refused. *)
Definition auto_inv (n a : nat) (st : Graph * nat * nat) : Prop :=
  graph_ok (fst (fst st)) /\
  numServers (fst (fst st)) = Z.of_nat n /\
  snd st = 0 /\
  forall i, i < n ->
    length (nth i (adjList (fst (fst st))) []) <= 3 /\
    (a <= i -> nth i (adjList (fst (fst st))) [] = []).

(** The number of servers of the automated program, the count that
    [simulateTaskAssignment] passes to [rebalanceLoads]. *)
Definition NUM_SERVERS : nat := 6.

(* ===================================================================== *)
(** ** The balancing functions in rounded arithmetic *)
(* ===================================================================== *)

(** The functions above compute on loads with exact rationals.  The program
    computes with [float]: every [float] operation yields the rounding of
    its exact result (each operation is evaluated in its own type, as on
    x86-64 and ARM64).  The functions that do arithmetic on loads are given
    here a second time, with that rounding, [rnd], written out; the scans,
    the heap and the comparisons do no arithmetic and are used as they are.
    With the identity for [rnd] these are the functions above.

    Two operations have a [double] operand: the product with [100.0] in
    [getLoadPercentage] and the product with [0.5] in [rebalanceLoads].
    Both products are exact in [double] (a 24-bit significand times 25 * 4,
    or times a power of two), so that the only rounding is the conversion
    of the product to [float]. *)

Module Rounded.

Section WithRounding.

Variable rnd : Q -> Q.

Definition fadd (x y : Q) : Q := rnd (x + y).
Definition fsub (x y : Q) : Q := rnd (x - y).
Definition fdiv (x y : Q) : Q := rnd (x / y).

Definition totalLoad (servers : list Server) : Q :=
  fold_left (fun total s => fadd total (currentLoad s)) servers 0%Q.

Definition calculateAverageLoad (servers : list Server) : Q :=
  fdiv (totalLoad servers) (inject_Z (Z.of_nat (length servers))).

Definition getLoadPercentage (server : Server) : Q :=
  rnd (fdiv (currentLoad server) (server_capacity server) * 100).

Definition imbalanceOf (servers : list Server) : Q :=
  let mostLoadedIdx := findMostLoadedServer servers in
  let leastLoadedIdx := findLeastLoadedServer servers in
  let mostLoadedPercent := getLoadPercentage (nth mostLoadedIdx servers noServer) in
  let leastLoadedPercent := getLoadPercentage (nth leastLoadedIdx servers noServer) in
  fsub mostLoadedPercent leastLoadedPercent.

Definition migrationAmountOf (servers : list Server) : Q :=
  rnd (fsub (loadAt servers (findMostLoadedServer servers))
            (calculateAverageLoad servers) * (1 # 2)).

Definition rebalanceLoads (servers : list Server) (threshold : Q) (heap : MinHeap)
  : list Server * MinHeap * option RebalanceReport :=
  let avgLoad := calculateAverageLoad servers in
  let mostLoadedIdx := findMostLoadedServer servers in
  let leastLoadedIdx := findLeastLoadedServer servers in
  let imbalance := imbalanceOf servers in
  if fless threshold imbalance then
    let migrationAmount :=
      rnd (fsub (loadAt servers mostLoadedIdx) avgLoad * (1 # 2)) in
    let servers1 :=
      setCurrentLoad servers mostLoadedIdx
        (fsub (loadAt servers mostLoadedIdx) migrationAmount) in
    let servers2 :=
      setCurrentLoad servers1 leastLoadedIdx
        (fadd (loadAt servers1 leastLoadedIdx) migrationAmount) in
    let heap1 := updateHeap heap mostLoadedIdx (loadAt servers2 mostLoadedIdx) in
    let heap2 := updateHeap heap1 leastLoadedIdx (loadAt servers2 leastLoadedIdx) in
    (servers2, heap2,
     Some (mkReport imbalance threshold mostLoadedIdx leastLoadedIdx migrationAmount))
  else (servers, heap, None).

Definition assignTask (servers : list Server) (heap : MinHeap) (taskLoad : Q)
  : option (nat * list Server * MinHeap) :=
  match extractMin heap with
  | None => None
  | Some (minServer, heap1) =>
      if serverId minServer <? length servers then
        let servers' :=
          setCurrentLoad servers (serverId minServer)
            (fadd (loadAt servers (serverId minServer)) taskLoad) in
        let newLoad := loadAt servers' (serverId minServer) in
        Some (serverId minServer, servers',
              insertHeap heap1 (serverId minServer) newLoad)
      else None
  end.

Definition simStep (st : list Server * MinHeap) (step : SimStep)
  : option (list Server * MinHeap) :=
  match step with
  | StepAssign taskLoad =>
      match assignTask (fst st) (snd st) taskLoad with
      | Some (_, servers', heap') => Some (servers', heap')
      | None => None
      end
  | StepRebalance threshold =>
      Some (fst (rebalanceLoads (fst st) threshold (snd st)))
  end.

Fixpoint simRun (st : list Server * MinHeap) (steps : list SimStep)
  : option (list Server * MinHeap) :=
  match steps with
  | [] => Some st
  | step :: rest =>
      match simStep st step with
      | Some st' => simRun st' rest
      | None => None
      end
  end.

(** The final verdict of both programs: "well balanced" when the greatest
    load minus the least load, a [float] difference, is below the
    threshold. *)
Definition wellBalanced (servers : list Server) (threshold : Q) : bool :=
  let maxLoad := loadAt servers (findMostLoadedServer servers) in
  let minLoad := loadAt servers (findLeastLoadedServer servers) in
  let imbalance := fsub maxLoad minLoad in
  fless imbalance threshold.

End WithRounding.

End Rounded.

(** What the results below use of the rounding: it keeps the order, it
    leaves the values it produces unchanged, and it commutes with the
    change of sign.  Rounding to the nearest [float] has the three
    properties (as long as no result overflows). *)
Record Rounding (rnd : Q -> Q) : Prop := mkRounding {
  rnd_monotone : forall x y, (x <= y)%Q -> (rnd x <= rnd y)%Q;
  rnd_idempotent : forall x, (rnd (rnd x) == rnd x)%Q;
  rnd_opp : forall x, (rnd (- x) == - rnd x)%Q
}.

(** A value that a [float] holds: one that rounding leaves unchanged. *)
Definition representable (rnd : Q -> Q) (x : Q) : Prop := (rnd x == x)%Q.

(** What the results below use of the precision of the arithmetic: the sum
    of two non-negative [float]s is rounded with a relative error of at
    most [delta], and the double of a non-negative [float] is a [float].
    Rounding to the nearest [float] has the two properties with
    [delta = 2^-24], underflow included (as long as nothing overflows). *)
Record FloatArithmetic (rnd : Q -> Q) (delta : Q) : Prop := mkFloatArithmetic {
  delta_nonneg : (0 <= delta)%Q;
  sum_relative : forall x y,
    (0 <= x)%Q -> (0 <= y)%Q -> representable rnd x -> representable rnd y ->
    (rnd (x + y) <= (1 + delta) * (x + y))%Q;
  double_representable : forall x,
    (0 <= x)%Q -> representable rnd x -> representable rnd (2 * x)
}.

(** [(1 + delta)^n], the factor by which [n] roundings in a row can
    enlarge a result. *)
Fixpoint errorGrowth (delta : Q) (n : nat) : Q :=
  match n with
  | O => 1%Q
  | S k => ((1 + delta) * errorGrowth delta k)%Q
  end.

(** The [n] additions of [calculateAverageLoad] enlarge the sum of the
    loads of [n] servers by less than one part in [4 n]. *)
Definition averageWithinPrecision (delta : Q) (n : nat) : Prop :=
  (errorGrowth delta n * (4 * inject_Z (Z.of_nat n))
   <= 4 * inject_Z (Z.of_nat n) + 1)%Q.

(** The loads are non-negative values that a [float] holds. *)
Definition floatLoads (rnd : Q -> Q) (servers : list Server) : Prop :=
  forall k, k < length servers ->
    (0 <= loadAt servers k)%Q /\ representable rnd (loadAt servers k).

(** *** Rounding to the nearest [float] *)

(** The integer nearest to [y], the even one of the two when [y] lies
    half-way. *)
Definition roundHalfEven (y : Q) : Z :=
  let f := Qfloor y in
  match (y - inject_Z f ?= 1 # 2)%Q with
  | Lt => f
  | Gt => (f + 1)%Z
  | Eq => if Z.even f then f else (f + 1)%Z
  end.

(** For [x > 0], the exponent [e] with [2^e <= x < 2^(e+1)]. *)
Definition floorLog2 (x : Q) : Z :=
  let e := (Z.log2 (Qnum x) - Z.log2 (Zpos (Qden x)))%Z in
  if fless x (2 ^ e)%Q then (e - 1)%Z else e.

(** The exponent of the unit in the last place of the binary32 values
    around [x > 0]: 24 significant bits, and below [2^-126] the multiples
    of [2^-149]. *)
Definition ulpExponent (x : Q) : Z := Z.max (floorLog2 x - 23) (-149).

(** For [x > 0], the multiple of that unit nearest to [x]. *)
Definition roundPositive (x : Q) : Q :=
  (inject_Z (roundHalfEven (x / 2 ^ ulpExponent x)) * 2 ^ ulpExponent x)%Q.

(** Rounding to the nearest IEEE 754 binary32 value, ties to even.
    Overflow (a result of [2^128] or more) is not represented; the loads
    of the two programs stay far below. *)
Definition round32 (x : Q) : Q :=
  match Qnum x with
  | Z0 => 0%Q
  | Zpos _ => roundPositive x
  | Zneg _ => (- roundPositive (- x))%Q
  end.

(** The value of a finite binary32 number of the standard library's
    specification of IEEE 754 arithmetic. *)
Definition SF2Q (f : spec_float) : Q :=
  match f with
  | S754_finite s m e =>
      ((if s then -1 else 1) * inject_Z (Zpos m) * 2 ^ e)%Q
  | _ => 0%Q
  end.

(** The loads of the run on which the rounded average exceeds the greatest
    load: the [float]s nearest to 5.8321042 and 5.8321047. *)
Definition load_5_8321042 : Q := 12230809 # 2097152.
Definition load_5_8321047 : Q := 6115405 # 1048576.

(* ##################################################################### *)
(** * Properties *)
(* ##################################################################### *)

(* ===================================================================== *)
(** ** Facts used by the recursive definitions *)
(* ===================================================================== *)

Lemma parentOf_lt index : index <> 0 -> parentOf index < index.
Proof. unfold parentOf. intros H. lia. Qed.

Lemma smallestOf_cases a sz i :
  smallestOf a sz i = i \/
  (smallestOf a sz i = 2 * i + 1 /\ 2 * i + 1 < sz) \/
  (smallestOf a sz i = 2 * i + 2 /\ 2 * i + 2 < sz).
Proof.
  unfold smallestOf.
  destruct (2 * i + 1 <? sz) eqn:E1; destruct (2 * i + 2 <? sz) eqn:E2; simpl;
    repeat match goal with
           | |- context [if ?b then _ else _] => destruct b
           end;
    try apply Nat.ltb_lt in E1; try apply Nat.ltb_lt in E2; auto.
Qed.

Lemma clearBuffer_length input : length (clearBuffer input) <= length input.
Proof.
  induction input as [|c rest IH]; simpl; auto.
  destruct (Ascii.eqb c newline); lia.
Qed.

(* ===================================================================== *)
(** ** Arrays: reads, writes and swaps *)
(* ===================================================================== *)

Section Arrays.
Context {A : Type}.
Implicit Types (a : list A) (x d : A).

Lemma length_store a i x : length (store a i x) = length a.
Proof.
  revert i; induction a as [|y t IH]; intros [|i]; simpl; auto.
Qed.

Lemma nth_store_eq a i x d : i < length a -> nth i (store a i x) d = x.
Proof.
  revert i; induction a as [|y t IH]; intros [|i]; simpl; intros H;
    try lia; auto.
  apply IH; lia.
Qed.

Lemma nth_store_ne a i j x d : i <> j -> nth j (store a i x) d = nth j a d.
Proof.
  revert i j; induction a as [|y t IH]; intros [|i] [|j]; simpl; intros H;
    try lia; auto.
Qed.

(** Writing [x] into slot [i] trades it for the old content of the slot. *)
Lemma store_trade a i x d :
  i < length a -> Permutation (x :: a) (nth i a d :: store a i x).
Proof.
  revert i; induction a as [|y t IH]; intros [|i]; simpl; intros H; try lia.
  - apply perm_swap.
  - rewrite perm_swap. rewrite (IH i) by lia. apply perm_swap.
Qed.

Lemma nth_app_left a x i d : i < length a -> nth i (a ++ [x]) d = nth i a d.
Proof. intros H. now rewrite app_nth1. Qed.

Lemma nth_removelast a i d :
  i < length a - 1 -> nth i (removelast a) d = nth i a d.
Proof.
  revert i; induction a as [|y t IH]; intros i H; simpl in *; try lia.
  destruct t as [|z t']; simpl in *; try lia.
  destruct i as [|i]; auto. apply IH. lia.
Qed.

Lemma length_removelast a : length (removelast a) = length a - 1.
Proof.
  induction a as [|y t IH]; simpl; auto.
  destruct t; simpl in *; auto. rewrite IH. lia.
Qed.
End Arrays.

Lemma fless_true x y : fless x y = true <-> (x < y)%Q.
Proof.
  unfold fless. destruct (Qlt_le_dec x y); split; intros; try discriminate; auto.
  lra.
Qed.

Lemma fless_false x y : fless x y = false <-> (y <= x)%Q.
Proof.
  unfold fless. destruct (Qlt_le_dec x y); split; intros; try discriminate; auto.
  lra.
Qed.

Lemma length_swap a i j : length (swap a i j) = length a.
Proof. unfold swap. now rewrite !length_store. Qed.

Lemma at_swap a i j k :
  i < length a -> j < length a ->
  at_ (swap a i j) k =
  if k =? j then at_ a i else if k =? i then at_ a j else at_ a k.
Proof.
  intros Hi Hj. unfold swap, at_.
  destruct (Nat.eqb_spec k j) as [->|Hkj].
  - apply nth_store_eq. now rewrite length_store.
  - rewrite nth_store_ne by lia.
    destruct (Nat.eqb_spec k i) as [->|Hki].
    + now apply nth_store_eq.
    + now rewrite nth_store_ne by lia.
Qed.

Lemma swap_perm a i j :
  i < length a -> j < length a -> Permutation (swap a i j) a.
Proof.
  intros Hi Hj. unfold swap.
  pose proof (store_trade a (at_ a j) noNode Hi) as P1.
  assert (Hj' : j < length (store a i (at_ a j))) by now rewrite length_store.
  pose proof (store_trade (store a i (at_ a j)) (at_ a i) noNode Hj') as P2.
  assert (E : nth j (store a i (at_ a j)) noNode = at_ a j).
  { destruct (Nat.eq_dec i j) as [->|N].
    - now apply nth_store_eq.
    - now rewrite nth_store_ne. }
  rewrite E in P2. fold (at_ a i) in P1.
  symmetry. eapply Permutation_cons_inv with (a := at_ a j).
  now rewrite P1.
Qed.

(* ===================================================================== *)
(** ** Sifting restores the heap order *)
(* ===================================================================== *)

Lemma parentOf_child j i : 0 < j -> parentOf j = i -> j = 2 * i + 1 \/ j = 2 * i + 2.
Proof. unfold parentOf. intros. lia. Qed.

Lemma parentOf_left i : parentOf (2 * i + 1) = i.
Proof. unfold parentOf. lia. Qed.

Lemma parentOf_right i : parentOf (2 * i + 2) = i.
Proof. unfold parentOf. lia. Qed.

Lemma parentOf_le j : parentOf j <= j.
Proof. unfold parentOf. lia. Qed.

Lemma length_heapifyUp a i : length (heapifyUp a i) = length a.
Proof.
  funelim (heapifyUp a i); auto.
  match goal with IH : length (heapifyUp _ _) = _ |- _ => rewrite IH end.
  apply length_swap.
Qed.

Lemma heapifyUp_perm a i : i < length a -> Permutation (heapifyUp a i) a.
Proof.
  funelim (heapifyUp a i); intros Hi; auto.
  assert (Hp : parentOf index < length a)
    by (pose proof (parentOf_le index); lia).
  match goal with IH : _ -> Permutation (heapifyUp _ _) _ |- _ =>
    rewrite IH by (rewrite length_swap; exact Hp) end.
  now apply swap_perm.
Qed.

Lemma heapifyUp_ordered a i : up_inv a i -> heap_ordered (heapifyUp a i).
Proof.
  funelim (heapifyUp a i); intros (Hi & Hrest & Hgrand).
  - (* index == 0 *)
    intros j Hj. apply Hrest; lia.
  - (* a[index] < a[parent]: swap and continue from the parent *)
    match goal with IH : up_inv _ _ -> _ |- _ => apply IH end.
    apply fless_true in Heq.
    set (p := parentOf index) in *.
    assert (Hpi : p < index) by (subst p; now apply parentOf_lt).
    assert (Hp : p < length a) by lia.
    unfold up_inv, le_at. rewrite length_swap.
    split; [exact Hp|]. split.
    + intros j Hj Hjp.
      rewrite !at_swap by assumption.
      destruct (Nat.eqb_spec j p) as [|_]; [contradiction|].
      destruct (Nat.eqb_spec j index) as [->|Hji].
      * fold p. rewrite Nat.eqb_refl. lra.
      * destruct (Nat.eqb_spec (parentOf j) p) as [Ep|Np].
        -- specialize (Hrest j Hj Hji). unfold le_at in Hrest.
           rewrite Ep in Hrest. lra.
        -- destruct (Nat.eqb_spec (parentOf j) index) as [Ei|Ni].
           ++ assert (Hpos : 0 < index) by lia.
              specialize (Hgrand j Hj Ei Hpos). unfold le_at in Hgrand.
              fold p in Hgrand. exact Hgrand.
           ++ apply (Hrest j Hj Hji).
    + intros j Hj Ejp Hp0.
      assert (Hpp : parentOf p < p) by (apply parentOf_lt; lia).
      assert (Hjp : p < j) by (rewrite <- Ejp; apply parentOf_lt; lia).
      rewrite !at_swap by assumption.
      destruct (Nat.eqb_spec (parentOf p) p) as [|_]; [lia|].
      destruct (Nat.eqb_spec (parentOf p) index) as [|_]; [lia|].
      destruct (Nat.eqb_spec j p) as [|_]; [lia|].
      assert (H1 : le_at a (parentOf p) p) by (apply Hrest; lia).
      destruct (Nat.eqb_spec j index) as [->|Hji].
      * exact H1.
      * assert (H2 : le_at a (parentOf j) j) by (apply Hrest; lia).
        unfold le_at in *. rewrite Ejp in H2. lra.
  - (* a[index] >= a[parent]: stop *)
    apply fless_false in Heq.
    intros j Hj. destruct (Nat.eq_dec j index) as [->|Hji].
    + exact Heq.
    + now apply Hrest.
Qed.

Lemma smallestOf_le a sz i :
  le_at a (smallestOf a sz i) i /\
  (2 * i + 1 < sz -> le_at a (smallestOf a sz i) (2 * i + 1)) /\
  (2 * i + 2 < sz -> le_at a (smallestOf a sz i) (2 * i + 2)).
Proof.
  unfold smallestOf, le_at.
  destruct (fless (load (at_ a (2 * i + 1))) (load (at_ a i))) eqn:F1;
    [apply fless_true in F1 | apply fless_false in F1];
    destruct (Nat.ltb_spec (2 * i + 1) sz) as [L1|L1];
    destruct (Nat.ltb_spec (2 * i + 2) sz) as [L2|L2]; cbn [andb];
    try match goal with
        | |- context [fless ?x ?y] =>
            let F := fresh "F" in
            destruct (fless x y) eqn:F;
            [apply fless_true in F | apply fless_false in F]
        end;
    repeat split; intros; try lia; try lra.
Qed.

Lemma length_heapifyDown a sz i : length (heapifyDown a sz i) = length a.
Proof.
  funelim (heapifyDown a sz i); auto.
  match goal with IH : length (heapifyDown _ _ _) = _ |- _ => rewrite IH end.
  apply length_swap.
Qed.

Lemma heapifyDown_perm a sz i :
  sz = length a -> i < sz -> Permutation (heapifyDown a sz i) a.
Proof.
  funelim (heapifyDown a sz i); intros Hsz Hi; auto.
  assert (Hs : smallestOf a sz index < sz)
    by (destruct (smallestOf_cases a sz index) as [H1 | [[H1 ?] | [H1 ?]]]; lia).
  match goal with IH : _ -> _ -> Permutation (heapifyDown _ _ _) _ |- _ =>
    rewrite IH by (rewrite ?length_swap; auto) end.
  apply swap_perm; lia.
Qed.

Lemma heapifyDown_ordered a sz i :
  sz = length a -> i < sz -> down_inv a i -> heap_ordered (heapifyDown a sz i).
Proof.
  funelim (heapifyDown a sz i); intros Hsz Hi (Hrest & Hgrand).
  - (* smallest == index: both children are at least a[index] *)
    destruct (smallestOf_le a sz index) as (_ & HL & HR).
    rewrite e in HL, HR.
    intros j Hj. destruct (Nat.eq_dec (parentOf j) index) as [Ep|Np].
    + destruct (parentOf_child (proj1 Hj) Ep) as [-> | ->].
      * rewrite parentOf_left. apply HL. lia.
      * rewrite parentOf_right. apply HR. lia.
    + now apply Hrest.
  - (* swap with the smaller child and continue from there *)
    set (s := smallestOf a sz index) in *.
    destruct (smallestOf_le a sz index) as (Hsi & HL & HR). fold s in Hsi, HL, HR.
    assert (Hchild : (s = 2 * index + 1 \/ s = 2 * index + 2) /\ s < sz)
      by (subst s; destruct (smallestOf_cases a sz index) as [H1 | [[H1 ?] | [H1 ?]]];
          lia).
    destruct Hchild as (Hchild & Hs).
    assert (Eps : parentOf s = index)
      by (destruct Hchild as [-> | ->]; [apply parentOf_left | apply parentOf_right]).
    match goal with IH : _ -> _ -> down_inv _ _ -> _ |- _ => apply IH end;
      rewrite ?length_swap; auto.
    subst sz.
    unfold down_inv, le_at. rewrite length_swap. split.
    + intros j Hj Hjs.
      rewrite !at_swap by assumption.
      destruct (Nat.eqb_spec (parentOf j) s) as [|_]; [contradiction|].
      destruct (Nat.eqb_spec j s) as [->|Njs].
      * rewrite Eps, Nat.eqb_refl. exact Hsi.
      * destruct (Nat.eqb_spec j index) as [->|Nji].
        -- assert (parentOf index < index) by (apply parentOf_lt; lia).
           destruct (Nat.eqb_spec (parentOf index) index) as [|_]; [lia|].
           apply (Hgrand s); lia.
        -- destruct (Nat.eqb_spec (parentOf j) index) as [Ep|Np].
           ++ destruct (parentOf_child (proj1 Hj) Ep) as [-> | ->];
                [apply HL | apply HR]; lia.
           ++ now apply Hrest.
    + intros j Hj Ejs Hs0.
      assert (s < j) by (rewrite <- Ejs; apply parentOf_lt; lia).
      rewrite !at_swap by assumption.
      rewrite Eps.
      destruct (Nat.eqb_spec index s) as [|_]; [lia|].
      rewrite Nat.eqb_refl.
      destruct (Nat.eqb_spec j s) as [|_]; [lia|].
      destruct (Nat.eqb_spec j index) as [|_]; [lia|].
      assert (Hsj : le_at a (parentOf j) j) by (apply Hrest; lia).
      unfold le_at in Hsj. now rewrite Ejs in Hsj.
Qed.

(** In an ordered heap the root is a minimum. *)
Lemma root_minimal a :
  heap_ordered a -> forall j, j < length a -> le_at a 0 j.
Proof.
  intros Ha j. induction j as [j IH] using lt_wf_ind. intros Hj.
  destruct (Nat.eq_dec j 0) as [->|Nj].
  - unfold le_at. lra.
  - assert (Hp : parentOf j < j) by now apply parentOf_lt.
    assert (H1 : le_at a 0 (parentOf j)) by (apply IH; lia).
    assert (H2 : le_at a (parentOf j) j) by (apply Ha; lia).
    unfold le_at in *. lra.
Qed.

Lemma heap_orderedb_spec a : heap_orderedb a = true <-> heap_ordered a.
Proof.
  unfold heap_orderedb, heap_ordered, le_at. rewrite forallb_forall. split.
  - intros H i Hi. specialize (H i). rewrite in_seq in H.
    rewrite negb_true_iff, fless_false in H. apply H. lia.
  - intros H i Hi. rewrite in_seq in Hi.
    rewrite negb_true_iff, fless_false. apply H. lia.
Qed.

(* ===================================================================== *)
(** ** insertHeap, extractMin, updateHeap keep the heap ordered *)
(* ===================================================================== *)

Lemma heap_ordered_nil : heap_ordered [].
Proof. intros i Hi. simpl in Hi. lia. Qed.

Lemma insertHeap_ordered h sid l :
  heap_ordered (arr h) -> heap_ordered (arr (insertHeap h sid l)).
Proof.
  intros Ho. unfold insertHeap, size.
  destruct (capacity h <=? length (arr h)); [exact Ho|]. simpl.
  apply heapifyUp_ordered. unfold up_inv, le_at, at_.
  rewrite length_app. simpl. split; [lia|]. split.
  - intros j Hj Nj. pose proof (parentOf_le j).
    rewrite !nth_app_left by lia. apply Ho. lia.
  - intros j Hj Ej. assert (parentOf j < j) by (apply parentOf_lt; lia). lia.
Qed.

Lemma insertHeap_perm h sid l :
  size h < capacity h ->
  Permutation (arr (insertHeap h sid l)) (mkHeapNode sid l :: arr h).
Proof.
  intros Hc. unfold insertHeap, size in *.
  destruct (Nat.leb_spec (capacity h) (length (arr h))); [lia|]. simpl.
  rewrite heapifyUp_perm by (rewrite length_app; simpl; lia).
  symmetry. apply Permutation_cons_append.
Qed.

Lemma removelast_trade (t : list HeapNode) :
  t <> [] -> Permutation t (nth (length t - 1) t noNode :: removelast t).
Proof.
  induction t as [|x t IH]; intros N; [contradiction|].
  destruct t as [|y t']; [reflexivity|].
  assert (Ny : y :: t' <> []) by discriminate.
  specialize (IH Ny).
  change (removelast (x :: y :: t')) with (x :: removelast (y :: t')).
  replace (nth (length (x :: y :: t') - 1) (x :: y :: t') noNode)
    with (nth (length (y :: t') - 1) (y :: t') noNode)
    by (simpl; now rewrite Nat.sub_0_r).
  etransitivity; [apply perm_skip, IH | apply perm_swap].
Qed.

Lemma extractMin_some h :
  arr h <> [] -> exists m h', extractMin h = Some (m, h').
Proof.
  unfold extractMin. destruct (arr h); [contradiction|]. eauto.
Qed.

Lemma extractMin_none h : extractMin h = None <-> size h = 0.
Proof.
  unfold extractMin, size. destruct (arr h); simpl; split; intros; auto;
    discriminate.
Qed.

Lemma extractMin_cons h r t :
  arr h = r :: t ->
  extractMin h =
  Some (r, mkMinHeap
             (let b := removelast (store (r :: t) 0 (at_ (r :: t) (length (r :: t) - 1))) in
              if 0 <? length b then heapifyDown b (length b) 0 else b)
             (capacity h)).
Proof. unfold extractMin, size. intros ->. reflexivity. Qed.

Lemma extractMin_spec h m h' :
  extractMin h = Some (m, h') ->
  heap_ordered (arr h) ->
  m = at_ (arr h) 0 /\
  Permutation (arr h) (m :: arr h') /\
  heap_ordered (arr h') /\
  capacity h' = capacity h.
Proof.
  destruct (arr h) as [|r t] eqn:Ea.
  { unfold extractMin. rewrite Ea. discriminate. }
  rewrite (extractMin_cons h Ea).
  remember (removelast (store (r :: t) 0 (at_ (r :: t) (length (r :: t) - 1))))
    as b eqn:Eb.
  cbv zeta. intros E Ho. injection E as <- <-. cbn [arr capacity].
  assert (Lb : length b = length t)
    by (subst b; rewrite length_removelast, length_store; simpl; lia).
  assert (Pb : Permutation t b).
  { subst b. destruct t as [|y t']; [reflexivity|].
    cbn [store]. set (x := at_ _ _).
    change (removelast (x :: y :: t')) with (x :: removelast (y :: t')).
    subst x.
    replace (at_ (r :: y :: t') (length (r :: y :: t') - 1))
      with (nth (length (y :: t') - 1) (y :: t') noNode)
      by (unfold at_; simpl; now rewrite Nat.sub_0_r).
    apply removelast_trade. discriminate. }
  assert (Hb : forall j, 0 < j < length b -> at_ b j = at_ (r :: t) j).
  { intros j Hj. subst b. unfold at_.
    rewrite nth_removelast by (rewrite length_store; simpl; lia).
    apply nth_store_ne. lia. }
  assert (Db : down_inv b 0).
  { split.
    - intros j Hj Np. assert (parentOf j < j) by (apply parentOf_lt; lia).
      unfold le_at. rewrite !Hb by lia. apply Ho. simpl. lia.
    - intros; lia. }
  repeat split; auto.
  - destruct (Nat.ltb_spec 0 (length b)).
    + apply perm_skip. apply (Permutation_trans Pb).
      symmetry. now apply heapifyDown_perm.
    + now apply perm_skip.
  - destruct (Nat.ltb_spec 0 (length b)).
    + apply heapifyDown_ordered; auto.
    + intros j Hj. lia.
Qed.

Lemma findIndex_spec a sid k i :
  findIndex a sid k = Some i ->
  k <= i /\ i - k < length a /\ serverId (at_ a (i - k)) = sid.
Proof.
  revert k; induction a as [|e t IH]; simpl; intros k H; [discriminate|].
  destruct (Nat.eqb_spec (serverId e) sid) as [Es|Ns].
  - injection H as <-. rewrite Nat.sub_diag. unfold at_. simpl. repeat split; auto; lia.
  - apply IH in H. destruct H as (H1 & H2 & H3).
    replace (i - k) with (S (i - S k)) by lia.
    unfold at_ in *. simpl. repeat split; auto; lia.
Qed.

Lemma updateHeap_ordered h sid l :
  heap_ordered (arr h) -> heap_ordered (arr (updateHeap h sid l)).
Proof.
  intros Ho. unfold updateHeap.
  destruct (findIndex (arr h) sid 0) as [i|] eqn:Ef; [|exact Ho].
  apply findIndex_spec in Ef. rewrite Nat.sub_0_r in Ef.
  destruct Ef as (_ & Hi & _).
  set (a := setLoad (arr h) i l).
  assert (La : length a = length (arr h)) by (subst a; apply length_store).
  assert (Ai : load (at_ a i) = l)
    by (subst a; unfold setLoad, at_; now rewrite nth_store_eq).
  assert (An : forall j, j <> i -> at_ a j = at_ (arr h) j)
    by (intros j Nj; subst a; unfold setLoad, at_; now rewrite nth_store_ne by lia).
  assert (Grand : forall j, 0 < j < length a -> parentOf j = i -> 0 < i ->
                            le_at a (parentOf i) j).
  { intros j Hj Ej Hpos.
    assert (parentOf i < i) by (apply parentOf_lt; lia).
    assert (i < j) by (rewrite <- Ej; apply parentOf_lt; lia).
    unfold le_at. rewrite !An by lia.
    assert (H1 : le_at (arr h) (parentOf i) i) by (apply Ho; lia).
    assert (H2 : le_at (arr h) (parentOf j) j) by (apply Ho; lia).
    unfold le_at in *. rewrite Ej in H2. lra. }
  destruct ((0 <? i) && fless (load (at_ a i)) (load (at_ a (parentOf i)))) eqn:Eb;
    simpl arr.
  - apply andb_true_iff in Eb. destruct Eb as (Hpos & Hlt).
    apply Nat.ltb_lt in Hpos. apply fless_true in Hlt.
    apply heapifyUp_ordered. split; [lia|]. split; [|exact Grand].
    intros j Hj Nj. unfold le_at. rewrite (An j Nj).
    assert (H2 : le_at (arr h) (parentOf j) j) by (apply Ho; lia).
    destruct (Nat.eq_dec (parentOf j) i) as [Ep|Np].
    + assert (parentOf i < i) by (apply parentOf_lt; lia).
      assert (H1 : le_at (arr h) (parentOf i) i) by (apply Ho; lia).
      rewrite (An (parentOf i)) in Hlt by lia.
      unfold le_at in *. rewrite Ep in *. lra.
    + rewrite (An _ Np). exact H2.
  - apply heapifyDown_ordered; auto; [lia|]. split; [|exact Grand].
    intros j Hj Np. destruct (Nat.eq_dec j i) as [->|Nj].
    + apply andb_false_iff in Eb. destruct Eb as [Eb|Eb].
      * apply Nat.ltb_ge in Eb. lia.
      * apply fless_false in Eb. exact Eb.
    + unfold le_at. rewrite (An j Nj), (An _ Np). apply Ho. lia.
Qed.

Lemma updateHeap_length h sid l : size (updateHeap h sid l) = size h.
Proof.
  unfold updateHeap, size.
  destruct (findIndex (arr h) sid 0); auto.
  destruct (_ && _); simpl;
    rewrite ?length_heapifyUp, ?length_heapifyDown; apply length_store.
Qed.

Lemma applyOp_ordered h op h' :
  heap_ordered (arr h) -> applyOp h op = Some h' -> heap_ordered (arr h').
Proof.
  intros Ho. destruct op as [sid l| |sid l]; simpl.
  - intros [= <-]. now apply insertHeap_ordered.
  - destruct (extractMin h) as [[m h1]|] eqn:E; [|discriminate].
    intros [= <-]. now destruct (extractMin_spec _ E Ho) as (_ & _ & H & _).
  - intros [= <-]. now apply updateHeap_ordered.
Qed.

(** C2. After any sequence of [insertHeap], [extractMin] and [updateHeap]
    calls on an ordered heap (in particular on a freshly created one), with
    [extractMin] called on non-empty heaps only, the array satisfies the
    min-heap property: for every non-root index [i],
    [heap[i].load >= heap[(i-1)/2].load]. *)
Theorem heap_invariant_ops (ops : list HeapOp) (h h' : MinHeap) :
  heap_ordered (arr h) ->
  runOps h ops = Some h' ->
  forall i, 0 < i < size h' ->
    (load (at_ (arr h') ((i - 1) / 2)) <= load (at_ (arr h') i))%Q.
Proof.
  revert h. induction ops as [|op rest IH]; simpl; intros h Ho E.
  - injection E as <-. exact Ho.
  - destruct (applyOp h op) as [h1|] eqn:E1; [|discriminate].
    apply (IH h1); auto. eapply applyOp_ordered; eauto.
Qed.

Lemma heap_invariant_ops_witness :
  runOps (createMinHeap 4)
    [OpInsert 0 5; OpInsert 1 3; OpInsert 2 4; OpExtractMin;
     OpUpdate 2 1; OpInsert 3 4; OpUpdate 0 9]
  = Some (mkMinHeap [mkHeapNode 2 1; mkHeapNode 0 9; mkHeapNode 3 4] 4) /\
  (load (at_ [mkHeapNode 2 1; mkHeapNode 0 9; mkHeapNode 3 4] ((1 - 1) / 2))
   <= load (at_ [mkHeapNode 2 1; mkHeapNode 0 9; mkHeapNode 3 4] 1))%Q /\
  (load (at_ [mkHeapNode 2 1; mkHeapNode 0 9; mkHeapNode 3 4] ((2 - 1) / 2))
   <= load (at_ [mkHeapNode 2 1; mkHeapNode 0 9; mkHeapNode 3 4] 2))%Q.
Proof.
  split; [reflexivity|].
  split;
    apply (@heap_invariant_ops
             [OpInsert 0 5; OpInsert 1 3; OpInsert 2 4; OpExtractMin;
              OpUpdate 2 1; OpInsert 3 4; OpUpdate 0 9]
             (createMinHeap 4)
             (mkMinHeap [mkHeapNode 2 1; mkHeapNode 0 9; mkHeapNode 3 4] 4)
             heap_ordered_nil eq_refl);
    unfold size; simpl; lia.
Defined.

(** C3. On a non-empty ordered heap [extractMin] returns an entry whose
    load is minimal among all entries present; afterwards the heap holds
    exactly the remaining entries and is still ordered. *)
Theorem extractMin_correct (h : MinHeap) :
  size h <> 0 ->
  heap_ordered (arr h) ->
  exists m h',
    extractMin h = Some (m, h') /\
    (forall e, In e (arr h) -> (load m <= load e)%Q) /\
    Permutation (arr h) (m :: arr h') /\
    heap_ordered (arr h').
Proof.
  intros Hs Ho.
  destruct (@extractMin_some h) as (m & h' & E).
  { unfold size in Hs. destruct (arr h); [simpl in Hs; lia | discriminate]. }
  exists m, h'. destruct (extractMin_spec _ E Ho) as (Em & P & Ho' & _).
  repeat split; auto.
  intros e He. destruct (In_nth _ _ noNode He) as (j & Hj & <-).
  subst m. now apply (root_minimal Ho).
Qed.

Lemma extractMin_correct_witness :
  exists m h',
    extractMin (mkMinHeap [mkHeapNode 1 10; mkHeapNode 0 30; mkHeapNode 2 20] 3)
      = Some (m, h') /\
    (forall e, In e [mkHeapNode 1 10; mkHeapNode 0 30; mkHeapNode 2 20] ->
       (load m <= load e)%Q) /\
    Permutation [mkHeapNode 1 10; mkHeapNode 0 30; mkHeapNode 2 20] (m :: arr h') /\
    heap_ordered (arr h').
Proof.
  apply (@extractMin_correct
           (mkMinHeap [mkHeapNode 1 10; mkHeapNode 0 30; mkHeapNode 2 20] 3)).
  - discriminate.
  - apply heap_orderedb_spec. reflexivity.
Defined.

(* ===================================================================== *)
(** ** The registry scans: most loaded, least loaded, average *)
(* ===================================================================== *)

Lemma loadAt_app_mid pre s t : loadAt (pre ++ s :: t) (length pre) = currentLoad s.
Proof. unfold loadAt. now rewrite nth_middle. Qed.

Lemma findLeastLoop_spec rest :
  forall pre l m,
    l < length pre ->
    m = loadAt (pre ++ rest) l ->
    (forall k, k < length pre -> (m <= loadAt (pre ++ rest) k)%Q) ->
    findLeastLoop rest (length pre) l m < length (pre ++ rest) /\
    (forall k, k < length (pre ++ rest) ->
       (loadAt (pre ++ rest) (findLeastLoop rest (length pre) l m)
        <= loadAt (pre ++ rest) k)%Q).
Proof.
  induction rest as [|s t IH]; intros pre l m Hl Em Hmin; simpl.
  - rewrite app_nil_r in *. split; [exact Hl|]. intros k Hk. rewrite <- Em. auto.
  - assert (Eapp : pre ++ s :: t = (pre ++ [s]) ++ t) by now rewrite <- app_assoc.
    assert (Elen : S (length pre) = length (pre ++ [s]))
      by (rewrite length_app; simpl; lia).
    pose proof (loadAt_app_mid pre s t) as Es.
    rewrite Eapp in *. rewrite Elen.
    destruct (fless (currentLoad s) m) eqn:F;
      [apply fless_true in F | apply fless_false in F].
    + apply IH.
      * lia.
      * now rewrite Es.
      * intros k Hk. destruct (Nat.eq_dec k (length pre)) as [->|N].
        -- rewrite Es. lra.
        -- assert (Hk' : k < length pre) by lia. specialize (Hmin k Hk'). lra.
    + apply IH.
      * lia.
      * exact Em.
      * intros k Hk. destruct (Nat.eq_dec k (length pre)) as [->|N].
        -- now rewrite Es.
        -- apply Hmin. lia.
Qed.

Lemma findMostLoop_spec rest :
  forall pre l m,
    l < length pre ->
    m = loadAt (pre ++ rest) l ->
    (forall k, k < length pre -> (loadAt (pre ++ rest) k <= m)%Q) ->
    findMostLoop rest (length pre) l m < length (pre ++ rest) /\
    (forall k, k < length (pre ++ rest) ->
       (loadAt (pre ++ rest) k
        <= loadAt (pre ++ rest) (findMostLoop rest (length pre) l m))%Q).
Proof.
  induction rest as [|s t IH]; intros pre l m Hl Em Hmax; simpl.
  - rewrite app_nil_r in *. split; [exact Hl|]. intros k Hk. rewrite <- Em. auto.
  - assert (Eapp : pre ++ s :: t = (pre ++ [s]) ++ t) by now rewrite <- app_assoc.
    assert (Elen : S (length pre) = length (pre ++ [s]))
      by (rewrite length_app; simpl; lia).
    pose proof (loadAt_app_mid pre s t) as Es.
    rewrite Eapp in *. rewrite Elen.
    destruct (fless m (currentLoad s)) eqn:F;
      [apply fless_true in F | apply fless_false in F].
    + apply IH.
      * lia.
      * now rewrite Es.
      * intros k Hk. destruct (Nat.eq_dec k (length pre)) as [->|N].
        -- rewrite Es. lra.
        -- assert (Hk' : k < length pre) by lia. specialize (Hmax k Hk'). lra.
    + apply IH.
      * lia.
      * exact Em.
      * intros k Hk. destruct (Nat.eq_dec k (length pre)) as [->|N].
        -- now rewrite Es.
        -- apply Hmax. lia.
Qed.

Lemma findLeastLoadedServer_spec servers :
  servers <> [] ->
  findLeastLoadedServer servers < length servers /\
  (forall k, k < length servers ->
     (loadAt servers (findLeastLoadedServer servers) <= loadAt servers k)%Q).
Proof.
  destruct servers as [|s t]; [contradiction|]. intros _.
  unfold findLeastLoadedServer. simpl tl.
  apply (@findLeastLoop_spec t [s] 0 (loadAt (s :: t) 0)); simpl; auto.
  intros k Hk. assert (k = 0) as -> by lia. lra.
Qed.

Lemma findMostLoadedServer_spec servers :
  servers <> [] ->
  findMostLoadedServer servers < length servers /\
  (forall k, k < length servers ->
     (loadAt servers k <= loadAt servers (findMostLoadedServer servers))%Q).
Proof.
  destruct servers as [|s t]; [contradiction|]. intros _.
  unfold findMostLoadedServer. simpl tl.
  apply (@findMostLoop_spec t [s] 0 (loadAt (s :: t) 0)); simpl; auto.
  intros k Hk. assert (k = 0) as -> by lia. lra.
Qed.

Lemma totalLoad_acc servers acc :
  (fold_left (fun total s => total + currentLoad s) servers acc
   == acc + sumLoads servers)%Q.
Proof.
  revert acc; induction servers as [|s t IH]; intros acc; simpl.
  - lra.
  - rewrite IH. lra.
Qed.

Lemma totalLoad_sum servers : (totalLoad servers == sumLoads servers)%Q.
Proof. unfold totalLoad. rewrite totalLoad_acc. lra. Qed.

Lemma length_setCurrentLoad servers i l :
  length (setCurrentLoad servers i l) = length servers.
Proof. apply length_store. Qed.

Lemma loadAt_set_eq servers i l :
  i < length servers -> loadAt (setCurrentLoad servers i l) i = l.
Proof. intros H. unfold loadAt, setCurrentLoad. now rewrite nth_store_eq. Qed.

Lemma loadAt_set_ne servers i j l :
  i <> j -> loadAt (setCurrentLoad servers i l) j = loadAt servers j.
Proof. intros H. unfold loadAt, setCurrentLoad. now rewrite nth_store_ne. Qed.

Lemma sumLoads_set servers i l :
  i < length servers ->
  (sumLoads (setCurrentLoad servers i l)
   == sumLoads servers - loadAt servers i + l)%Q.
Proof.
  unfold setCurrentLoad, loadAt.
  revert i; induction servers as [|s t IH]; intros [|i] H; simpl in *; try lia.
  - lra.
  - rewrite IH by lia. lra.
Qed.

Lemma sumLoads_upper servers m :
  (forall k, k < length servers -> (loadAt servers k <= m)%Q) ->
  (sumLoads servers <= inject_Z (Z.of_nat (length servers)) * m)%Q.
Proof.
  induction servers as [|s t IH]; intros H.
  - simpl. unfold inject_Z. lra.
  - assert (H0 : (currentLoad s <= m)%Q) by (apply (H 0); simpl; lia).
    assert (Ht : (sumLoads t <= inject_Z (Z.of_nat (length t)) * m)%Q).
    { apply IH. intros k Hk. apply (H (S k)). simpl. lia. }
    change (length (s :: t)) with (S (length t)).
    rewrite Nat2Z.inj_succ. unfold Z.succ. rewrite inject_Z_plus.
    simpl sumLoads. change (inject_Z 1) with 1%Q. lra.
Qed.

Lemma sumLoads_lower servers m :
  (forall k, k < length servers -> (m <= loadAt servers k)%Q) ->
  (inject_Z (Z.of_nat (length servers)) * m <= sumLoads servers)%Q.
Proof.
  induction servers as [|s t IH]; intros H.
  - simpl. unfold inject_Z. lra.
  - assert (H0 : (m <= currentLoad s)%Q) by (apply (H 0); simpl; lia).
    assert (Ht : (inject_Z (Z.of_nat (length t)) * m <= sumLoads t)%Q).
    { apply IH. intros k Hk. apply (H (S k)). simpl. lia. }
    change (length (s :: t)) with (S (length t)).
    rewrite Nat2Z.inj_succ. unfold Z.succ. rewrite inject_Z_plus.
    simpl sumLoads. change (inject_Z 1) with 1%Q. lra.
Qed.

Lemma count_pos (servers : list Server) :
  servers <> [] -> (0 < inject_Z (Z.of_nat (length servers)))%Q.
Proof.
  intros N. destruct servers; [contradiction|].
  change 0%Q with (inject_Z 0). rewrite <- Zlt_Qlt. simpl length. lia.
Qed.

(** The mean lies between the least and the greatest load. *)
Lemma average_le_max servers :
  servers <> [] ->
  (calculateAverageLoad servers <= loadAt servers (findMostLoadedServer servers))%Q.
Proof.
  intros N. unfold calculateAverageLoad. rewrite totalLoad_sum.
  pose proof (count_pos N) as Hn.
  apply Qle_shift_div_r; [exact Hn|].
  rewrite Qmult_comm. apply sumLoads_upper.
  apply findMostLoadedServer_spec; auto.
Qed.

Lemma average_ge_bound servers m :
  servers <> [] ->
  (forall k, k < length servers -> (m <= loadAt servers k)%Q) ->
  (m <= calculateAverageLoad servers)%Q.
Proof.
  intros N H. unfold calculateAverageLoad. rewrite totalLoad_sum.
  pose proof (count_pos N) as Hn.
  apply Qle_shift_div_l; [exact Hn|].
  rewrite Qmult_comm. now apply sumLoads_lower.
Qed.

(* ===================================================================== *)
(** ** rebalanceLoads *)
(* ===================================================================== *)



(** When the same server is both the most and the least loaded one, all
    loads are equal and nothing is migrated. *)
Lemma migration_zero_when_same servers :
  servers <> [] ->
  findMostLoadedServer servers = findLeastLoadedServer servers ->
  (migrationAmountOf servers == 0)%Q.
Proof.
  intros N E. unfold migrationAmountOf.
  pose proof (average_le_max N) as Hup.
  destruct (findLeastLoadedServer_spec N) as (_ & Hmin).
  pose proof (@average_ge_bound servers _ N Hmin) as Hlo.
  rewrite <- E in Hlo. lra.
Qed.

(** C4. Whenever [rebalanceLoads] triggers, the reported migration amount
    is [M = (mostLoaded.currentLoad - averageLoad) * 0.5], the most-loaded
    server ends [M] lower, the least-loaded server ends [M] higher, and the
    sum of all current loads is unchanged. *)
Theorem rebalance_conserves_load
  (servers : list Server) (threshold : Q) (heap : MinHeap) :
  servers <> [] ->
  (threshold < imbalanceOf servers)%Q ->
  let A := findMostLoadedServer servers in
  let B := findLeastLoadedServer servers in
  let M := ((loadAt servers A - calculateAverageLoad servers) * (1 # 2))%Q in
  let servers' := fst (fst (rebalanceLoads servers threshold heap)) in
  option_map rep_migrationAmount (snd (rebalanceLoads servers threshold heap))
    = Some M /\
  (loadAt servers' A == loadAt servers A - M)%Q /\
  (loadAt servers' B == loadAt servers B + M)%Q /\
  (totalLoad servers' == totalLoad servers)%Q.
Proof.
  intros N Htrig A B M servers'.
  apply fless_true in Htrig.
  destruct (findMostLoadedServer_spec N) as (HA & _).
  destruct (findLeastLoadedServer_spec N) as (HB & _).
  fold A in HA. fold B in HB.
  subst servers'. unfold rebalanceLoads. rewrite Htrig. cbn [fst snd option_map rep_migrationAmount].
  fold A B M.
  set (servers1 := setCurrentLoad servers A (loadAt servers A - M)).
  assert (L1 : length servers1 = length servers) by apply length_setCurrentLoad.
  split; [reflexivity|].
  assert (EB : loadAt (setCurrentLoad servers1 B (loadAt servers1 B + M)) B
               = (loadAt servers1 B + M)%Q)
    by (apply loadAt_set_eq; lia).
  split; [|split].
  - destruct (Nat.eq_dec A B) as [E|NE].
    + assert (Z0 : (M == 0)%Q) by (apply migration_zero_when_same; auto).
      rewrite <- E in *. rewrite EB.
      subst servers1. rewrite loadAt_set_eq by lia. lra.
    + rewrite loadAt_set_ne by lia.
      subst servers1. rewrite loadAt_set_eq by lia. lra.
  - rewrite EB. destruct (Nat.eq_dec A B) as [E|NE].
    + assert (Z0 : (M == 0)%Q) by (apply migration_zero_when_same; auto).
      rewrite <- E in *.
      subst servers1. rewrite loadAt_set_eq by lia. lra.
    + subst servers1. rewrite loadAt_set_ne by lia. lra.
  - rewrite !totalLoad_sum. rewrite sumLoads_set by lia.
    subst servers1. rewrite sumLoads_set by lia. lra.
Qed.

Lemma rebalance_conserves_load_witness :
  let servers := [mkServer 0 100 90; mkServer 1 100 60] in
  let heap := mkMinHeap [mkHeapNode 1 60; mkHeapNode 0 90] 2 in
  let M := ((loadAt servers 0 - calculateAverageLoad servers) * (1 # 2))%Q in
  let servers' := fst (fst (rebalanceLoads servers 20 heap)) in
  option_map rep_migrationAmount (snd (rebalanceLoads servers 20 heap)) = Some M /\
  (loadAt servers' 0 == loadAt servers 0 - M)%Q /\
  (loadAt servers' 1 == loadAt servers 1 + M)%Q /\
  (totalLoad servers' == totalLoad servers)%Q.
Proof.
  apply (@rebalance_conserves_load
           [mkServer 0 100 90; mkServer 1 100 60] 20
           (mkMinHeap [mkHeapNode 1 60; mkHeapNode 0 90] 2)).
  - discriminate.
  - reflexivity.
Defined.






(* ===================================================================== *)
(** ** The computed imbalance against the spread of load percentages *)
(* ===================================================================== *)











(* ===================================================================== *)
(** ** Task assignment picks a least-loaded server *)
(* ===================================================================== *)

Lemma extractMin_minimal h m h' :
  extractMin h = Some (m, h') ->
  heap_ordered (arr h) ->
  forall e, In e (arr h) -> (load m <= load e)%Q.
Proof.
  intros E Ho e He. destruct (extractMin_spec _ E Ho) as (Em & _).
  destruct (In_nth _ _ noNode He) as (j & Hj & <-).
  subst m. now apply (root_minimal Ho).
Qed.

Lemma in_sync_length servers h : in_sync servers h -> size h = length servers.
Proof.
  intros (P & _). apply Permutation_length in P.
  now rewrite length_map, length_seq in P.
Qed.

Lemma in_sync_id_lt servers h e :
  in_sync servers h -> In e (arr h) -> serverId e < length servers.
Proof.
  intros (P & _) He.
  assert (Hin : In (serverId e) (seq 0 (length servers))).
  { eapply Permutation_in; [exact P|]. now apply in_map. }
  apply in_seq in Hin. lia.
Qed.

Lemma in_sync_entry servers h k :
  in_sync servers h -> k < length servers ->
  exists e, In e (arr h) /\ serverId e = k.
Proof.
  intros (P & _) Hk.
  assert (Hin : In k (map serverId (arr h))).
  { eapply Permutation_in; [symmetry; exact P|]. apply in_seq. lia. }
  apply in_map_iff in Hin. destruct Hin as (e & E & He). eauto.
Qed.

Lemma in_sync_nodup servers h : in_sync servers h -> NoDup (map serverId (arr h)).
Proof.
  intros (P & _). eapply Permutation_NoDup; [symmetry; exact P|]. apply seq_NoDup.
Qed.

Lemma assignTask_selects_min servers h taskLoad :
  servers <> [] ->
  in_sync servers h ->
  heap_ordered (arr h) ->
  exists m h1,
    extractMin h = Some (m, h1) /\
    assignTask servers h taskLoad =
      Some (serverId m,
            setCurrentLoad servers (serverId m) (loadAt servers (serverId m) + taskLoad),
            insertHeap h1 (serverId m)
              (loadAt (setCurrentLoad servers (serverId m)
                         (loadAt servers (serverId m) + taskLoad)) (serverId m))) /\
    serverId m < length servers /\
    (forall k, k < length servers ->
       (loadAt servers (serverId m) <= loadAt servers k)%Q).
Proof.
  intros N Hs Ho.
  assert (Hne : arr h <> []).
  { pose proof (@in_sync_length servers h Hs) as L. unfold size in L.
    destruct (arr h); [|discriminate].
    destruct servers; [contradiction | discriminate]. }
  destruct (@extractMin_some h Hne) as (m & h1 & E).
  destruct (extractMin_spec _ E Ho) as (Em & P & _).
  assert (Hm : In m (arr h))
    by (eapply Permutation_in; [symmetry; exact P | now left]).
  pose proof (@in_sync_id_lt servers h m Hs Hm) as Hlt.
  exists m, h1. split; [exact E|]. split; [|split; [exact Hlt|]].
  - unfold assignTask. rewrite E.
    destruct (Nat.ltb_spec (serverId m) (length servers)); [reflexivity | lia].
  - intros k Hk. destruct (@in_sync_entry servers h k Hs Hk) as (e & He & <-).
    pose proof (@extractMin_minimal h m h1 E Ho e He) as Hle.
    destruct Hs as (_ & Hl).
    pose proof (Hl m Hm). pose proof (Hl e He). lra.
Qed.

(** C1. With the heap in sync with the registry and ordered, the server
    chosen for the next task is one of minimum current load over all
    servers: its load is at most every server's load, and equals the load of
    the server that the linear scan [findLeastLoadedServer] returns. *)
Theorem greedy_assignment
  (servers : list Server) (h : MinHeap) (taskLoad : Q) :
  servers <> [] ->
  in_sync servers h ->
  heap_ordered (arr h) ->
  exists sid servers' h',
    assignTask servers h taskLoad = Some (sid, servers', h') /\
    sid < length servers /\
    (forall k, k < length servers -> (loadAt servers sid <= loadAt servers k)%Q) /\
    (loadAt servers sid == loadAt servers (findLeastLoadedServer servers))%Q.
Proof.
  intros N Hs Ho.
  destruct (@assignTask_selects_min servers h taskLoad N Hs Ho)
    as (m & h1 & _ & Ea & Hlt & Hmin).
  eexists _, _, _. split; [exact Ea|]. split; [exact Hlt|]. split; [exact Hmin|].
  destruct (findLeastLoadedServer_spec N) as (HB & Hscan).
  apply Qle_antisym; auto.
Qed.

Lemma greedy_assignment_witness :
  let servers := [mkServer 0 100 30; mkServer 1 100 10; mkServer 2 100 20] in
  let heap := mkMinHeap [mkHeapNode 1 10; mkHeapNode 0 30; mkHeapNode 2 20] 3 in
  exists sid servers' h',
    assignTask servers heap 7 = Some (sid, servers', h') /\
    sid < length servers /\
    (forall k, k < length servers -> (loadAt servers sid <= loadAt servers k)%Q) /\
    (loadAt servers sid == loadAt servers (findLeastLoadedServer servers))%Q.
Proof.
  apply (@greedy_assignment
           [mkServer 0 100 30; mkServer 1 100 10; mkServer 2 100 20]
           (mkMinHeap [mkHeapNode 1 10; mkHeapNode 0 30; mkHeapNode 2 20] 3) 7).
  - discriminate.
  - split.
    + simpl. apply perm_swap.
    + intros e [<- | [<- | [<- | []]]]; reflexivity.
  - apply heap_orderedb_spec. reflexivity.
Defined.

(** On ties the heap and the scan may name different servers of the same
    (minimum) load: here the heap yields server 2, the scan server 1. *)
Lemma greedy_tie_example :
  let servers := [mkServer 0 100 10; mkServer 1 100 0; mkServer 2 100 0] in
  let heap := mkMinHeap [mkHeapNode 2 0; mkHeapNode 1 0; mkHeapNode 0 10] 3 in
  option_map (fun r => fst (fst r)) (assignTask servers heap 10) = Some 2 /\
  findLeastLoadedServer servers = 1 /\
  (loadAt servers 2 == loadAt servers 1)%Q.
Proof. repeat split. Qed.

(* ===================================================================== *)
(** ** The simulation keeps the heap in sync with the registry *)
(* ===================================================================== *)

Lemma insertHeap_capacity h sid l : capacity (insertHeap h sid l) = capacity h.
Proof. unfold insertHeap. now destruct (capacity h <=? size h). Qed.

Lemma updateHeap_capacity h sid l : capacity (updateHeap h sid l) = capacity h.
Proof.
  unfold updateHeap. destruct (findIndex (arr h) sid 0); auto.
  now destruct (_ && _).
Qed.

Lemma assignTask_inv servers h taskLoad sid servers' h' :
  servers <> [] ->
  sim_inv servers h ->
  assignTask servers h taskLoad = Some (sid, servers', h') ->
  sim_inv servers' h' /\
  length servers' = length servers /\
  sid < length servers /\
  loadAt servers' sid = (loadAt servers sid + taskLoad)%Q /\
  (forall k, k <> sid -> loadAt servers' k = loadAt servers k).
Proof.
  intros N (Hs & Ho & Hc) Ea.
  destruct (@assignTask_selects_min servers h taskLoad N Hs Ho)
    as (m & h1 & E & Ea' & Hlt & _).
  rewrite Ea' in Ea. injection Ea as <- <- <-.
  set (servers' := setCurrentLoad servers (serverId m)
                     (loadAt servers (serverId m) + taskLoad)).
  assert (Ls : length servers' = length servers) by apply length_setCurrentLoad.
  assert (Lsid : loadAt servers' (serverId m) = (loadAt servers (serverId m) + taskLoad)%Q)
    by (apply loadAt_set_eq; exact Hlt).
  assert (Lne : forall k, k <> serverId m -> loadAt servers' k = loadAt servers k)
    by (intros k Nk; apply loadAt_set_ne; auto).
  destruct (extractMin_spec _ E Ho) as (_ & P & Ho1 & Hc1).
  assert (Hsz : size h1 < capacity h1).
  { pose proof (@in_sync_length servers h Hs) as L.
    apply Permutation_length in P. unfold size in *. simpl in P. lia. }
  pose proof (@insertHeap_perm h1 (serverId m) (loadAt servers' (serverId m)) Hsz) as Pi.
  pose proof (in_sync_nodup Hs) as ND.
  assert (Pids : Permutation (map serverId (arr h)) (serverId m :: map serverId (arr h1)))
    by (apply (Permutation_map serverId) in P; exact P).
  assert (ND' : NoDup (serverId m :: map serverId (arr h1)))
    by (eapply Permutation_NoDup; eauto).
  repeat split; auto.
  - rewrite Ls. apply (Permutation_map serverId) in Pi. simpl in Pi.
    rewrite Pi. rewrite <- Pids. apply Hs.
  - intros e He.
    assert (He' : In e (mkHeapNode (serverId m) (loadAt servers' (serverId m)) :: arr h1))
      by (eapply Permutation_in; eauto).
    destruct He' as [<- | He1]; [simpl; reflexivity|].
    assert (Nid : serverId e <> serverId m).
    { intros Eq. inversion ND' as [|? ? Hnot _]. apply Hnot. rewrite <- Eq.
      now apply in_map. }
    rewrite (Lne _ Nid). apply Hs.
    eapply Permutation_in; [symmetry; exact P | now right].
  - now apply insertHeap_ordered.
  - rewrite insertHeap_capacity. lia.
Qed.

Lemma findIndex_some a sid k :
  In sid (map serverId a) -> exists i, findIndex a sid k = Some i.
Proof.
  revert k; induction a as [|e t IH]; simpl; intros k H; [contradiction|].
  destruct (Nat.eqb_spec (serverId e) sid) as [Es|Ns]; eauto.
  destruct H as [H|H]; [contradiction|]. auto.
Qed.

(** [updateHeap] keeps the identifiers and changes the load of the one
    entry it looks for. *)
Lemma updateHeap_entries h sid l :
  NoDup (map serverId (arr h)) ->
  In sid (map serverId (arr h)) ->
  Permutation (map serverId (arr (updateHeap h sid l))) (map serverId (arr h)) /\
  (forall e, In e (arr (updateHeap h sid l)) ->
     (serverId e = sid /\ load e = l) \/ (serverId e <> sid /\ In e (arr h))).
Proof.
  intros ND Hin.
  destruct (@findIndex_some (arr h) sid 0 Hin) as (i & Ef).
  pose proof (findIndex_spec _ _ _ Ef) as (_ & Hi & Hsid).
  rewrite Nat.sub_0_r in Hi, Hsid.
  set (a := setLoad (arr h) i l).
  assert (Pa : Permutation (arr (updateHeap h sid l)) a).
  { unfold updateHeap. rewrite Ef. fold a.
    assert (La : length a = length (arr h)) by apply length_store.
    destruct (_ && _); simpl.
    - apply heapifyUp_perm. lia.
    - apply heapifyDown_perm; auto. lia. }
  assert (Ptr : Permutation (mkHeapNode sid l :: arr h) (at_ (arr h) i :: a)).
  { subst a. unfold setLoad. rewrite Hsid. apply store_trade. exact Hi. }
  split.
  - rewrite (Permutation_map serverId Pa).
    apply (Permutation_map serverId) in Ptr. simpl in Ptr. rewrite Hsid in Ptr.
    symmetry. eapply Permutation_cons_inv. exact Ptr.
  - intros e He.
    assert (Ha : In e a) by (eapply Permutation_in; eauto).
    destruct (In_nth _ _ noNode Ha) as (j & Hj & Ej).
    assert (La : length a = length (arr h)) by apply length_store.
    destruct (Nat.eq_dec j i) as [->|Nj].
    + left. subst a e. unfold setLoad. rewrite nth_store_eq by exact Hi.
      simpl. auto.
    + right. subst a. unfold setLoad in Ej. rewrite nth_store_ne in Ej by lia.
      split.
      * intros Eq. apply Nj.
        apply (proj1 (NoDup_nth (map serverId (arr h)) 0) ND);
          rewrite ?length_map; try lia.
        change 0 with (serverId noNode). rewrite !map_nth.
        fold (at_ (arr h) i). rewrite Hsid, Ej. exact Eq.
      * rewrite <- Ej. apply nth_In. lia.
Qed.

Lemma rebalanceLoads_inv servers threshold h :
  servers <> [] ->
  sim_inv servers h ->
  sim_inv (fst (fst (rebalanceLoads servers threshold h)))
          (snd (fst (rebalanceLoads servers threshold h))) /\
  length (fst (fst (rebalanceLoads servers threshold h))) = length servers.
Proof.
  intros N (Hs & Ho & Hc). unfold rebalanceLoads.
  destruct (fless threshold (imbalanceOf servers)); cbn [fst snd];
    [|repeat split; auto; apply Hs].
  destruct (findMostLoadedServer_spec N) as (HA & _).
  destruct (findLeastLoadedServer_spec N) as (HB & _).
  set (A := findMostLoadedServer servers) in *.
  set (B := findLeastLoadedServer servers) in *.
  set (M := ((loadAt servers A - calculateAverageLoad servers) * (1 # 2))%Q).
  set (servers1 := setCurrentLoad servers A (loadAt servers A - M)).
  set (servers2 := setCurrentLoad servers1 B (loadAt servers1 B + M)).
  assert (L2 : length servers2 = length servers)
    by (subst servers2 servers1; now rewrite !length_setCurrentLoad).
  set (h1 := updateHeap h A (loadAt servers2 A)).
  set (h2 := updateHeap h1 B (loadAt servers2 B)).
  pose proof (in_sync_nodup Hs) as ND.
  destruct Hs as (Pids & Hl).
  assert (InA : In A (map serverId (arr h)))
    by (eapply Permutation_in; [symmetry; exact Pids | apply in_seq; lia]).
  destruct (@updateHeap_entries h A (loadAt servers2 A) ND InA) as (P1 & E1).
  fold h1 in P1, E1.
  assert (ND1 : NoDup (map serverId (arr h1)))
    by (eapply Permutation_NoDup; [symmetry; exact P1 | exact ND]).
  assert (InB : In B (map serverId (arr h1))).
  { eapply Permutation_in; [symmetry; exact P1|].
    eapply Permutation_in; [symmetry; exact Pids | apply in_seq; lia]. }
  destruct (@updateHeap_entries h1 B (loadAt servers2 B) ND1 InB) as (P2 & E2).
  fold h2 in P2, E2.
  split; [|exact L2]. split; [split|split].
  - rewrite L2, P2, P1. exact Pids.
  - intros e He. destruct (E2 e He) as [(-> & ->) | (NB & He1)]; [reflexivity|].
    destruct (E1 e He1) as [(-> & ->) | (NA & He0)]; [reflexivity|].
    subst servers2 servers1. rewrite !loadAt_set_ne by auto. now apply Hl.
  - subst h2 h1. now apply updateHeap_ordered, updateHeap_ordered.
  - subst h2 h1. rewrite !updateHeap_capacity. lia.
Qed.

Lemma insertHeap_size h sid l :
  size h < capacity h -> size (insertHeap h sid l) = S (size h).
Proof.
  intros H. pose proof (@insertHeap_perm h sid l H) as P.
  apply Permutation_length in P. exact P.
Qed.

Lemma initHeap_from k :
  forall a h,
    size h + k <= capacity h ->
    heap_ordered (arr h) ->
    let h' := fold_left (fun h i => insertHeap h i 0%Q) (seq a k) h in
    Permutation (map serverId (arr h')) (map serverId (arr h) ++ seq a k) /\
    heap_ordered (arr h') /\
    capacity h' = capacity h /\
    (forall e, In e (arr h') -> In e (arr h) \/ load e = 0%Q).
Proof.
  induction k as [|k IH]; intros a h Hsz Ho; simpl.
  - rewrite app_nil_r. repeat split; auto.
  - assert (Hlt : size h < capacity h) by lia.
    pose proof (@insertHeap_perm h a 0%Q Hlt) as P.
    destruct (IH (S a) (insertHeap h a 0%Q)) as (P' & Ho' & Hc' & Hl').
    + rewrite insertHeap_size, insertHeap_capacity by exact Hlt. lia.
    + now apply insertHeap_ordered.
    + repeat split; auto.
      * rewrite P'. rewrite (Permutation_map serverId P). simpl.
        rewrite <- Permutation_middle. reflexivity.
      * now rewrite Hc', insertHeap_capacity.
      * intros e He. destruct (Hl' e He) as [Hin | Hz]; auto.
        assert (Hin' : In e (mkHeapNode a 0 :: arr h))
          by (eapply Permutation_in; eauto).
        destruct Hin' as [<- | Hin']; auto.
Qed.

Lemma length_initServersFrom i caps : length (initServersFrom i caps) = length caps.
Proof. revert i; induction caps; intros i; simpl; auto. Qed.

Lemma loadAt_initServersFrom caps :
  forall i k, loadAt (initServersFrom i caps) k = 0%Q.
Proof.
  unfold loadAt. induction caps as [|c t IH]; intros i [|k]; simpl; auto.
Qed.

Lemma init_sim_inv caps :
  sim_inv (initServers caps) (initHeap (length caps)) /\
  length (initServers caps) = length caps /\
  nonNegativeLoads (initServers caps).
Proof.
  unfold initServers, initHeap.
  destruct (@initHeap_from (length caps) 0 (createMinHeap (length caps)))
    as (P & Ho & Hc & Hl).
  - simpl. lia.
  - apply heap_ordered_nil.
  - simpl in P, Hc, Hl.
    pose proof (length_initServersFrom 0 caps) as L.
    split; [split; [split|split]|split]; auto.
    + now rewrite L.
    + intros e He. rewrite loadAt_initServersFrom.
      destruct (Hl e He) as [[] | ->]. reflexivity.
    + now rewrite L.
    + intros k Hk. rewrite loadAt_initServersFrom. lra.
Qed.

(* ===================================================================== *)
(** ** The interactive run on three equal servers and three equal tasks *)
(* ===================================================================== *)

Lemma assignNextTask_skip taskLoads threshold interval st :
  S (tasksAssigned st) mod interval <> 0 ->
  assignNextTask taskLoads threshold interval st =
  match assignTask (st_servers st) (st_heap st)
          (nth (tasksAssigned st) taskLoads 0%Q) with
  | None => None
  | Some (sid, servers, heap) =>
      Some (mkSimState servers heap (S (tasksAssigned st)) (st_assignedTo st ++ [sid]))
  end.
Proof.
  intros H. unfold assignNextTask.
  destruct (assignTask _ _ _) as [[[sid servers] heap]|]; auto.
  destruct (Nat.eqb_spec (S (tasksAssigned st) mod interval) 0); [contradiction|].
  reflexivity.
Qed.

Section ThreeServers.
Variable threshold : Q.
Variable interval : nat.
Hypothesis interval_gt_3 : 3 < interval.

Local Ltac one_task :=
  rewrite assignNextTask_skip
    by (cbn [tasksAssigned]; rewrite Nat.mod_small by lia; lia);
  reflexivity.

Lemma first_task :
  assignNextTask three_loads threshold interval three_st0 = Some three_st1.
Proof using interval_gt_3. unfold three_st0. one_task. Qed.

Lemma second_task :
  assignNextTask three_loads threshold interval three_st1 = Some three_st2.
Proof using interval_gt_3. unfold three_st1. one_task. Qed.

Lemma third_task :
  assignNextTask three_loads threshold interval three_st2 = Some three_st3.
Proof using interval_gt_3. unfold three_st2. one_task. Qed.

Lemma three_tasks_run choices :
  choices = [2] \/ choices = [1; 1; 1] ->
  runInteractiveSimulation (initServers [100; 100; 100]%Q) three_loads
    threshold interval choices = Some three_st3.
Proof using interval_gt_3.
  intros Hc.
  change (menuLoop choices three_loads threshold interval three_st0 = Some three_st3).
  destruct Hc as [-> | ->].
  - change (menuLoop [2] three_loads threshold interval three_st0)
      with (match assignRemaining 3 three_loads threshold interval three_st0 with
            | None => None
            | Some st' => menuLoop [] three_loads threshold interval st'
            end).
    cbn [assignRemaining].
    rewrite first_task, second_task, third_task. reflexivity.
  - change (menuLoop [1; 1; 1] three_loads threshold interval three_st0)
      with (match assignNextTask three_loads threshold interval three_st0 with
            | None => None
            | Some st' => menuLoop [1; 1] three_loads threshold interval st'
            end).
    rewrite first_task.
    change (menuLoop [1; 1] three_loads threshold interval three_st1)
      with (match assignNextTask three_loads threshold interval three_st1 with
            | None => None
            | Some st' => menuLoop [1] three_loads threshold interval st'
            end).
    rewrite second_task.
    change (menuLoop [1] three_loads threshold interval three_st2)
      with (match assignNextTask three_loads threshold interval three_st2 with
            | None => None
            | Some st' => menuLoop [] three_loads threshold interval st'
            end).
    rewrite third_task. reflexivity.
Qed.
End ThreeServers.

(** C7 (as the code has it). Three servers of capacity 100 at load 0, three
    tasks of load 10 assigned through the heap (menu entry 2, or entry 1
    three times) with a rebalance interval above 3: servers 0, 2 and 1 are
    chosen in this order, so each server receives exactly one task; the
    final loads are [10, 10, 10], summing to 30, and each load percentage is
    load/100*100. *)
Theorem end_to_end_three_servers
  (threshold : Q) (interval : nat) (choices : list nat) :
  3 < interval ->
  choices = [2] \/ choices = [1; 1; 1] ->
  exists st,
    runInteractiveSimulation (initServers [100; 100; 100]%Q) [10; 10; 10]%Q
      threshold interval choices = Some st /\
    st_assignedTo st = [0; 2; 1] /\
    Permutation (st_assignedTo st) [0; 1; 2] /\
    map currentLoad (st_servers st) = [10; 10; 10]%Q /\
    (totalLoad (st_servers st) == 30)%Q /\
    Forall (fun s => (getLoadPercentage s == currentLoad s / 100 * 100)%Q)
           (st_servers st).
Proof.
  intros Hi Hc. eexists. split; [exact (three_tasks_run threshold Hi Hc)|].
  unfold three_st3. cbn [st_assignedTo st_servers]. split; [reflexivity|]. split.
  - apply perm_skip. apply perm_swap.
  - split; [reflexivity|]. split; [reflexivity|].
    repeat constructor.
Qed.

Lemma end_to_end_three_servers_witness :
  exists st,
    runInteractiveSimulation (initServers [100; 100; 100]%Q) [10; 10; 10]%Q
      20 5 [2] = Some st /\
    st_assignedTo st = [0; 2; 1] /\
    Permutation (st_assignedTo st) [0; 1; 2] /\
    map currentLoad (st_servers st) = [10; 10; 10]%Q /\
    (totalLoad (st_servers st) == 30)%Q /\
    Forall (fun s => (getLoadPercentage s == currentLoad s / 100 * 100)%Q)
           (st_servers st).
Proof.
  apply (@end_to_end_three_servers 20 5 [2]); [lia | now left].
Defined.

(** The final loads of that run are not a permutation of [10, 0, 0]. *)
Lemma end_to_end_counterexample :
  exists st,
    runInteractiveSimulation (initServers [100; 100; 100]%Q) [10; 10; 10]%Q
      20 5 [2] = Some st /\
    map currentLoad (st_servers st) = [10; 10; 10]%Q /\
    ~ Permutation (map currentLoad (st_servers st)) [10; 0; 0]%Q /\
    ~ (fold_right Qplus 0 [10; 0; 0] == 30)%Q.
Proof.
  eexists. split; [reflexivity|]. cbn [st_servers]. split; [reflexivity|]. split.
  - intros P.
    assert (Hin : In 0%Q (map currentLoad
              [mkServer 0 100 10; mkServer 1 100 10; mkServer 2 100 10]))
      by (eapply Permutation_in; [symmetry; exact P | right; now left]).
    simpl in Hin. destruct Hin as [H | [H | [H | []]]]; discriminate.
  - intros H. vm_compute in H. discriminate.
Qed.

(* ===================================================================== *)
(** ** Edge validation *)
(* ===================================================================== *)

Lemma chainHas_In chain dest : chainHas chain dest = true <-> In dest chain.
Proof.
  induction chain as [|sid next IH]; simpl.
  - split; [discriminate | intros []].
  - destruct (Z.eqb_spec sid dest) as [->|N].
    + split; auto.
    + rewrite IH. split; auto. intros [E|H]; [contradiction | exact H].
Qed.

Lemma addEdge_out_of_range graph src dest :
  ~ (inRange graph src /\ inRange graph dest) ->
  addEdge graph src dest = (graph, 0%Z, MsgOutOfRange).
Proof.
  unfold inRange, addEdge. intros H.
  destruct (Z.ltb_spec src 0); destruct (Z.geb_spec src (numServers graph));
    destruct (Z.ltb_spec dest 0); destruct (Z.geb_spec dest (numServers graph));
    simpl; auto; lia.
Qed.

Lemma addEdge_in_range graph src dest :
  inRange graph src -> inRange graph dest ->
  addEdge graph src dest =
  if (src =? dest)%Z then (graph, 0%Z, MsgSelfEdge)
  else if edgeExists graph src dest then (graph, 0%Z, MsgAlreadyExists)
  else (mkGraph (numServers graph)
          (store (adjList graph) (Z.to_nat src)
             (dest :: nth (Z.to_nat src) (adjList graph) [])),
        1%Z, MsgAdded).
Proof.
  unfold inRange, addEdge. intros Hs Hd.
  destruct (Z.ltb_spec src 0); destruct (Z.geb_spec src (numServers graph));
    destruct (Z.ltb_spec dest 0); destruct (Z.geb_spec dest (numServers graph));
    simpl; auto; lia.
Qed.

(** C8. [addEdge] of the interactive program returns 0 and leaves the
    graph as it was when an endpoint lies outside [0, N), when source and
    destination coincide, or when the edge is already in the source's
    chain; otherwise it returns 1 and puts the destination at the head of
    the source's chain.  On a 6-server graph, (2,2) is refused as a
    self-edge, (2,99) as out of range, and (2,3) is refused when added
    again. *)
Theorem addEdge_validation (graph : Graph) (src dest : Z) :
  Z.of_nat (length (adjList graph)) = numServers graph ->
  let chain := nth (Z.to_nat src) (adjList graph) [] in
  (~ (inRange graph src /\ inRange graph dest) ->
   addEdge graph src dest = (graph, 0%Z, MsgOutOfRange)) /\
  (inRange graph src -> inRange graph dest -> src = dest ->
   addEdge graph src dest = (graph, 0%Z, MsgSelfEdge)) /\
  (inRange graph src -> inRange graph dest -> src <> dest -> In dest chain ->
   addEdge graph src dest = (graph, 0%Z, MsgAlreadyExists)) /\
  (inRange graph src -> inRange graph dest -> src <> dest -> ~ In dest chain ->
   exists graph',
     addEdge graph src dest = (graph', 1%Z, MsgAdded) /\
     numServers graph' = numServers graph /\
     length (adjList graph') = length (adjList graph) /\
     nth (Z.to_nat src) (adjList graph') [] = dest :: chain /\
     (forall i, i <> Z.to_nat src ->
        nth i (adjList graph') [] = nth i (adjList graph) [])) /\
  (numServers graph = 6%Z ->
   addEdge graph 2 2 = (graph, 0%Z, MsgSelfEdge) /\
   addEdge graph 2 99 = (graph, 0%Z, MsgOutOfRange) /\
   (let graph1 := fst (fst (addEdge graph 2 3)) in
    addEdge graph1 2 3 = (graph1, 0%Z, MsgAlreadyExists))).
Proof.
  intros Hwf chain.
  assert (Same : forall g s d, inRange g s -> inRange g d -> s <> d ->
             In d (nth (Z.to_nat s) (adjList g) []) ->
             addEdge g s d = (g, 0%Z, MsgAlreadyExists)).
  { intros g s d Hs Hd Nsd Hin. rewrite addEdge_in_range by assumption.
    destruct (Z.eqb_spec s d); [contradiction|].
    unfold edgeExists. apply chainHas_In in Hin. now rewrite Hin. }
  split; [apply addEdge_out_of_range|]. split; [|split; [|split]].
  - intros Hs Hd ->. rewrite addEdge_in_range by assumption.
    now rewrite Z.eqb_refl.
  - intros Hs Hd Nsd Hin. now apply Same.
  - intros Hs Hd Nsd Hnot. rewrite addEdge_in_range by assumption.
    destruct (Z.eqb_spec src dest); [contradiction|].
    unfold edgeExists. fold chain.
    destruct (chainHas chain dest) eqn:Ec;
      [apply chainHas_In in Ec; contradiction|].
    eexists. split; [reflexivity|]. cbn [numServers adjList].
    assert (Hlt : Z.to_nat src < length (adjList graph))
      by (unfold inRange in Hs; lia).
    repeat split.
    + apply length_store.
    + now apply nth_store_eq.
    + intros i Ni. apply nth_store_ne. auto.
  - intros H6.
    assert (R2 : inRange graph 2) by (unfold inRange; lia).
    assert (R3 : inRange graph 3) by (unfold inRange; lia).
    split; [|split].
    + rewrite addEdge_in_range by assumption. reflexivity.
    + apply addEdge_out_of_range. unfold inRange. lia.
    + cbv zeta. rewrite (addEdge_in_range R2 R3).
      change (2 =? 3)%Z with false. cbv iota.
      destruct (edgeExists graph 2 3) eqn:Ee; cbn [fst].
      * apply Same; auto; try lia. unfold edgeExists in Ee.
        now apply chainHas_In.
      * apply Same; unfold inRange; cbn [numServers adjList]; try lia.
        rewrite nth_store_eq by lia. now left.
Qed.

Lemma addEdge_validation_witness :
  addEdge (createGraph 6) 2 2 = (createGraph 6, 0%Z, MsgSelfEdge) /\
  addEdge (createGraph 6) 2 99 = (createGraph 6, 0%Z, MsgOutOfRange) /\
  (let graph1 := fst (fst (addEdge (createGraph 6) 2 3)) in
   addEdge graph1 2 3 = (graph1, 0%Z, MsgAlreadyExists)).
Proof.
  exact (proj2 (proj2 (proj2 (proj2
           (@addEdge_validation (createGraph 6) 2 3 eq_refl)))) eq_refl).
Defined.

(* ===================================================================== *)
(** ** The yes/no prompt *)
(* ===================================================================== *)

Lemma clearBuffer_line rest more :
  ~ In newline rest -> clearBuffer (rest ++ newline :: more) = more.
Proof.
  induction rest as [|c t IH]; simpl; intros H.
  - reflexivity.
  - destruct (Ascii.eqb_spec c newline) as [->|N].
    + exfalso. apply H. now left.
    + apply IH. intros Hin. apply H. now right.
Qed.

Lemma canonicalAnswer_cases c :
  (c = "Y"%char \/ c = "y"%char) /\ canonicalAnswer c = "Y"%char \/
  (c = "N"%char \/ c = "n"%char) /\ canonicalAnswer c = "N"%char \/
  ~ isYesNoChar c /\ canonicalAnswer c = "?"%char.
Proof.
  unfold canonicalAnswer, isYesNoChar.
  destruct (Ascii.eqb_spec c "Y") as [->|NY]; [left; simpl; auto|].
  destruct (Ascii.eqb_spec c "y") as [->|Ny]; [left; simpl; auto|].
  destruct (Ascii.eqb_spec c "N") as [->|NN]; [right; left; simpl; auto|].
  destruct (Ascii.eqb_spec c "n") as [->|Nn]; [right; left; simpl; auto|].
  right; right. simpl. split; auto. intros [H | [H | [H | H]]]; contradiction.
Qed.

Lemma getYesNoInput_accept c rest :
  canonicalAnswer c <> "?"%char ->
  getYesNoInput (c :: rest) = Some (canonicalAnswer c, clearBuffer rest, 0).
Proof.
  intros H. simp getYesNoInput.
  destruct (Ascii.eqb_spec (canonicalAnswer c) "?"); [contradiction|].
  reflexivity.
Qed.

Lemma getYesNoInput_reject c rest :
  canonicalAnswer c = "?"%char ->
  getYesNoInput (c :: rest) = reprompted (getYesNoInput (clearBuffer rest)).
Proof.
  intros H. simp getYesNoInput. rewrite H. simpl.
  destruct (getYesNoInput (clearBuffer rest)) as [[[answer unread] errors]|];
    reflexivity.
Qed.

(** C10. The yes/no prompt decides on the first character of the line it
    reads: a line starting with Y or y yields 'Y', one starting with N or n
    yields 'N', in both cases at once and with the rest of the line
    discarded (so "yes" is taken as Y); a line starting with any other
    character is rejected with one error message and the prompt is issued
    again on the input that follows.  (The character tested may be the
    newline of an empty line: [clearBuffer] then discards the line after
    it as well before the new prompt.) *)
Theorem yes_no_first_character (c : ascii) (rest more : list ascii) :
  ~ In newline rest ->
  let line := c :: rest ++ [newline] in
  (c = "Y"%char \/ c = "y"%char ->
   getYesNoInput (line ++ more) = Some ("Y"%char, more, 0)) /\
  (c = "N"%char \/ c = "n"%char ->
   getYesNoInput (line ++ more) = Some ("N"%char, more, 0)) /\
  (~ isYesNoChar c ->
   getYesNoInput (line ++ more) = reprompted (getYesNoInput more)) /\
  (~ isYesNoChar c ->
   forall input,
     getYesNoInput (c :: input) = reprompted (getYesNoInput (clearBuffer input))) /\
  getYesNoInput (["y"; "e"; "s"; newline]%char ++ more) = Some ("Y"%char, more, 0).
Proof.
  intros Hnl line. subst line.
  assert (Eline : forall x, (x :: rest ++ [newline]) ++ more
                            = x :: rest ++ newline :: more)
    by (intros x; simpl; now rewrite <- app_assoc).
  rewrite Eline.
  pose proof (@clearBuffer_line rest more Hnl) as Ecb.
  split; [|split; [|split; [|split]]].
  - intros Hc. rewrite getYesNoInput_accept; destruct Hc as [-> | ->];
      try discriminate; now rewrite Ecb.
  - intros Hc. rewrite getYesNoInput_accept; destruct Hc as [-> | ->];
      try discriminate; now rewrite Ecb.
  - intros Hc. destruct (canonicalAnswer_cases c) as [(H & _) | [(H & _) | (_ & E)]].
    + exfalso. apply Hc. unfold isYesNoChar. tauto.
    + exfalso. apply Hc. unfold isYesNoChar. tauto.
    + rewrite (@getYesNoInput_reject c _ E). now rewrite Ecb.
  - intros Hc input.
    destruct (canonicalAnswer_cases c) as [(H & _) | [(H & _) | (_ & E)]].
    + exfalso. apply Hc. unfold isYesNoChar. tauto.
    + exfalso. apply Hc. unfold isYesNoChar. tauto.
    + apply (@getYesNoInput_reject c input E).
  - cbn [app]. rewrite getYesNoInput_accept by discriminate. reflexivity.
Qed.

Lemma yes_no_first_character_witness :
  getYesNoInput (["n"; "o"; "p"; "e"; newline; "Y"; newline]%char)
  = Some ("N"%char, ["Y"; newline]%char, 0) /\
  getYesNoInput (["m"; "a"; "y"; "b"; "e"; newline; "Y"; newline]%char)
  = reprompted (getYesNoInput ["Y"; newline]%char).
Proof.
  split.
  - refine (proj1 (proj2 (@yes_no_first_character "n"%char ["o"; "p"; "e"]%char
                            ["Y"; newline]%char _)) _); [|now right].
    intros [H | [H | [H | []]]]; discriminate.
  - refine (proj1 (proj2 (proj2 (@yes_no_first_character "m"%char
                            ["a"; "y"; "b"; "e"]%char ["Y"; newline]%char _))) _).
    + intros [H | [H | [H | [H | []]]]]; discriminate.
    + intros [H | [H | [H | H]]]; discriminate.
Defined.

(* ##################################################################### *)
(** * Further properties of the heap *)
(* ##################################################################### *)

Lemma extractMin_size h m h' :
  extractMin h = Some (m, h') -> size h = S (size h') /\ capacity h' = capacity h.
Proof.
  unfold size. destruct (arr h) as [|r t] eqn:Ea.
  { unfold extractMin. rewrite Ea. discriminate. }
  rewrite (extractMin_cons h Ea).
  remember (removelast (store (r :: t) 0 (at_ (r :: t) (length (r :: t) - 1))))
    as b eqn:Eb.
  assert (Lb : length b = length t)
    by (subst b; rewrite length_removelast, length_store; simpl; lia).
  cbv zeta. intros E. injection E as <- <-. cbn [arr capacity].
  destruct (0 <? length b); rewrite ?length_heapifyDown; simpl; split; lia.
Qed.

Lemma applyOp_size h op h' :
  size h <= capacity h ->
  applyOp h op = Some h' ->
  size h' <= capacity h' /\ capacity h' = capacity h.
Proof.
  intros Hs. destruct op as [sid l| |sid l]; simpl.
  - intros [= <-]. rewrite insertHeap_capacity. split; [|reflexivity].
    destruct (Nat.le_gt_cases (capacity h) (size h)) as [Hfull|Hroom].
    + unfold insertHeap. apply Nat.leb_le in Hfull. now rewrite Hfull.
    + rewrite insertHeap_size by exact Hroom. lia.
  - destruct (extractMin h) as [[m h1]|] eqn:E; [|discriminate].
    intros [= <-]. destruct (@extractMin_size h m h1 E) as (H1 & H2). lia.
  - intros [= <-]. rewrite updateHeap_length, updateHeap_capacity. auto.
Qed.

(** X1. The heap never outgrows its array: from a heap with
    [size <= capacity] (a new heap in particular), any sequence of
    [insertHeap], [extractMin] and [updateHeap] calls leaves
    [size <= capacity], with the capacity unchanged. *)
Theorem heap_within_capacity (ops : list HeapOp) (h h' : MinHeap) :
  size h <= capacity h ->
  runOps h ops = Some h' ->
  size h' <= capacity h' /\ capacity h' = capacity h.
Proof.
  revert h. induction ops as [|op rest IH]; simpl; intros h Hs E.
  - injection E as <-. auto.
  - destruct (applyOp h op) as [h1|] eqn:E1; [|discriminate].
    destruct (@applyOp_size h op h1 Hs E1) as (Hs1 & Hc1).
    destruct (IH h1 Hs1 E) as (Hs' & Hc'). split; [exact Hs' | congruence].
Qed.

Lemma heap_within_capacity_witness :
  runOps (createMinHeap 2)
    [OpInsert 0 5; OpInsert 1 3; OpInsert 2 4; OpExtractMin; OpInsert 3 1]
  = Some (mkMinHeap [mkHeapNode 3 1; mkHeapNode 0 5] 2) /\
  size (mkMinHeap [mkHeapNode 3 1; mkHeapNode 0 5] 2)
    <= capacity (mkMinHeap [mkHeapNode 3 1; mkHeapNode 0 5] 2) /\
  capacity (mkMinHeap [mkHeapNode 3 1; mkHeapNode 0 5] 2)
    = capacity (createMinHeap 2).
Proof.
  split; [reflexivity|].
  apply (@heap_within_capacity
           [OpInsert 0 5; OpInsert 1 3; OpInsert 2 4; OpExtractMin; OpInsert 3 1]
           (createMinHeap 2)).
  - unfold size. simpl. lia.
  - reflexivity.
Defined.

(** X2. [insertHeap] below capacity adds exactly the new entry (the other
    entries are kept, the size grows by one); at capacity it leaves the
    heap as it was. *)
Theorem insertHeap_effect (h : MinHeap) (sid : nat) (l : Q) :
  (size h < capacity h ->
   Permutation (arr (insertHeap h sid l)) (mkHeapNode sid l :: arr h) /\
   size (insertHeap h sid l) = S (size h)) /\
  (capacity h <= size h -> insertHeap h sid l = h).
Proof.
  split.
  - intros Hroom. split; [now apply insertHeap_perm | now apply insertHeap_size].
  - intros Hfull. unfold insertHeap. apply Nat.leb_le in Hfull. now rewrite Hfull.
Qed.

Lemma findIndex_none a sid k :
  findIndex a sid k = None <-> (forall e, In e a -> serverId e <> sid).
Proof.
  revert k; induction a as [|e t IH]; simpl; intros k.
  - split; [intros _ e [] | reflexivity].
  - destruct (Nat.eqb_spec (serverId e) sid) as [Es|Ns].
    + split; [discriminate|]. intros H. exfalso. apply (H e); auto.
    + rewrite IH. split.
      * intros H x [<- | Hx]; auto.
      * intros H x Hx. apply H. now right.
Qed.

Lemma findIndex_first a sid :
  forall k i, findIndex a sid k = Some i ->
    forall j, j < i - k -> serverId (at_ a j) <> sid.
Proof.
  induction a as [|e t IH]; simpl; intros k i H j Hj; [discriminate|].
  destruct (Nat.eqb_spec (serverId e) sid) as [Es|Ns].
  - injection H as <-. lia.
  - destruct j as [|j]; [exact Ns|].
    unfold at_. simpl. apply (IH (S k) i H). 
    pose proof (findIndex_spec _ _ _ H) as (Hk & _). lia.
Qed.

(** X3. [updateHeap] for an identifier that no entry carries changes
    nothing. *)
Theorem updateHeap_missing (h : MinHeap) (sid : nat) (l : Q) :
  (forall e, In e (arr h) -> serverId e <> sid) ->
  updateHeap h sid l = h.
Proof.
  intros H. unfold updateHeap.
  now rewrite (proj2 (findIndex_none (arr h) sid 0) H).
Qed.

Lemma updateHeap_missing_witness :
  updateHeap (mkMinHeap [mkHeapNode 1 10; mkHeapNode 0 30] 2) 7 5
  = mkMinHeap [mkHeapNode 1 10; mkHeapNode 0 30] 2.
Proof.
  apply (@updateHeap_missing (mkMinHeap [mkHeapNode 1 10; mkHeapNode 0 30] 2) 7 5).
  intros e [<- | [<- | []]]; discriminate.
Defined.

(** X4. [updateHeap] for an identifier present in the heap rewrites the
    load of the first entry (in array order) that carries it and of no
    other: the new array is a rearrangement of the old one with that one
    load replaced; size and capacity are unchanged. *)
Theorem updateHeap_effect (h : MinHeap) (sid : nat) (l : Q) :
  (exists e, In e (arr h) /\ serverId e = sid) ->
  exists i,
    i < size h /\
    serverId (at_ (arr h) i) = sid /\
    (forall j, j < i -> serverId (at_ (arr h) j) <> sid) /\
    Permutation (arr (updateHeap h sid l))
                (store (arr h) i (mkHeapNode sid l)) /\
    size (updateHeap h sid l) = size h /\
    capacity (updateHeap h sid l) = capacity h.
Proof.
  intros (e & He & Es).
  assert (Hin : In sid (map serverId (arr h)))
    by (rewrite <- Es; now apply in_map).
  destruct (@findIndex_some (arr h) sid 0 Hin) as (i & Ef).
  pose proof (findIndex_spec _ _ _ Ef) as (_ & Hi & Hsid).
  pose proof (@findIndex_first (arr h) sid 0 i Ef) as Hfirst.
  rewrite Nat.sub_0_r in Hi, Hsid, Hfirst.
  exists i. split; [exact Hi|]. split; [exact Hsid|]. split; [exact Hfirst|].
  split; [|split; [apply updateHeap_length | apply updateHeap_capacity]].
  unfold updateHeap. rewrite Ef. unfold setLoad. rewrite Hsid.
  set (a := store (arr h) i (mkHeapNode sid l)).
  assert (La : length a = length (arr h)) by apply length_store.
  destruct (_ && _); simpl.
  - apply heapifyUp_perm. lia.
  - apply heapifyDown_perm; auto. lia.
Qed.

Lemma updateHeap_effect_witness :
  exists i,
    i < size (mkMinHeap [mkHeapNode 1 10; mkHeapNode 0 30; mkHeapNode 2 20] 3) /\
    serverId (at_ [mkHeapNode 1 10; mkHeapNode 0 30; mkHeapNode 2 20] i) = 0 /\
    (forall j, j < i ->
       serverId (at_ [mkHeapNode 1 10; mkHeapNode 0 30; mkHeapNode 2 20] j) <> 0) /\
    Permutation
      (arr (updateHeap (mkMinHeap [mkHeapNode 1 10; mkHeapNode 0 30; mkHeapNode 2 20] 3) 0 5))
      (store [mkHeapNode 1 10; mkHeapNode 0 30; mkHeapNode 2 20] i (mkHeapNode 0 5)) /\
    size (updateHeap (mkMinHeap [mkHeapNode 1 10; mkHeapNode 0 30; mkHeapNode 2 20] 3) 0 5)
      = size (mkMinHeap [mkHeapNode 1 10; mkHeapNode 0 30; mkHeapNode 2 20] 3) /\
    capacity (updateHeap (mkMinHeap [mkHeapNode 1 10; mkHeapNode 0 30; mkHeapNode 2 20] 3) 0 5)
      = capacity (mkMinHeap [mkHeapNode 1 10; mkHeapNode 0 30; mkHeapNode 2 20] 3).
Proof.
  apply (@updateHeap_effect
           (mkMinHeap [mkHeapNode 1 10; mkHeapNode 0 30; mkHeapNode 2 20] 3) 0 5).
  exists (mkHeapNode 0 30). split; [right; now left | reflexivity].
Defined.

Lemma extractAll_spec n :
  forall h,
    size h = n ->
    heap_ordered (arr h) ->
    Permutation (extractAll n h) (arr h) /\
    StronglySorted (fun a b => (load a <= load b)%Q) (extractAll n h).
Proof.
  induction n as [|n IH]; intros h Hn Ho; simpl.
  - unfold size in Hn. destruct (arr h); [|discriminate].
    split; constructor.
  - destruct (extractMin h) as [[m h1]|] eqn:E.
    + destruct (extractMin_spec _ E Ho) as (_ & P & Ho1 & _).
      destruct (@extractMin_size h m h1 E) as (Hs & _).
      destruct (IH h1) as (P1 & S1); auto; [lia|].
      split.
      * rewrite P. now apply perm_skip.
      * constructor; [exact S1|].
        apply Forall_forall. intros e He.
        apply (@extractMin_minimal h m h1 E Ho).
        eapply Permutation_in; [symmetry; exact P|]. right.
        eapply Permutation_in; [exact P1 | exact He].
    + apply extractMin_none in E. lia.
Qed.

(** X5. Emptying an ordered heap with [extractMin] hands out all its
    entries, each once, in order of non-decreasing load. *)
Theorem extractAll_sorted (h : MinHeap) :
  heap_ordered (arr h) ->
  Permutation (extractAll (size h) h) (arr h) /\
  StronglySorted (fun a b => (load a <= load b)%Q) (extractAll (size h) h).
Proof. intros Ho. now apply extractAll_spec. Qed.

Lemma extractAll_sorted_witness :
  Permutation
    (extractAll 4 (mkMinHeap
       [mkHeapNode 3 1; mkHeapNode 1 3; mkHeapNode 2 4; mkHeapNode 0 5] 4))
    [mkHeapNode 3 1; mkHeapNode 1 3; mkHeapNode 2 4; mkHeapNode 0 5] /\
  StronglySorted (fun a b => (load a <= load b)%Q)
    (extractAll 4 (mkMinHeap
       [mkHeapNode 3 1; mkHeapNode 1 3; mkHeapNode 2 4; mkHeapNode 0 5] 4)).
Proof.
  apply (@extractAll_sorted
           (mkMinHeap [mkHeapNode 3 1; mkHeapNode 1 3; mkHeapNode 2 4; mkHeapNode 0 5] 4)).
  apply heap_orderedb_spec. reflexivity.
Defined.

(** X6. Inserting an entry into an ordered heap with room and then
    extracting the minimum yields an entry whose load is at most the
    inserted load and at most every load that was in the heap; what stays
    in the heap is everything else, still ordered. *)
Theorem insert_then_extractMin (h : MinHeap) (sid : nat) (l : Q) :
  heap_ordered (arr h) ->
  size h < capacity h ->
  exists m h',
    extractMin (insertHeap h sid l) = Some (m, h') /\
    (load m <= l)%Q /\
    (forall e, In e (arr h) -> (load m <= load e)%Q) /\
    Permutation (mkHeapNode sid l :: arr h) (m :: arr h') /\
    heap_ordered (arr h') /\
    size h' = size h.
Proof.
  intros Ho Hroom.
  pose proof (@insertHeap_perm h sid l Hroom) as Pi.
  pose proof (@insertHeap_ordered h sid l Ho) as Hoi.
  assert (Hne : arr (insertHeap h sid l) <> []).
  { intros E0. rewrite E0 in Pi. apply Permutation_nil in Pi. discriminate. }
  destruct (@extractMin_some (insertHeap h sid l) Hne) as (m & h' & E).
  destruct (extractMin_spec _ E Hoi) as (_ & P & Ho' & _).
  destruct (@extractMin_size _ m h' E) as (Hs & _).
  rewrite insertHeap_size in Hs by exact Hroom.
  pose proof (@extractMin_minimal _ m h' E Hoi) as Hmin.
  exists m, h'. split; [exact E|]. split; [|split; [|split; [|split]]].
  - apply (Hmin (mkHeapNode sid l)).
    eapply Permutation_in; [symmetry; exact Pi | now left].
  - intros e He. apply Hmin.
    eapply Permutation_in; [symmetry; exact Pi | now right].
  - rewrite <- Pi. exact P.
  - exact Ho'.
  - lia.
Qed.

Lemma insert_then_extractMin_witness :
  exists m h',
    extractMin (insertHeap (mkMinHeap [mkHeapNode 1 10; mkHeapNode 0 30] 3) 2 4)
      = Some (m, h') /\
    (load m <= 4)%Q /\
    (forall e, In e [mkHeapNode 1 10; mkHeapNode 0 30] -> (load m <= load e)%Q) /\
    Permutation (mkHeapNode 2 4 :: [mkHeapNode 1 10; mkHeapNode 0 30]) (m :: arr h') /\
    heap_ordered (arr h') /\
    size h' = size (mkMinHeap [mkHeapNode 1 10; mkHeapNode 0 30] 3).
Proof.
  apply (@insert_then_extractMin (mkMinHeap [mkHeapNode 1 10; mkHeapNode 0 30] 3) 2 4).
  - apply heap_orderedb_spec. reflexivity.
  - unfold size. simpl. lia.
Defined.

(* ##################################################################### *)
(** * Further properties of the balancing engine *)
(* ##################################################################### *)

Lemma findMostLoop_first rest :
  forall pre l m,
    l < length pre ->
    m = loadAt (pre ++ rest) l ->
    (forall k, k < l -> (loadAt (pre ++ rest) k < m)%Q) ->
    (forall k, l <= k < length pre -> (loadAt (pre ++ rest) k <= m)%Q) ->
    forall k, k < findMostLoop rest (length pre) l m ->
      (loadAt (pre ++ rest) k
       < loadAt (pre ++ rest) (findMostLoop rest (length pre) l m))%Q.
Proof.
  induction rest as [|s t IH]; intros pre l m Hl Em Hlt Hle; simpl.
  - intros k Hk. rewrite <- Em. auto.
  - assert (Eapp : pre ++ s :: t = (pre ++ [s]) ++ t) by now rewrite <- app_assoc.
    assert (Elen : S (length pre) = length (pre ++ [s]))
      by (rewrite length_app; simpl; lia).
    pose proof (loadAt_app_mid pre s t) as Es.
    rewrite Eapp in *. rewrite Elen.
    destruct (fless m (currentLoad s)) eqn:F;
      [apply fless_true in F | apply fless_false in F].
    + apply IH.
      * lia.
      * now rewrite Es.
      * intros k Hk. destruct (Nat.lt_ge_cases k l) as [Hkl|Hkl].
        -- specialize (Hlt k Hkl). lra.
        -- assert (Hr : l <= k < length pre) by lia. specialize (Hle k Hr). lra.
      * intros k Hk. assert (k = length pre) as -> by lia. rewrite Es. lra.
    + apply IH.
      * lia.
      * exact Em.
      * exact Hlt.
      * intros k Hk. destruct (Nat.eq_dec k (length pre)) as [->|N].
        -- now rewrite Es.
        -- apply Hle. lia.
Qed.

Lemma findLeastLoop_first rest :
  forall pre l m,
    l < length pre ->
    m = loadAt (pre ++ rest) l ->
    (forall k, k < l -> (m < loadAt (pre ++ rest) k)%Q) ->
    (forall k, l <= k < length pre -> (m <= loadAt (pre ++ rest) k)%Q) ->
    forall k, k < findLeastLoop rest (length pre) l m ->
      (loadAt (pre ++ rest) (findLeastLoop rest (length pre) l m)
       < loadAt (pre ++ rest) k)%Q.
Proof.
  induction rest as [|s t IH]; intros pre l m Hl Em Hlt Hle; simpl.
  - intros k Hk. rewrite <- Em. auto.
  - assert (Eapp : pre ++ s :: t = (pre ++ [s]) ++ t) by now rewrite <- app_assoc.
    assert (Elen : S (length pre) = length (pre ++ [s]))
      by (rewrite length_app; simpl; lia).
    pose proof (loadAt_app_mid pre s t) as Es.
    rewrite Eapp in *. rewrite Elen.
    destruct (fless (currentLoad s) m) eqn:F;
      [apply fless_true in F | apply fless_false in F].
    + apply IH.
      * lia.
      * now rewrite Es.
      * intros k Hk. destruct (Nat.lt_ge_cases k l) as [Hkl|Hkl].
        -- specialize (Hlt k Hkl). lra.
        -- assert (Hr : l <= k < length pre) by lia. specialize (Hle k Hr). lra.
      * intros k Hk. assert (k = length pre) as -> by lia. rewrite Es. lra.
    + apply IH.
      * lia.
      * exact Em.
      * exact Hlt.
      * intros k Hk. destruct (Nat.eq_dec k (length pre)) as [->|N].
        -- now rewrite Es.
        -- apply Hle. lia.
Qed.

(** X7. [findMostLoadedServer] on a non-empty registry returns a valid
    index of a server of greatest current load, and among the servers of
    that load the one of lowest index: every server before it has a
    strictly smaller load. *)
Theorem findMostLoadedServer_first_max (servers : list Server) :
  servers <> [] ->
  findMostLoadedServer servers < length servers /\
  (forall k, k < length servers ->
     (loadAt servers k <= loadAt servers (findMostLoadedServer servers))%Q) /\
  (forall k, k < findMostLoadedServer servers ->
     (loadAt servers k < loadAt servers (findMostLoadedServer servers))%Q).
Proof.
  intros N. destruct (findMostLoadedServer_spec N) as (H1 & H2).
  split; [exact H1|]. split; [exact H2|].
  destruct servers as [|s t]; [contradiction|].
  unfold findMostLoadedServer. simpl tl.
  apply (@findMostLoop_first t [s] 0 (loadAt (s :: t) 0)); simpl; auto.
  - intros k Hk. lia.
  - intros k Hk. assert (k = 0) as -> by lia. lra.
Qed.

Lemma findMostLoadedServer_first_max_witness :
  findMostLoadedServer
    [mkServer 0 100 10; mkServer 1 100 40; mkServer 2 100 40] = 1 /\
  findMostLoadedServer
    [mkServer 0 100 10; mkServer 1 100 40; mkServer 2 100 40] < 3 /\
  (forall k, k < 3 ->
     (loadAt [mkServer 0 100 10; mkServer 1 100 40; mkServer 2 100 40] k
      <= loadAt [mkServer 0 100 10; mkServer 1 100 40; mkServer 2 100 40]
           (findMostLoadedServer
              [mkServer 0 100 10; mkServer 1 100 40; mkServer 2 100 40]))%Q) /\
  (forall k, k < findMostLoadedServer
                   [mkServer 0 100 10; mkServer 1 100 40; mkServer 2 100 40] ->
     (loadAt [mkServer 0 100 10; mkServer 1 100 40; mkServer 2 100 40] k
      < loadAt [mkServer 0 100 10; mkServer 1 100 40; mkServer 2 100 40]
          (findMostLoadedServer
             [mkServer 0 100 10; mkServer 1 100 40; mkServer 2 100 40]))%Q).
Proof.
  split; [reflexivity|].
  apply (@findMostLoadedServer_first_max
           [mkServer 0 100 10; mkServer 1 100 40; mkServer 2 100 40]).
  discriminate.
Defined.

(** X8. [findLeastLoadedServer] on a non-empty registry returns a valid
    index of a server of least current load, and among the servers of that
    load the one of lowest index: every server before it has a strictly
    greater load. *)
Theorem findLeastLoadedServer_first_min (servers : list Server) :
  servers <> [] ->
  findLeastLoadedServer servers < length servers /\
  (forall k, k < length servers ->
     (loadAt servers (findLeastLoadedServer servers) <= loadAt servers k)%Q) /\
  (forall k, k < findLeastLoadedServer servers ->
     (loadAt servers (findLeastLoadedServer servers) < loadAt servers k)%Q).
Proof.
  intros N. destruct (findLeastLoadedServer_spec N) as (H1 & H2).
  split; [exact H1|]. split; [exact H2|].
  destruct servers as [|s t]; [contradiction|].
  unfold findLeastLoadedServer. simpl tl.
  apply (@findLeastLoop_first t [s] 0 (loadAt (s :: t) 0)); simpl; auto.
  - intros k Hk. lia.
  - intros k Hk. assert (k = 0) as -> by lia. lra.
Qed.

Lemma findLeastLoadedServer_first_min_witness :
  findLeastLoadedServer
    [mkServer 0 100 30; mkServer 1 100 5; mkServer 2 100 5] = 1 /\
  findLeastLoadedServer
    [mkServer 0 100 30; mkServer 1 100 5; mkServer 2 100 5] < 3 /\
  (forall k, k < 3 ->
     (loadAt [mkServer 0 100 30; mkServer 1 100 5; mkServer 2 100 5]
        (findLeastLoadedServer
           [mkServer 0 100 30; mkServer 1 100 5; mkServer 2 100 5])
      <= loadAt [mkServer 0 100 30; mkServer 1 100 5; mkServer 2 100 5] k)%Q) /\
  (forall k, k < findLeastLoadedServer
                   [mkServer 0 100 30; mkServer 1 100 5; mkServer 2 100 5] ->
     (loadAt [mkServer 0 100 30; mkServer 1 100 5; mkServer 2 100 5]
        (findLeastLoadedServer
           [mkServer 0 100 30; mkServer 1 100 5; mkServer 2 100 5])
      < loadAt [mkServer 0 100 30; mkServer 1 100 5; mkServer 2 100 5] k)%Q).
Proof.
  split; [reflexivity|].
  apply (@findLeastLoadedServer_first_min
           [mkServer 0 100 30; mkServer 1 100 5; mkServer 2 100 5]).
  discriminate.
Defined.

Lemma setCurrentLoad_keeps servers i l k :
  id (nth k (setCurrentLoad servers i l) noServer) = id (nth k servers noServer) /\
  server_capacity (nth k (setCurrentLoad servers i l) noServer)
  = server_capacity (nth k servers noServer) /\
  (k <> i -> nth k (setCurrentLoad servers i l) noServer = nth k servers noServer).
Proof.
  unfold setCurrentLoad. destruct (Nat.eq_dec i k) as [->|N].
  - destruct (Nat.lt_ge_cases k (length servers)).
    + rewrite nth_store_eq by assumption. simpl.
      split; [reflexivity|]. split; [reflexivity|]. intros C. contradiction.
    + rewrite (nth_overflow (store _ _ _)) by (now rewrite length_store).
      rewrite (nth_overflow servers) by assumption.
      split; [reflexivity|]. split; [reflexivity|]. intros C. contradiction.
  - rewrite nth_store_ne by assumption.
    split; [reflexivity|]. split; reflexivity.
Qed.

(** X11. [rebalanceLoads] changes nothing but the current loads of the
    most and the least loaded server: every other server record is left as
    it was, and all identifiers and capacities are kept. *)
Theorem rebalance_frame
  (servers : list Server) (threshold : Q) (heap : MinHeap) (k : nat) :
  let servers' := fst (fst (rebalanceLoads servers threshold heap)) in
  id (nth k servers' noServer) = id (nth k servers noServer) /\
  server_capacity (nth k servers' noServer)
  = server_capacity (nth k servers noServer) /\
  (k <> findMostLoadedServer servers -> k <> findLeastLoadedServer servers ->
   nth k servers' noServer = nth k servers noServer).
Proof.
  intros servers'. subst servers'. unfold rebalanceLoads.
  destruct (fless threshold (imbalanceOf servers)); cbn [fst snd]; auto.
  set (A := findMostLoadedServer servers).
  set (B := findLeastLoadedServer servers).
  set (M := ((loadAt servers A - calculateAverageLoad servers) * (1 # 2))%Q).
  set (servers1 := setCurrentLoad servers A (loadAt servers A - M)).
  destruct (setCurrentLoad_keeps servers1 B (loadAt servers1 B + M) k) as (I2 & C2 & F2).
  destruct (setCurrentLoad_keeps servers A (loadAt servers A - M) k) as (I1 & C1 & F1).
  fold servers1 in I1, C1, F1.
  split; [congruence|]. split; [congruence|].
  intros NA NB. rewrite (F2 NB). exact (F1 NA).
Qed.

(* ##################################################################### *)
(** * Whole runs: the heap mirror *)
(* ##################################################################### *)

Lemma simRun_keeps_inv steps :
  forall servers h,
    servers <> [] ->
    sim_inv servers h ->
    exists servers' h',
      simRun (servers, h) steps = Some (servers', h') /\
      length servers' = length servers /\
      sim_inv servers' h'.
Proof.
  induction steps as [|step rest IH]; intros servers h N Hinv.
  - exists servers, h. simpl. repeat split; apply Hinv.
  - destruct step as [taskLoad | threshold]; simpl.
    + destruct Hinv as (Hs & Ho & Hc).
      destruct (@assignTask_selects_min servers h taskLoad N Hs Ho)
        as (m & h1 & _ & Ea & _).
      rewrite Ea.
      destruct (@assignTask_inv servers h taskLoad _ _ _ N (conj Hs (conj Ho Hc)) Ea)
        as (Hinv' & L' & Hlt & Lsid & Lne).
      match goal with
      | |- context [simRun (?s, ?g) rest] =>
          destruct (IH s g) as (s' & h' & Er & Ls & Hi); auto
      end.
      * intros E0. rewrite E0 in L'. destruct servers; [contradiction | discriminate].
      * exists s', h'. split; [exact Er|]. split; [lia | exact Hi].
    + destruct (@rebalanceLoads_inv servers threshold h N Hinv) as (Hinv' & L').
      destruct (rebalanceLoads servers threshold h) as [[s1 h1] r]. simpl in *.
      destruct (IH s1 h1) as (s' & h' & Er & Ls & Hi); auto.
      * intros E0. rewrite E0 in L'. destruct servers; [contradiction | discriminate].
      * exists s', h'. split; [exact Er|]. split; [lia | exact Hi].
Qed.

Lemma initServers_nonempty caps : caps <> [] -> initServers caps <> [].
Proof. destruct caps; [contradiction | discriminate]. Qed.

(** X13. The heap mirrors the registry throughout a run: after any
    sequence of task assignments and rebalancing calls from the initial
    state, the heap holds exactly one entry per server, each carrying that
    server's current load, it is ordered, and it fills its capacity. *)
Theorem run_keeps_heap_in_sync (caps : list Q) (steps : list SimStep) :
  caps <> [] ->
  exists servers heap,
    simRun (initServers caps, initHeap (length caps)) steps = Some (servers, heap) /\
    length servers = length caps /\
    Permutation (map serverId (arr heap)) (seq 0 (length caps)) /\
    (forall e, In e (arr heap) -> (load e == loadAt servers (serverId e))%Q) /\
    heap_ordered (arr heap) /\
    size heap = length caps /\
    capacity heap = length caps.
Proof.
  intros N. destruct (init_sim_inv caps) as (Hinv & L0 & _).
  destruct (@simRun_keeps_inv steps _ _ (initServers_nonempty N) Hinv)
    as (s' & h' & Er & Ls & (Hs & Ho & Hc)).
  exists s', h'. split; [exact Er|].
  pose proof (@in_sync_length s' h' Hs) as Hsz.
  destruct Hs as (P & Hl).
  assert (L : length s' = length caps) by lia.
  rewrite L in P.
  repeat split; auto; lia.
Qed.

Lemma run_keeps_heap_in_sync_witness :
  exists servers heap,
    simRun (initServers [100; 50; 80]%Q, initHeap 3)
      [StepAssign 45; StepAssign 50; StepRebalance 20; StepAssign 10]
      = Some (servers, heap) /\
    length servers = 3 /\
    Permutation (map serverId (arr heap)) (seq 0 3) /\
    (forall e, In e (arr heap) -> (load e == loadAt servers (serverId e))%Q) /\
    heap_ordered (arr heap) /\
    size heap = 3 /\
    capacity heap = 3.
Proof.
  apply (@run_keeps_heap_in_sync [100; 50; 80]%Q
           [StepAssign 45; StepAssign 50; StepRebalance 20; StepAssign 10]).
  discriminate.
Defined.

Lemma simulateLoop_simRun taskLoads :
  forall task servers heap assignedTo,
    option_map fst (simulateLoop task taskLoads servers heap assignedTo)
    = simRun (servers, heap)
        (scheduleFrom REBALANCE_INTERVAL REBALANCE_THRESHOLD task taskLoads).
Proof.
  induction taskLoads as [|taskLoad rest IH]; intros task servers heap assignedTo;
    cbn [simulateLoop scheduleFrom simRun simStep fst snd]; [reflexivity|].
  destruct (assignTask servers heap taskLoad) as [[[sid s1] h1]|]; [|reflexivity].
  destruct (task mod REBALANCE_INTERVAL =? 0).
  - cbn [app simRun simStep fst snd].
    destruct (rebalanceLoads s1 REBALANCE_THRESHOLD h1) as [[s2 h2] r].
    cbn [fst]. apply IH.
  - cbn [app]. apply IH.
Qed.

Lemma simulateLoop_count taskLoads :
  forall task servers heap assignedTo r,
    simulateLoop task taskLoads servers heap assignedTo = Some r ->
    length (snd r) = length assignedTo + length taskLoads.
Proof.
  induction taskLoads as [|taskLoad rest IH]; intros task servers heap assignedTo r;
    cbn [simulateLoop].
  - intros [= <-]. simpl. lia.
  - destruct (assignTask servers heap taskLoad) as [[[sid s1] h1]|]; [|discriminate].
    destruct (if task mod REBALANCE_INTERVAL =? 0
              then fst (rebalanceLoads s1 REBALANCE_THRESHOLD h1)
              else (s1, h1)) as [s2 h2].
    intros E. apply IH in E. rewrite E, length_app. simpl. lia.
Qed.

(** X14. The task loop of the automated program, started on the registry
    of [NUM_SERVERS] servers and the heap that [main] builds, runs to its
    end for any task loads: it assigns every task (one server chosen per
    task), the registry keeps its [NUM_SERVERS] servers, and the heap still
    holds one ordered entry per server with that server's load. *)
Theorem simulateTaskAssignment_completes (caps taskLoads : list Q) :
  length caps = NUM_SERVERS ->
  exists servers heap assignedTo,
    simulateTaskAssignment (initServers caps) (initHeap (length caps)) taskLoads
      = Some (servers, heap, assignedTo) /\
    length assignedTo = length taskLoads /\
    length servers = NUM_SERVERS /\
    in_sync servers heap /\
    heap_ordered (arr heap).
Proof.
  intros L6.
  assert (N : caps <> []) by (intros E0; rewrite E0 in L6; discriminate).
  destruct (init_sim_inv caps) as (Hinv & L0 & _).
  destruct (@simRun_keeps_inv
              (scheduleFrom REBALANCE_INTERVAL REBALANCE_THRESHOLD 1 taskLoads)
              _ _ (initServers_nonempty N) Hinv)
    as (s' & h' & Er & Ls & (Hs & Ho & _)).
  pose proof (simulateLoop_simRun taskLoads 1 (initServers caps)
                (initHeap (length caps)) []) as Eq.
  rewrite Er in Eq. unfold simulateTaskAssignment.
  destruct (simulateLoop 1 taskLoads (initServers caps) (initHeap (length caps)) [])
    as [[[s h] log]|] eqn:El; [|discriminate].
  simpl in Eq. injection Eq as -> ->.
  exists s', h', log. split; [reflexivity|].
  pose proof (simulateLoop_count _ _ _ _ _ El) as Hc. simpl in Hc.
  split; [exact Hc|]. split; [lia|]. split; assumption.
Qed.

Lemma simulateTaskAssignment_completes_witness :
  exists servers heap assignedTo,
    simulateTaskAssignment (initServers [100; 90; 110; 85; 120; 95]%Q) (initHeap 6)
      [10; 6; 14; 5; 9; 12; 8; 15]%Q
      = Some (servers, heap, assignedTo) /\
    length assignedTo = 8 /\
    length servers = 6 /\
    in_sync servers heap /\
    heap_ordered (arr heap).
Proof.
  apply (@simulateTaskAssignment_completes
           [100; 90; 110; 85; 120; 95]%Q [10; 6; 14; 5; 9; 12; 8; 15]%Q).
  reflexivity.
Defined.

(* ##################################################################### *)
(** * The interactive menu loop *)
(* ##################################################################### *)

Lemma rebalance_menu_inv taskLoads threshold servers heap assigned assignedTo :
  menu_inv taskLoads (mkSimState servers heap assigned assignedTo) ->
  menu_inv taskLoads
    (mkSimState (fst (fst (rebalanceLoads servers threshold heap)))
                (snd (fst (rebalanceLoads servers threshold heap)))
                assigned assignedTo).
Proof.
  intros (N & Hinv & Hlen & Hcnt). cbn [st_servers st_heap tasksAssigned st_assignedTo] in *.
  destruct (@rebalanceLoads_inv servers threshold heap N Hinv) as (Hinv' & L').
  unfold menu_inv. cbn [st_servers st_heap tasksAssigned st_assignedTo].
  split; [|split; [exact Hinv'|split; [exact Hlen|exact Hcnt]]].
  intros E0. rewrite E0 in L'. destruct servers; [contradiction | discriminate].
Qed.

Lemma assignNextTask_menu taskLoads threshold interval st :
  menu_inv taskLoads st ->
  tasksAssigned st < length taskLoads ->
  exists st',
    assignNextTask taskLoads threshold interval st = Some st' /\
    menu_inv taskLoads st' /\
    tasksAssigned st' = S (tasksAssigned st) /\
    length (st_assignedTo st') = S (length (st_assignedTo st)).
Proof.
  intros (N & Hinv & Hlen & Hcnt) Hlt.
  assert (Ecnt : tasksAssigned st = length (st_assignedTo st))
    by (destruct Hcnt; lia).
  destruct Hinv as (Hs & Ho & Hc).
  set (taskLoad := nth (tasksAssigned st) taskLoads 0%Q).
  destruct (@assignTask_selects_min (st_servers st) (st_heap st) taskLoad N Hs Ho)
    as (m & h1 & _ & Ea & _).
  destruct (@assignTask_inv (st_servers st) (st_heap st) taskLoad _ _ _ N
              (conj Hs (conj Ho Hc)) Ea)
    as (Hinv' & L' & Hm & Lsid & Lne).
  unfold assignNextTask. fold taskLoad. rewrite Ea.
  set (s1 := setCurrentLoad (st_servers st) (serverId m)
               (loadAt (st_servers st) (serverId m) + taskLoad)) in *.
  set (h2 := insertHeap h1 (serverId m) (loadAt s1 (serverId m))) in *.
  assert (Hbase : menu_inv taskLoads
            (mkSimState s1 h2 (S (tasksAssigned st)) (st_assignedTo st ++ [serverId m]))).
  { unfold menu_inv. cbn [st_servers st_heap tasksAssigned st_assignedTo].
    rewrite length_app. simpl length.
    split; [|split; [exact Hinv'|split; [lia|left; lia]]].
    intros E0. rewrite E0 in L'.
    destruct (st_servers st); [contradiction | discriminate]. }
  destruct (S (tasksAssigned st) mod interval =? 0).
  - pose proof (@rebalance_menu_inv taskLoads threshold _ _ _ _ Hbase) as Hreb.
    destruct (rebalanceLoads s1 threshold h2) as [[s3 h3] r]. cbn [fst snd] in *.
    eexists. split; [reflexivity|]. split; [exact Hreb|].
    cbn [tasksAssigned st_assignedTo]. rewrite length_app. simpl. lia.
  - eexists. split; [reflexivity|]. split; [exact Hbase|].
    cbn [tasksAssigned st_assignedTo]. rewrite length_app. simpl. lia.
Qed.

Lemma assignRemaining_menu taskLoads threshold interval n :
  forall st,
    menu_inv taskLoads st ->
    tasksAssigned st + n <= length taskLoads ->
    exists st',
      assignRemaining n taskLoads threshold interval st = Some st' /\
      menu_inv taskLoads st' /\
      tasksAssigned st' = tasksAssigned st + n /\
      length (st_assignedTo st') = length (st_assignedTo st) + n.
Proof.
  induction n as [|n IH]; intros st Hinv Hle; cbn [assignRemaining].
  - exists st. split; [reflexivity|]. split; [exact Hinv|]. split; lia.
  - destruct (@assignNextTask_menu taskLoads threshold interval st Hinv)
      as (st1 & E1 & Hinv1 & Hc1 & Hl1); [lia|].
    rewrite E1.
    destruct (IH st1 Hinv1) as (st' & E' & Hinv' & Hc' & Hl'); [lia|].
    exists st'. split; [exact E'|]. split; [exact Hinv'|]. split; lia.
Qed.

Lemma menuLoop_inv taskLoads threshold interval choices :
  forall st st',
    menu_inv taskLoads st ->
    menuLoop choices taskLoads threshold interval st = Some st' ->
    menu_inv taskLoads st' /\ length taskLoads <= tasksAssigned st'.
Proof.
  induction choices as [|c rest IH]; intros st st' Hinv; cbn [menuLoop];
    destruct (Nat.leb_spec (length taskLoads) (tasksAssigned st)) as [Hdone|Hmore];
    try (intros [= <-]; split; [exact Hinv | exact Hdone]);
    try discriminate.
  destruct c as [|[|[|[|[|[|c]]]]]]; try discriminate.
  - (* 1: assign the next task *)
    destruct (@assignNextTask_menu taskLoads threshold interval st Hinv Hmore)
      as (st1 & E1 & Hinv1 & _). rewrite E1. now apply IH.
  - (* 2: assign all remaining tasks *)
    destruct (@assignRemaining_menu taskLoads threshold interval
                (length taskLoads - tasksAssigned st) st Hinv)
      as (st1 & E1 & Hinv1 & _); [lia|]. rewrite E1. now apply IH.
  - (* 3: manual rebalance *)
    destruct st as [servers heap assigned assignedTo].
    cbn [st_servers st_heap tasksAssigned st_assignedTo] in *.
    pose proof (@rebalance_menu_inv taskLoads threshold _ _ _ _ Hinv) as Hreb.
    destruct (rebalanceLoads servers threshold heap) as [[s3 h3] r].
    cbn [fst snd] in *. now apply IH.
  - (* 4: show status *)
    now apply IH.
  - (* 5: exit *)
    apply IH. destruct Hinv as (N & Hs & Hlen & _).
    unfold menu_inv. cbn [st_servers st_heap tasksAssigned st_assignedTo].
    split; [exact N|]. split; [exact Hs|]. split; [exact Hlen|now right].
Qed.

Lemma menu_inv_init caps taskLoads :
  caps <> [] ->
  menu_inv taskLoads
    (mkSimState (initServers caps) (initHeap (length (initServers caps))) 0 []).
Proof.
  intros N. destruct (init_sim_inv caps) as (Hinv & L0 & _).
  unfold menu_inv. cbn [st_servers st_heap tasksAssigned st_assignedTo].
  rewrite L0. split; [now apply initServers_nonempty|]. split; [exact Hinv|].
  split; [simpl; lia|]. now left.
Qed.

(** X15. However the operator drives the menu (single tasks, all
    remaining tasks, manual rebalancing, status, early exit), when the
    interactive simulation ends its counter equals the task count, no more
    tasks have been assigned than the list holds, and the heap holds one
    ordered entry per server with that server's load. *)
Theorem interactive_run_accounts
  (caps taskLoads : list Q) (threshold : Q) (interval : nat)
  (choices : list nat) (st : SimState) :
  caps <> [] ->
  0 < interval ->
  runInteractiveSimulation (initServers caps) taskLoads threshold interval choices
    = Some st ->
  tasksAssigned st = length taskLoads /\
  length (st_assignedTo st) <= length taskLoads /\
  in_sync (st_servers st) (st_heap st) /\
  heap_ordered (arr (st_heap st)).
Proof.
  intros N _ E. unfold runInteractiveSimulation in E.
  destruct (@menuLoop_inv taskLoads threshold interval choices _ st
              (menu_inv_init taskLoads N) E)
    as ((_ & (Hs & Ho & _) & Hlen & Hcnt) & Hdone).
  split; [destruct Hcnt; lia|]. split; [exact Hlen|]. split; [exact Hs | exact Ho].
Qed.

Lemma interactive_run_accounts_witness :
  exists st,
    runInteractiveSimulation (initServers [100; 50]%Q) [45; 50; 10; 7]%Q 20 2
      [1; 4; 1; 3; 1; 5] = Some st /\
    st_assignedTo st = [0; 1; 0] /\
    tasksAssigned st = length [45; 50; 10; 7]%Q /\
    length (st_assignedTo st) <= length [45; 50; 10; 7]%Q /\
    in_sync (st_servers st) (st_heap st) /\
    heap_ordered (arr (st_heap st)).
Proof.
  eexists. split; [vm_compute; reflexivity|]. split; [reflexivity|].
  apply (@interactive_run_accounts [100; 50]%Q [45; 50; 10; 7]%Q 20 2
           [1; 4; 1; 3; 1; 5]).
  - discriminate.
  - lia.
  - vm_compute. reflexivity.
Defined.

Lemma menuLoop_done choices taskLoads threshold interval st :
  length taskLoads <= tasksAssigned st ->
  menuLoop choices taskLoads threshold interval st = Some st.
Proof.
  intros H. apply Nat.leb_le in H. destruct choices; cbn [menuLoop]; now rewrite H.
Qed.

(** X16. Menu entry 2 as first choice assigns every task of the list and
    ends the loop, whatever is typed after it; menu entry 5 as first choice
    ends the loop with no task assigned and the registry and heap as they
    were built. *)
Theorem menu_assign_all_and_exit
  (caps taskLoads : list Q) (threshold : Q) (interval : nat) (rest : list nat) :
  caps <> [] ->
  0 < interval ->
  (exists st,
     runInteractiveSimulation (initServers caps) taskLoads threshold interval
       (2 :: rest) = Some st /\
     length (st_assignedTo st) = length taskLoads /\
     tasksAssigned st = length taskLoads) /\
  runInteractiveSimulation (initServers caps) taskLoads threshold interval
    (5 :: rest)
  = Some (mkSimState (initServers caps) (initHeap (length (initServers caps)))
            (length taskLoads) []).
Proof.
  intros N _. unfold runInteractiveSimulation.
  set (st0 := mkSimState (initServers caps) (initHeap (length (initServers caps))) 0 []).
  pose proof (@menu_inv_init caps taskLoads N) as Hinv0. fold st0 in Hinv0.
  split.
  - cbn [menuLoop].
    destruct (Nat.leb_spec (length taskLoads) (tasksAssigned st0)) as [Hdone|Hmore].
    + exists st0. subst st0. cbn [tasksAssigned st_assignedTo st_servers] in *.
      assert (E0 : taskLoads = []) by (destruct taskLoads; [reflexivity | simpl in Hdone; lia]).
      subst taskLoads. split; [reflexivity|]. split; reflexivity.
    + destruct (@assignRemaining_menu taskLoads threshold interval
                  (length taskLoads - tasksAssigned st0) st0 Hinv0)
        as (st1 & E1 & Hinv1 & Hc1 & Hl1); [lia|].
      rewrite E1. rewrite menuLoop_done by lia.
      exists st1. split; [reflexivity|].
      subst st0. cbn [tasksAssigned st_assignedTo] in *.
      assert (Hlen : length (st_assignedTo st1) = length taskLoads) by (simpl in Hl1; lia).
      split; [exact Hlen | lia].
  - cbn [menuLoop].
    destruct (Nat.leb_spec (length taskLoads) (tasksAssigned st0)) as [Hdone|Hmore].
    + subst st0. cbn [tasksAssigned] in *.
      assert (E0 : taskLoads = []) by (destruct taskLoads; [reflexivity | simpl in Hdone; lia]).
      subst taskLoads. reflexivity.
    + rewrite menuLoop_done by (cbn [tasksAssigned]; lia). reflexivity.
Qed.

Lemma menu_assign_all_and_exit_witness :
  (exists st,
     runInteractiveSimulation (initServers [100; 50]%Q) [45; 50; 10]%Q 20 2
       [2; 3; 1] = Some st /\
     length (st_assignedTo st) = 3 /\
     tasksAssigned st = 3) /\
  runInteractiveSimulation (initServers [100; 50]%Q) [45; 50; 10]%Q 20 2 [5; 3; 1]
  = Some (mkSimState (initServers [100; 50]%Q) (initHeap 2) 3 []).
Proof.
  apply (@menu_assign_all_and_exit [100; 50]%Q [45; 50; 10]%Q 20 2 [3; 1]).
  - discriminate.
  - lia.
Defined.

(* ##################################################################### *)
(** * Console input *)
(* ##################################################################### *)

(** X17. Whatever is typed, when [getYesNoInput] returns its answer is
    'Y' or 'N' (never the '?' it uses internally for a rejected
    character), and it has read at least one character. *)
Theorem getYesNoInput_answers (input : list ascii)
  (answer : ascii) (unread : list ascii) (errors : nat) :
  getYesNoInput input = Some (answer, unread, errors) ->
  (answer = "Y"%char \/ answer = "N"%char) /\
  length unread < length input.
Proof.
  revert answer unread errors.
  funelim (getYesNoInput input); intros a u e E; try discriminate.
  - (* accepted character *)
    injection E as <- <- <-. split.
    + destruct (canonicalAnswer_cases response) as [(_ & ->) | [(_ & ->) | (_ & C)]];
        auto.
      rewrite C in Heq. discriminate.
    + pose proof (clearBuffer_length rest). simpl. lia.
  - (* rejected character, answer from a later prompt *)
    injection E as <- <- <-.
    match goal with
    | IH : forall a u e, _ = Some (a, u, e) -> _,
      Hr : getYesNoInput (clearBuffer rest) = Some _ |- _ =>
        destruct (IH _ _ _ Hr) as (Ha & Hl)
    end.
    split; [exact Ha|]. pose proof (clearBuffer_length rest). simpl. lia.
Qed.

Lemma getYesNoInput_answers_witness :
  getYesNoInput ["q"; newline; "y"; "e"; "s"; newline; "x"]%char
  = Some ("Y"%char, ["x"]%char, 1) /\
  ("Y"%char = "Y"%char \/ "Y"%char = "N"%char) /\
  length ["x"]%char < length ["q"; newline; "y"; "e"; "s"; newline; "x"]%char.
Proof.
  split; [reflexivity|].
  apply (@getYesNoInput_answers ["q"; newline; "y"; "e"; "s"; newline; "x"]%char
           "Y"%char ["x"]%char 1).
  reflexivity.
Defined.

Lemma clearBuffer_skipn_shorter n c rest :
  length (clearBuffer (skipn n (c :: rest))) < length (c :: rest).
Proof.
  pose proof (clearBuffer_length (skipn n (c :: rest))) as H.
  destruct n as [|n].
  - simpl. destruct (Ascii.eqb c newline); [lia|].
    pose proof (clearBuffer_length rest). lia.
  - change (skipn (S n) (c :: rest)) with (skipn n rest) in *.
    pose proof (length_skipn n rest). simpl. lia.
Qed.

(** X18. Whatever [scanf] does with the input, when [getIntInput] returns
    its value lies in the inclusive range it was given, and at least one
    character has been read. *)
Theorem getIntInput_in_range
  (scanInt : list ascii -> option Z * nat) (minVal maxVal : Z)
  (input : list ascii) (value : Z) (unread : list ascii) (errors : nat) :
  getIntInput scanInt minVal maxVal input = Some (value, unread, errors) ->
  (minVal <= value <= maxVal)%Z /\ length unread < length input.
Proof.
  revert value unread errors.
  funelim (getIntInput scanInt minVal maxVal input); intros v u e E;
    try discriminate;
    try (destruct (getIntInput scanInt minVal maxVal
                     (clearBuffer (skipn n (c :: rest))))
           as [[[v' u'] e']|] eqn:Er; [|discriminate];
         simpl in E; injection E as <- <- <-;
         match goal with
         | IH : forall a b d, Some _ = Some (a, b, d) -> _ |- _ =>
             destruct (IH _ _ _ eq_refl) as (Hv & Hl)
         end;
         split; [exact Hv|];
         pose proof (clearBuffer_skipn_shorter n c rest); lia).
  (* accepted *)
  injection E as <- <- <-. split; [|apply clearBuffer_skipn_shorter].
  match goal with
  | Hb : (_ || _)%bool = false |- _ =>
      apply orb_false_iff in Hb; destruct Hb as (H1 & H2)
  end.
  apply Z.ltb_ge in H1. rewrite Z.gtb_ltb in H2. apply Z.ltb_ge in H2. lia.
Qed.

Lemma getIntInput_in_range_witness :
  getIntInput scanDecimal 1 20
    ["a"; "b"; "c"; newline; "2"; "5"; newline; "5"; newline]%char
  = Some (5%Z, [], 2) /\
  (1 <= 5 <= 20)%Z /\
  length (@nil ascii)
    < length ["a"; "b"; "c"; newline; "2"; "5"; newline; "5"; newline]%char.
Proof.
  split; [reflexivity|].
  apply (@getIntInput_in_range scanDecimal 1 20
           ["a"; "b"; "c"; newline; "2"; "5"; newline; "5"; newline]%char
           5%Z [] 2).
  reflexivity.
Defined.

(* ##################################################################### *)
(** * The topology graph *)
(* ##################################################################### *)

(** X19. After [addEdge] on a valid pair of distinct servers the edge is
    in the graph (whether it was added now or was there before), no other
    edge has appeared or disappeared, and adding it again is refused and
    changes nothing. *)
Theorem addEdge_then_edgeExists (graph : Graph) (src dest : Z) :
  Z.of_nat (length (adjList graph)) = numServers graph ->
  inRange graph src -> inRange graph dest -> src <> dest ->
  let graph' := fst (fst (addEdge graph src dest)) in
  edgeExists graph' src dest = true /\
  (forall s d, (0 <= s)%Z -> (s, d) <> (src, dest) ->
     edgeExists graph' s d = edgeExists graph s d) /\
  addEdge graph' src dest = (graph', 0%Z, MsgAlreadyExists).
Proof.
  intros Hwf Hs Hd Nsd graph'.
  assert (Again : forall g, inRange g src -> inRange g dest ->
            edgeExists g src dest = true ->
            addEdge g src dest = (g, 0%Z, MsgAlreadyExists)).
  { intros g Hs' Hd' He. rewrite addEdge_in_range by assumption.
    destruct (Z.eqb_spec src dest); [contradiction|]. now rewrite He. }
  subst graph'. rewrite (addEdge_in_range Hs Hd).
  destruct (Z.eqb_spec src dest); [contradiction|].
  destruct (edgeExists graph src dest) eqn:Ee; cbn [fst].
  - split; [exact Ee|]. split; [reflexivity|]. now apply Again.
  - assert (Hlt : Z.to_nat src < length (adjList graph))
      by (unfold inRange in Hs; lia).
    set (chain := nth (Z.to_nat src) (adjList graph) []) in *.
    assert (Enew : edgeExists
              (mkGraph (numServers graph)
                 (store (adjList graph) (Z.to_nat src) (dest :: chain))) src dest = true).
    { unfold edgeExists. cbn [adjList]. rewrite nth_store_eq by exact Hlt.
      simpl. now rewrite Z.eqb_refl. }
    split; [exact Enew|]. split.
    + intros s d Hs0 Npair. unfold edgeExists. cbn [adjList].
      destruct (Z.eq_dec s src) as [->|Ns].
      * rewrite nth_store_eq by exact Hlt. fold chain. simpl.
        destruct (Z.eqb_spec dest d) as [->|Nd]; [congruence | reflexivity].
      * rewrite nth_store_ne by (unfold inRange in Hs; lia). reflexivity.
    + apply Again; auto.
Qed.

Lemma addEdge_then_edgeExists_witness :
  let graph' := fst (fst (addEdge (createGraph 4) 1 3)) in
  edgeExists graph' 1 3 = true /\
  (forall s d, (0 <= s)%Z -> (s, d) <> (1, 3)%Z ->
     edgeExists graph' s d = edgeExists (createGraph 4) s d) /\
  addEdge graph' 1 3 = (graph', 0%Z, MsgAlreadyExists).
Proof.
  apply (@addEdge_then_edgeExists (createGraph 4) 1 3).
  - reflexivity.
  - unfold inRange. simpl. lia.
  - unfold inRange. simpl. lia.
  - discriminate.
Defined.

Lemma createGraph_ok n : (0 <= n)%Z -> graph_ok (createGraph n).
Proof.
  intros Hn. unfold graph_ok, createGraph. cbn [adjList numServers].
  rewrite repeat_length. split; [lia|].
  intros i chain E. apply nth_error_In in E. apply repeat_spec in E. subst chain.
  split; [constructor | intros d []].
Qed.

Lemma nth_error_store_eq {A : Type} (a : list A) i x :
  i < length a -> nth_error (store a i x) i = Some x.
Proof.
  revert i; induction a as [|y t IH]; intros [|i] H; simpl in *; try lia; auto.
  apply IH. lia.
Qed.

Lemma nth_error_store_ne {A : Type} (a : list A) i j x :
  i <> j -> nth_error (store a i x) j = nth_error a j.
Proof.
  revert i j; induction a as [|y t IH]; intros [|i] [|j] H; simpl; try lia; auto.
Qed.

Lemma addEdge_ok graph src dest :
  graph_ok graph -> graph_ok (fst (fst (addEdge graph src dest))).
Proof.
  intros (Hwf & Hch).
  destruct (Z.ltb_spec src 0) as [Hneg|Hs0];
    [rewrite addEdge_out_of_range by (unfold inRange; lia); split; auto|].
  destruct (Z.ltb_spec src (numServers graph)) as [Hs1|Hbig];
    [|rewrite addEdge_out_of_range by (unfold inRange; lia); split; auto].
  destruct (Z.ltb_spec dest 0) as [Hneg|Hd0];
    [rewrite addEdge_out_of_range by (unfold inRange; lia); split; auto|].
  destruct (Z.ltb_spec dest (numServers graph)) as [Hd1|Hbig];
    [|rewrite addEdge_out_of_range by (unfold inRange; lia); split; auto].
  assert (Hs : inRange graph src) by (unfold inRange; lia).
  assert (Hd : inRange graph dest) by (unfold inRange; lia).
  rewrite (addEdge_in_range Hs Hd).
  destruct (Z.eqb_spec src dest) as [E|Nsd]; [split; auto|].
  destruct (edgeExists graph src dest) eqn:Ee; [split; auto|].
  cbn [fst]. set (chain := nth (Z.to_nat src) (adjList graph) []).
  assert (Hlt : Z.to_nat src < length (adjList graph)) by lia.
  assert (Echain : nth_error (adjList graph) (Z.to_nat src) = Some chain)
    by (subst chain; now apply nth_error_nth').
  unfold graph_ok. cbn [adjList numServers]. rewrite length_store.
  split; [exact Hwf|].
  intros i c Ec. destruct (Nat.eq_dec (Z.to_nat src) i) as [<-|Ni].
  - rewrite nth_error_store_eq in Ec by exact Hlt. injection Ec as <-.
    destruct (Hch _ _ Echain) as (ND & Hin).
    split.
    + constructor; [|exact ND].
      intros Hc. apply chainHas_In in Hc. unfold edgeExists in Ee.
      fold chain in Ee. congruence.
    + intros d [<- | Hd']; [|unfold inRange in *; cbn [numServers]; now apply Hin].
      unfold inRange. cbn [numServers]. split; [lia|]. lia.
  - rewrite nth_error_store_ne in Ec by exact Ni.
    destruct (Hch _ _ Ec) as (ND & Hin). split; [exact ND|].
    intros d Hd'. unfold inRange in *. cbn [numServers]. now apply Hin.
Qed.

Lemma manualEdgeEntry_ok pairs :
  forall graph, graph_ok graph -> graph_ok (manualEdgeEntry graph pairs).
Proof.
  induction pairs as [|[src dest] rest IH]; intros graph Hok; simpl; auto.
  destruct (src =? -1)%Z; auto. apply IH. now apply addEdge_ok.
Qed.

(** X20. The graph built by the interactive program stays well formed
    under any sequence of edge entries, valid or not: it keeps one chain
    per server, and no chain ever holds a destination twice, an identifier
    outside [0, N) or its own server. *)
Theorem manual_topology_well_formed (n : Z) (pairs : list (Z * Z)) :
  (0 <= n)%Z ->
  let graph := manualEdgeEntry (createGraph n) pairs in
  numServers graph = n /\
  Z.of_nat (length (adjList graph)) = n /\
  forall i chain,
    nth_error (adjList graph) i = Some chain ->
    NoDup chain /\
    forall d, In d chain -> (0 <= d < n)%Z /\ d <> Z.of_nat i.
Proof.
  intros Hn graph.
  assert (Hnum : forall ps g, numServers (manualEdgeEntry g ps) = numServers g).
  { induction ps as [|[s d] rest IH]; intros g; simpl; auto.
    destruct (s =? -1)%Z; auto. rewrite IH.
    unfold addEdge.
    repeat match goal with |- context [if ?b then _ else _] => destruct b end;
      reflexivity. }
  pose proof (manualEdgeEntry_ok pairs (createGraph_ok Hn)) as (Hwf & Hch).
  fold graph in Hwf, Hch.
  assert (En : numServers graph = n) by (subst graph; now rewrite Hnum).
  split; [exact En|]. split; [now rewrite Hwf|].
  intros i chain Ec. destruct (Hch i chain Ec) as (ND & Hin).
  split; [exact ND|]. intros d Hd. destruct (Hin d Hd) as (Hr & Hne).
  unfold inRange in Hr. rewrite En in Hr. auto.
Qed.

Lemma manual_topology_well_formed_witness :
  adjList (manualEdgeEntry (createGraph 3)
             [(0, 1); (0, 1); (2, 2); (0, 7); (0, 2); (-1, 0); (1, 2)]%Z)
  = [[2; 1]; []; []]%Z /\
  numServers (manualEdgeEntry (createGraph 3)
                [(0, 1); (0, 1); (2, 2); (0, 7); (0, 2); (-1, 0); (1, 2)]%Z) = 3%Z.
Proof.
  split; [reflexivity|].
  exact (proj1 (@manual_topology_well_formed 3
                  [(0, 1); (0, 1); (2, 2); (0, 7); (0, 2); (-1, 0); (1, 2)]%Z
                  ltac:(lia))).
Defined.

Lemma automated_addEdge_chain graph src dest m :
  (0 <= src)%Z -> Z.to_nat src < length (adjList graph) ->
  numServers (Automated.addEdge graph src dest) = numServers graph /\
  length (adjList (Automated.addEdge graph src dest)) = length (adjList graph) /\
  nth m (adjList (Automated.addEdge graph src dest)) [] =
    if m =? Z.to_nat src then dest :: nth m (adjList graph) []
    else nth m (adjList graph) [].
Proof.
  intros H0 Hlt. unfold Automated.addEdge. cbn [numServers adjList].
  rewrite length_store. split; [reflexivity|]. split; [reflexivity|].
  destruct (Nat.eqb_spec m (Z.to_nat src)) as [->|N].
  - now rewrite nth_store_eq.
  - rewrite nth_store_ne by auto. reflexivity.
Qed.

(** X21. The automated program's [addEdge] filters nothing and puts each
    new destination in front: adding destinations one after the other to a
    valid source leaves its chain holding all of them, duplicates and the
    source itself included, latest first, ahead of what was there; the
    other chains are untouched. *)
Theorem automated_addEdge_prepends
  (graph : Graph) (src : Z) (dests : list Z) (m : nat) :
  (0 <= src)%Z -> Z.to_nat src < length (adjList graph) ->
  let graph' := fold_left (fun g d => Automated.addEdge g src d) dests graph in
  nth (Z.to_nat src) (adjList graph') []
    = rev dests ++ nth (Z.to_nat src) (adjList graph) [] /\
  (m <> Z.to_nat src -> nth m (adjList graph') [] = nth m (adjList graph) []) /\
  length (adjList graph') = length (adjList graph).
Proof.
  intros H0. revert graph.
  induction dests as [|d rest IH]; intros graph Hlt; cbn [fold_left].
  - simpl. auto.
  - destruct (@automated_addEdge_chain graph src d (Z.to_nat src) H0 Hlt)
      as (_ & L1 & C1).
    destruct (@automated_addEdge_chain graph src d m H0 Hlt) as (_ & _ & Cm).
    rewrite Nat.eqb_refl in C1.
    destruct (IH (Automated.addEdge graph src d)) as (I1 & I2 & I3); [lia|].
    cbv zeta. rewrite I1, I3, C1, L1. simpl rev. rewrite <- app_assoc. simpl.
    split; [reflexivity|]. split; [|reflexivity].
    intros Nm. rewrite (I2 Nm), Cm.
    destruct (Nat.eqb_spec m (Z.to_nat src)); [contradiction | reflexivity].
Qed.

Lemma automated_addEdge_prepends_witness :
  adjList (fold_left (fun g d => Automated.addEdge g 1 d) [2; 2; 1; 0]%Z
             (createGraph 3))
  = [[]; [0; 1; 2; 2]; []]%Z /\
  nth (Z.to_nat 1)
    (adjList (fold_left (fun g d => Automated.addEdge g 1 d) [2; 2; 1; 0]%Z
                (createGraph 3))) []
  = (rev [2; 2; 1; 0] ++ nth (Z.to_nat 1) (adjList (createGraph 3)) [])%Z.
Proof.
  split; [reflexivity|].
  refine (proj1 (@automated_addEdge_prepends (createGraph 3) 1 [2; 2; 1; 0]%Z 0 _ _)).
  - lia.
  - simpl. lia.
Defined.

Section RandomTopology.
Variable rand : nat -> Z.
Variable n : nat.
Hypothesis rand_nonneg : forall k, (0 <= rand k)%Z.
Hypothesis n_pos : 0 < n.

Lemma draw_in_range k : (0 <= Z.rem (rand k) (Z.of_nat n) < Z.of_nat n)%Z.
Proof. apply Z.rem_bound_pos; [apply rand_nonneg | lia]. Qed.

Lemma neighbors_at_most_3 k : Z.to_nat (1 + Z.rem (rand k) 3) <= 3.
Proof.
  pose proof (Z.rem_bound_pos (rand k) 3 (rand_nonneg k)). lia.
Qed.

Lemma randomEdges_spec i :
  forall j k graph,
    i < length (adjList graph) ->
    let r := Automated.randomEdges j (Z.of_nat i) (Z.of_nat n) rand k graph in
    numServers (fst r) = numServers graph /\
    length (adjList (fst r)) = length (adjList graph) /\
    (forall m, m <> i -> nth m (adjList (fst r)) [] = nth m (adjList graph) []) /\
    exists added,
      nth i (adjList (fst r)) [] = added ++ nth i (adjList graph) [] /\
      length added <= j /\
      forall d, In d added -> (0 <= d < Z.of_nat n)%Z /\ d <> Z.of_nat i.
Proof.
  induction j as [|j IH]; intros k graph Hi; cbn [Automated.randomEdges].
  - cbv zeta. cbn [fst]. split; [reflexivity|]. split; [reflexivity|].
    split; [reflexivity|]. exists []. split; [reflexivity|].
    split; [simpl; lia | intros d []].
  - set (dest := Z.rem (rand k) (Z.of_nat n)).
    pose proof (draw_in_range k) as Hd. fold dest in Hd.
    destruct (Z.eqb_spec dest (Z.of_nat i)) as [E|N].
    + destruct (IH (S k) graph Hi) as (H1 & H2 & H3 & added & H4 & H5 & H6).
      cbv zeta. split; [exact H1|]. split; [exact H2|]. split; [exact H3|].
      exists added. split; [exact H4|]. split; [lia | exact H6].
    + assert (Hi' : Z.to_nat (Z.of_nat i) < length (adjList graph)) by lia.
      assert (H0 : (0 <= Z.of_nat i)%Z) by lia.
      destruct (@automated_addEdge_chain graph (Z.of_nat i) dest i H0 Hi')
        as (N1 & L1 & C1).
      rewrite Nat2Z.id, Nat.eqb_refl in C1.
      destruct (IH (S k) (Automated.addEdge graph (Z.of_nat i) dest))
        as (H1 & H2 & H3 & added & H4 & H5 & H6); [lia|].
      cbv zeta. split; [congruence|]. split; [congruence|]. split.
      * intros m Nm. rewrite (H3 m Nm).
        destruct (@automated_addEdge_chain graph (Z.of_nat i) dest m H0 Hi')
          as (_ & _ & Cm).
        rewrite Nat2Z.id in Cm.
        destruct (Nat.eqb_spec m i); [contradiction | exact Cm].
      * exists (added ++ [dest]). rewrite H4, C1, <- app_assoc. simpl.
        split; [reflexivity|]. split; [rewrite length_app; simpl; lia|].
        intros d Hin. apply in_app_or in Hin.
        destruct Hin as [Hin | [<- | []]]; [now apply H6 | split; auto].
Qed.

Lemma topologyLoop_spec m :
  forall a k graph,
    a + m = n ->
    topo_inv n a graph ->
    topo_inv n n (fst (Automated.topologyLoop (seq a m) (Z.of_nat n) rand k graph)).
Proof.
  induction m as [|m IH]; intros a k graph Ha Hinv; cbn [seq Automated.topologyLoop].
  - cbn [fst]. assert (E : a = n) by lia. rewrite E in Hinv. exact Hinv.
  - destruct Hinv as (Hnum & Hlen & Hch).
    pose proof (neighbors_at_most_3 k) as Hnb.
    set (neighbors := Z.to_nat (1 + Z.rem (rand k) 3)) in *.
    assert (Hai : a < length (adjList graph)) by lia.
    pose proof (@randomEdges_spec a neighbors (S k) graph Hai) as Hspec.
    destruct (Automated.randomEdges neighbors (Z.of_nat a) (Z.of_nat n) rand (S k) graph)
      as [g1 k1].
    cbn [fst] in Hspec. destruct Hspec as (H1 & H2 & H3 & added & H4 & H5 & H6).
    apply IH; [lia|].
    split; [congruence|]. split; [congruence|].
    intros i Hi. destruct (Nat.eq_dec i a) as [->|Ni].
    + destruct (Hch a Hi) as (_ & Hempty & _).
      rewrite H4, (Hempty (Nat.le_refl a)), app_nil_r.
      split; [lia|]. split; [intros; lia | exact H6].
    + rewrite (H3 i Ni). destruct (Hch i Hi) as (Hl & Hempty & Hv).
      split; [exact Hl|]. split; [intros Hle; apply Hempty; lia | exact Hv].
Qed.

Lemma randomTopology_spec :
  topo_inv n n (Automated.randomTopology n rand).
Proof.
  unfold Automated.randomTopology. apply topologyLoop_spec; [lia|].
  unfold createGraph. cbn [numServers adjList]. rewrite Nat2Z.id.
  split; [reflexivity|]. split; [apply repeat_length|].
  intros i Hi. cbn [adjList]. rewrite nth_repeat. simpl.
  split; [lia|]. split; [reflexivity | intros d []].
Qed.
End RandomTopology.

(** X22. Whatever [rand()] returns, the topology that the automated [main]
    generates has one chain per server, with at most three destinations in
    each, all of them in [0, N) and none equal to the chain's own server
    (self-edges are skipped; duplicates are not ruled out). *)
Theorem random_topology_shape (rand : nat -> Z) (n : nat) :
  (forall k, (0 <= rand k)%Z) ->
  0 < n ->
  let graph := Automated.randomTopology n rand in
  numServers graph = Z.of_nat n /\
  length (adjList graph) = n /\
  forall i, i < n ->
    length (nth i (adjList graph) []) <= 3 /\
    forall d, In d (nth i (adjList graph) []) ->
      (0 <= d < Z.of_nat n)%Z /\ d <> Z.of_nat i.
Proof.
  intros Hr Hn graph.
  destruct (@randomTopology_spec rand n Hr Hn) as (H1 & H2 & H3).
  fold graph in H1, H2, H3.
  split; [exact H1|]. split; [exact H2|].
  intros i Hi. destruct (H3 i Hi) as (Hl & _ & Hv). split; assumption.
Qed.

Lemma random_topology_shape_witness :
  adjList (Automated.randomTopology 3 (fun k => Z.of_nat (7 * k + 2)))
  = [[2; 1]; []; [1; 0]]%Z /\
  (let graph := Automated.randomTopology 3 (fun k => Z.of_nat (7 * k + 2)) in
   numServers graph = Z.of_nat 3 /\
   length (adjList graph) = 3 /\
   forall i, i < 3 ->
     length (nth i (adjList graph) []) <= 3 /\
     forall d, In d (nth i (adjList graph) []) ->
       (0 <= d < Z.of_nat 3)%Z /\ d <> Z.of_nat i).
Proof.
  split; [reflexivity|].
  apply (@random_topology_shape (fun k => Z.of_nat (7 * k + 2)) 3).
  - intros k. lia.
  - lia.
Defined.

Section AutoTopology.
Variable rand : nat -> Z.
Variable n : nat.
Hypothesis rand_nonneg : forall k, (0 <= rand k)%Z.
Hypothesis n_pos : 0 < n.

Lemma autoEdges_spec i :
  i < n ->
  forall j k graph refused,
    graph_ok graph ->
    numServers graph = Z.of_nat n ->
    let r := autoEdges j (Z.of_nat i) (Z.of_nat n) rand k graph refused in
    graph_ok (fst (fst r)) /\
    numServers (fst (fst r)) = Z.of_nat n /\
    snd r = refused /\
    (forall m, m <> i ->
       nth m (adjList (fst (fst r))) [] = nth m (adjList graph) []) /\
    length (nth i (adjList (fst (fst r))) [])
      <= length (nth i (adjList graph) []) + j.
Proof.
  intros Hi. induction j as [|j IH]; intros k graph refused Hok Hnum;
    cbn [autoEdges]; cbv zeta.
  - cbn [fst snd]. split; [exact Hok|]. split; [exact Hnum|].
    split; [reflexivity|]. split; [reflexivity | lia].
  - set (dest := Z.rem (rand k) (Z.of_nat n)).
    assert (Hd : (0 <= dest < Z.of_nat n)%Z)
      by (apply Z.rem_bound_pos; [apply rand_nonneg | lia]).
    destruct (negb (dest =? Z.of_nat i)%Z && negb (edgeExists graph (Z.of_nat i) dest))
      eqn:Eg.
    + apply andb_true_iff in Eg. destruct Eg as (E1 & E2).
      apply negb_true_iff in E1. apply negb_true_iff in E2.
      assert (Hsrc : inRange graph (Z.of_nat i)) by (unfold inRange; lia).
      assert (Hdst : inRange graph dest) by (unfold inRange; lia).
      pose proof (@addEdge_ok graph (Z.of_nat i) dest Hok) as Hok'.
      rewrite (addEdge_in_range Hsrc Hdst) in *.
      rewrite Z.eqb_sym in E1. rewrite E1, E2 in *. cbn [fst] in Hok'.
      change (1 =? 0)%Z with false. cbv iota.
      set (g1 := mkGraph (numServers graph)
                   (store (adjList graph) (Z.to_nat (Z.of_nat i))
                      (dest :: nth (Z.to_nat (Z.of_nat i)) (adjList graph) []))) in *.
      destruct (IH (S k) g1 refused Hok') as (H1 & H2 & H3 & H4 & H5);
        [subst g1; cbn [numServers]; exact Hnum|].
      split; [exact H1|]. split; [exact H2|]. split; [exact H3|].
      assert (Hlt : i < length (adjList graph)) by (destruct Hok as (Hwf & _); lia).
      split.
      * intros m Nm. rewrite (H4 m Nm). subst g1. cbn [adjList].
        rewrite Nat2Z.id. now rewrite nth_store_ne by auto.
      * eapply Nat.le_trans; [exact H5|]. subst g1. cbn [adjList].
        rewrite Nat2Z.id. rewrite nth_store_eq by exact Hlt. simpl. lia.
    + destruct (IH (S k) graph refused Hok Hnum) as (H1 & H2 & H3 & H4 & H5).
      split; [exact H1|]. split; [exact H2|]. split; [exact H3|].
      split; [exact H4 | lia].
Qed.

Lemma autoTopologyLoop_spec m :
  forall a k graph refused,
    a + m = n ->
    auto_inv n a (graph, k, refused) ->
    auto_inv n n (autoTopologyLoop (seq a m) (Z.of_nat n) rand k graph refused).
Proof.
  induction m as [|m IH]; intros a k graph refused Ha Hinv;
    cbn [seq autoTopologyLoop].
  - assert (E : a = n) by lia. rewrite E in Hinv.
    destruct Hinv as (H1 & H2 & H3 & H4). cbn [fst snd] in *.
    split; [exact H1|]. split; [exact H2|]. split; [exact H3 | exact H4].
  - destruct Hinv as (Hok & Hnum & Href & Hch). cbn [fst snd] in *.
    assert (Hnb : Z.to_nat (1 + Z.rem (rand k) 3) <= 3)
      by (pose proof (Z.rem_bound_pos (rand k) 3 (rand_nonneg k)); lia).
    set (neighbors := Z.to_nat (1 + Z.rem (rand k) 3)) in *.
    assert (Han : a < n) by lia.
    pose proof (@autoEdges_spec a Han neighbors (S k) graph refused Hok Hnum) as Hspec.
    destruct (autoEdges neighbors (Z.of_nat a) (Z.of_nat n) rand (S k) graph refused)
      as [[g1 k1] r1].
    cbv zeta in Hspec. cbn [fst snd] in Hspec.
    destruct Hspec as (H1 & H2 & H3 & H4 & H5).
    apply IH; [lia|].
    split; [exact H1|]. split; [exact H2|]. split; [cbn [snd]; lia|].
    cbn [fst]. intros i Hi. destruct (Nat.eq_dec i a) as [->|Ni].
    + destruct (Hch a Hi) as (_ & Hempty).
      rewrite (Hempty (Nat.le_refl a)) in H5. simpl in H5.
      split; [lia | intros; lia].
    + rewrite (H4 i Ni). destruct (Hch i Hi) as (Hl & Hempty).
      split; [exact Hl | intros Hle; apply Hempty; lia].
Qed.

Lemma autoTopology_spec : auto_inv n n (autoTopology n rand).
Proof.
  unfold autoTopology. apply autoTopologyLoop_spec; [lia|].
  split; [|split; [|split]]; cbn [fst snd].
  - apply createGraph_ok. lia.
  - reflexivity.
  - reflexivity.
  - intros i Hi. unfold createGraph. cbn [adjList]. rewrite nth_repeat. simpl.
    split; [lia | reflexivity].
Qed.
End AutoTopology.

(** X23. Whatever [rand()] returns, the random topology of the interactive
    program never has [addEdge] refuse an edge (so no error line is
    printed), and it gives every server a chain of at most three
    destinations, all distinct, in [0, N) and different from the server
    itself. *)
Theorem auto_topology_shape (rand : nat -> Z) (n : nat) :
  (forall k, (0 <= rand k)%Z) ->
  0 < n ->
  let graph := fst (fst (autoTopology n rand)) in
  snd (autoTopology n rand) = 0 /\
  numServers graph = Z.of_nat n /\
  length (adjList graph) = n /\
  forall i, i < n ->
    length (nth i (adjList graph) []) <= 3 /\
    NoDup (nth i (adjList graph) []) /\
    forall d, In d (nth i (adjList graph) []) ->
      (0 <= d < Z.of_nat n)%Z /\ d <> Z.of_nat i.
Proof.
  intros Hr Hn graph.
  destruct (@autoTopology_spec rand n Hr Hn) as ((Hwf & Hch) & Hnum & Href & Hlen).
  fold graph in Hwf, Hch, Hnum, Hlen.
  split; [exact Href|]. split; [exact Hnum|].
  assert (L : length (adjList graph) = n) by lia.
  split; [exact L|].
  intros i Hi. destruct (Hlen i Hi) as (Hl & _).
  assert (Ec : nth_error (adjList graph) i = Some (nth i (adjList graph) []))
    by (apply nth_error_nth'; lia).
  destruct (Hch _ _ Ec) as (ND & Hin).
  split; [exact Hl|]. split; [exact ND|].
  intros d Hd. destruct (Hin d Hd) as (Hrange & Hne).
  unfold inRange in Hrange. rewrite Hnum in Hrange. auto.
Qed.

Lemma auto_topology_shape_witness :
  autoTopology 3 (fun k => Z.of_nat (7 * k + 2))
  = (mkGraph 3 [[2; 1]; []; [1; 0]]%Z, 10, 0) /\
  (let graph := fst (fst (autoTopology 3 (fun k => Z.of_nat (7 * k + 2)))) in
   snd (autoTopology 3 (fun k => Z.of_nat (7 * k + 2))) = 0 /\
   numServers graph = Z.of_nat 3 /\
   length (adjList graph) = 3 /\
   forall i, i < 3 ->
     length (nth i (adjList graph) []) <= 3 /\
     NoDup (nth i (adjList graph) []) /\
     forall d, In d (nth i (adjList graph) []) ->
       (0 <= d < Z.of_nat 3)%Z /\ d <> Z.of_nat i).
Proof.
  split; [reflexivity|].
  apply (@auto_topology_shape (fun k => Z.of_nat (7 * k + 2)) 3).
  - intros k. lia.
  - lia.
Defined.

(* ##################################################################### *)
(** * Sifting an ordered heap *)
(* ##################################################################### *)

Lemma smallestOf_ordered a i :
  heap_ordered a -> smallestOf a (length a) i = i.
Proof.
  intros Ho. unfold smallestOf.
  destruct (Nat.ltb_spec (2 * i + 1) (length a)) as [L1|L1]; cbn [andb].
  - assert (H1 : le_at a (parentOf (2 * i + 1)) (2 * i + 1)) by (apply Ho; lia).
    rewrite parentOf_left in H1. unfold le_at in H1.
    rewrite (proj2 (fless_false _ _) H1).
    destruct (Nat.ltb_spec (2 * i + 2) (length a)) as [L2|L2]; cbn [andb]; auto.
    assert (H2 : le_at a (parentOf (2 * i + 2)) (2 * i + 2)) by (apply Ho; lia).
    rewrite parentOf_right in H2. unfold le_at in H2.
    now rewrite (proj2 (fless_false _ _) H2).
  - destruct (Nat.ltb_spec (2 * i + 2) (length a)) as [L2|L2]; cbn [andb]; auto.
    lia.
Qed.

Lemma heapifyDown_ordered_id a sz i :
  sz = length a -> heap_ordered a -> heapifyDown a sz i = a.
Proof.
  funelim (heapifyDown a sz i); intros Hsz Ho; [reflexivity|].
  subst sz. exfalso. apply E. now apply smallestOf_ordered.
Qed.

Lemma heapifyUp_ordered_id a i :
  i < length a -> heap_ordered a -> heapifyUp a i = a.
Proof.
  funelim (heapifyUp a i); intros Hi Ho; try reflexivity.
  exfalso. apply fless_true in Heq.
  assert (Hle : le_at a (parentOf index) index) by (apply Ho; lia).
  unfold le_at in Hle. lra.
Qed.

(** X24. Sifting finds nothing to do on an ordered heap: [heapifyUp] and
    [heapifyDown] from any slot return the array unchanged. *)
Theorem sifting_ordered_heap_is_identity (a : list HeapNode) (i : nat) :
  heap_ordered a ->
  i < length a ->
  heapifyUp a i = a /\ heapifyDown a (length a) i = a.
Proof.
  intros Ho Hi. split.
  - now apply heapifyUp_ordered_id.
  - now apply heapifyDown_ordered_id.
Qed.

Lemma sifting_ordered_heap_is_identity_witness :
  heapifyUp [mkHeapNode 1 10; mkHeapNode 0 30; mkHeapNode 2 20] 2
  = [mkHeapNode 1 10; mkHeapNode 0 30; mkHeapNode 2 20] /\
  heapifyDown [mkHeapNode 1 10; mkHeapNode 0 30; mkHeapNode 2 20]
    (length [mkHeapNode 1 10; mkHeapNode 0 30; mkHeapNode 2 20]) 2
  = [mkHeapNode 1 10; mkHeapNode 0 30; mkHeapNode 2 20].
Proof.
  apply (@sifting_ordered_heap_is_identity
           [mkHeapNode 1 10; mkHeapNode 0 30; mkHeapNode 2 20] 2).
  - apply heap_orderedb_spec. reflexivity.
  - simpl. lia.
Defined.

Lemma store_same {A : Type} (a : list A) i d :
  store a i (nth i a d) = a.
Proof.
  revert i; induction a as [|y t IH]; intros [|i]; simpl; auto.
  now rewrite IH.
Qed.

(** X25. Writing back the load an entry already has changes nothing: on
    an ordered heap with distinct identifiers, [updateHeap] with the
    entry's own load returns the heap as it was. *)
Theorem updateHeap_same_load (h : MinHeap) (sid : nat) (l : Q) :
  heap_ordered (arr h) ->
  NoDup (map serverId (arr h)) ->
  In (mkHeapNode sid l) (arr h) ->
  updateHeap h sid l = h.
Proof.
  intros Ho ND Hin.
  assert (Hid : In sid (map serverId (arr h)))
    by (change sid with (serverId (mkHeapNode sid l)); now apply in_map).
  destruct (@findIndex_some (arr h) sid 0 Hid) as (i & Ef).
  pose proof (findIndex_spec _ _ _ Ef) as (_ & Hi & Hsid).
  rewrite Nat.sub_0_r in Hi, Hsid.
  destruct (In_nth _ _ noNode Hin) as (j & Hj & Ej).
  assert (Eij : i = j).
  { apply (proj1 (NoDup_nth (map serverId (arr h)) 0) ND);
      rewrite ?length_map; try lia.
    change 0 with (serverId noNode). rewrite !map_nth.
    fold (at_ (arr h) i). rewrite Hsid, Ej. reflexivity. }
  subst j.
  assert (Eset : setLoad (arr h) i l = arr h).
  { unfold setLoad. rewrite Hsid. rewrite <- Ej at 1. apply store_same. }
  unfold updateHeap. rewrite Ef, Eset.
  destruct ((0 <? i) && fless (load (at_ (arr h) i)) (load (at_ (arr h) (parentOf i))))
    eqn:Eb.
  - apply andb_true_iff in Eb. destruct Eb as (Hpos & Hlt).
    apply Nat.ltb_lt in Hpos. apply fless_true in Hlt.
    assert (H : le_at (arr h) (parentOf i) i) by (apply Ho; lia).
    unfold le_at in H. lra.
  - rewrite heapifyDown_ordered_id by auto. now destruct h.
Qed.

Lemma updateHeap_same_load_witness :
  updateHeap (mkMinHeap [mkHeapNode 1 10; mkHeapNode 0 30; mkHeapNode 2 20] 3) 0 30
  = mkMinHeap [mkHeapNode 1 10; mkHeapNode 0 30; mkHeapNode 2 20] 3.
Proof.
  apply (@updateHeap_same_load
           (mkMinHeap [mkHeapNode 1 10; mkHeapNode 0 30; mkHeapNode 2 20] 3) 0 30).
  - apply heap_orderedb_spec. reflexivity.
  - simpl. repeat constructor; simpl; intuition discriminate.
  - right. now left.
Defined.

(* ##################################################################### *)
(** * Loads in rounded arithmetic *)
(* ##################################################################### *)

(** The results of this part are about the functions of [Rounded], where
    every [float] operation rounds.  They hold for every rounding that
    keeps the order, is idempotent and commutes with the change of sign;
    rounding to the nearest binary32 value is one, as is shown below. *)

Section RoundingFacts.

Variable rnd : Q -> Q.
Hypothesis R : Rounding rnd.

Lemma rnd_compat x y : (x == y)%Q -> (rnd x == rnd y)%Q.
Proof.
  intros E. apply Qle_antisym; apply (rnd_monotone R); rewrite E; apply Qle_refl.
Qed.

Lemma rnd_zero : (rnd 0 == 0)%Q.
Proof.
  pose proof (rnd_opp R 0) as H.
  assert (E : (rnd (- 0) == rnd 0)%Q) by (apply rnd_compat; lra).
  lra.
Qed.

Lemma rnd_nonneg x : (0 <= x)%Q -> (0 <= rnd x)%Q.
Proof. intros H. pose proof (rnd_monotone R H). pose proof rnd_zero. lra. Qed.

Lemma rnd_nonpos x : (x <= 0)%Q -> (rnd x <= 0)%Q.
Proof. intros H. pose proof (rnd_monotone R H). pose proof rnd_zero. lra. Qed.

Lemma rnd_below x y : representable rnd y -> (x <= y)%Q -> (rnd x <= y)%Q.
Proof. intros Hy H. pose proof (rnd_monotone R H). unfold representable in Hy. lra. Qed.

Lemma rnd_above x y : representable rnd y -> (y <= x)%Q -> (y <= rnd x)%Q.
Proof. intros Hy H. pose proof (rnd_monotone R H). unfold representable in Hy. lra. Qed.

Lemma representable_rnd x : representable rnd (rnd x).
Proof. apply (rnd_idempotent R). Qed.

Lemma representable_opp x : representable rnd x -> representable rnd (- x).
Proof.
  unfold representable. intros H. rewrite (rnd_opp R). lra.
Qed.

Lemma representable_zero : representable rnd 0.
Proof. apply rnd_zero. Qed.

(** *** The rounded sum and the rounded average *)

Lemma errorGrowth_ge_1 delta n : (0 <= delta)%Q -> (1 <= errorGrowth delta n)%Q.
Proof.
  intros D. induction n as [|n IH]; simpl; [lra|]. nra.
Qed.

Lemma sumLoads_nonneg servers :
  (forall k, k < length servers -> (0 <= loadAt servers k)%Q) ->
  (0 <= sumLoads servers)%Q.
Proof.
  intros H. pose proof (@sumLoads_lower servers 0%Q H). lra.
Qed.

Lemma errorGrowth_ge_delta delta n :
  (0 <= delta)%Q -> 0 < n -> (1 + delta <= errorGrowth delta n)%Q.
Proof.
  intros D Hn. destruct n as [|n]; [lia|]. simpl.
  pose proof (@errorGrowth_ge_1 delta n D) as G. nra.
Qed.

Lemma rounded_total_acc delta servers :
  FloatArithmetic rnd delta ->
  forall acc,
    (0 <= acc)%Q ->
    representable rnd acc ->
    floatLoads rnd servers ->
    (0 <= fold_left (fun total s => Rounded.fadd rnd total (currentLoad s)) servers acc)%Q /\
    (fold_left (fun total s => Rounded.fadd rnd total (currentLoad s)) servers acc
     <= errorGrowth delta (length servers) * (acc + sumLoads servers))%Q.
Proof.
  intros [D E _]. induction servers as [|s t IH]; intros acc Hacc Racc Hf; simpl.
  - split; lra.
  - destruct (Hf 0) as (Hs & Rs); [simpl; lia|].
    change (loadAt (s :: t) 0) with (currentLoad s) in Hs, Rs.
    assert (Ht : floatLoads rnd t)
      by (intros k Hk; apply (Hf (S k)); simpl; lia).
    assert (H0 : (0 <= acc + currentLoad s)%Q) by lra.
    destruct (IH (Rounded.fadd rnd acc (currentLoad s))) as (L & U); auto.
    { apply rnd_nonneg. exact H0. }
    { apply representable_rnd. }
    split; [exact L|].
    pose proof (E _ _ Hacc Hs Racc Rs) as Hr.
    fold (Rounded.fadd rnd acc (currentLoad s)) in Hr.
    pose proof (@errorGrowth_ge_1 delta (length t) D) as G.
    assert (St : (0 <= sumLoads t)%Q)
      by (apply sumLoads_nonneg; intros k Hk; now apply Ht).
    set (g := errorGrowth delta (length t)) in *.
    set (r := Rounded.fadd rnd acc (currentLoad s)) in *.
    set (S := sumLoads t) in *.
    eapply Qle_trans; [exact U|].
    assert (X : (r + S <= (1 + delta) * (acc + (currentLoad s + S)))%Q) by nra.
    assert (Y : (g * (r + S) <= g * ((1 + delta) * (acc + (currentLoad s + S))))%Q).
    { apply Qmult_le_l; [lra | exact X]. }
    lra.
Qed.

Lemma count_ge_1 (servers : list Server) :
  servers <> [] -> (1 <= inject_Z (Z.of_nat (length servers)))%Q.
Proof.
  intros N. destruct servers; [contradiction|].
  change 1%Q with (inject_Z 1). rewrite <- Zle_Qle. simpl length. lia.
Qed.

(** The loads add up to at most [n - 1] times the greatest plus the least. *)
Lemma sumLoads_max_min servers :
  servers <> [] ->
  (sumLoads servers
   <= inject_Z (Z.of_nat (length servers)) * loadAt servers (findMostLoadedServer servers)
      - loadAt servers (findMostLoadedServer servers)
      + loadAt servers (findLeastLoadedServer servers))%Q.
Proof.
  intros N.
  destruct (findMostLoadedServer_spec N) as (HA & Hmax).
  destruct (findLeastLoadedServer_spec N) as (HB & Hmin).
  set (A := findMostLoadedServer servers) in *.
  set (B := findLeastLoadedServer servers) in *.
  pose proof (@sumLoads_set servers B (loadAt servers A) HB) as E.
  assert (U : (sumLoads (setCurrentLoad servers B (loadAt servers A))
               <= inject_Z (Z.of_nat (length (setCurrentLoad servers B (loadAt servers A))))
                  * loadAt servers A)%Q).
  { apply sumLoads_upper. intros k Hk. rewrite length_setCurrentLoad in Hk.
    destruct (Nat.eq_dec B k) as [<-|NB].
    - rewrite loadAt_set_eq by exact HB. lra.
    - rewrite loadAt_set_ne by exact NB. now apply Hmax. }
  rewrite length_setCurrentLoad in U. lra.
Qed.

Lemma rounded_total_nonneg servers :
  forall acc,
    (0 <= acc)%Q ->
    (forall k, k < length servers -> (0 <= loadAt servers k)%Q) ->
    (0 <= fold_left (fun total s => Rounded.fadd rnd total (currentLoad s)) servers acc)%Q.
Proof.
  induction servers as [|s t IH]; intros acc Hacc Hnn; simpl; [exact Hacc|].
  assert (Hs : (0 <= currentLoad s)%Q) by (apply (Hnn 0); simpl; lia).
  apply IH.
  - apply rnd_nonneg. lra.
  - intros k Hk. apply (Hnn (S k)). simpl. lia.
Qed.

Lemma rounded_average_nonneg servers :
  servers <> [] ->
  (forall k, k < length servers -> (0 <= loadAt servers k)%Q) ->
  (0 <= Rounded.calculateAverageLoad rnd servers)%Q.
Proof.
  intros N Hnn. unfold Rounded.calculateAverageLoad, Rounded.fdiv.
  apply rnd_nonneg. apply Qle_shift_div_l.
  - pose proof (@count_ge_1 servers N). lra.
  - rewrite Qmult_0_l. apply rounded_total_nonneg; [lra | exact Hnn].
Qed.

(** *** The migration amount *)

(** The amount never exceeds the load of the server it is taken from, and
    its sign is that of the greatest load minus the rounded average. *)
Lemma rounded_migration_upper servers :
  servers <> [] ->
  floatLoads rnd servers ->
  (Rounded.migrationAmountOf rnd servers
   <= loadAt servers (findMostLoadedServer servers))%Q /\
  (Rounded.calculateAverageLoad rnd servers
   <= loadAt servers (findMostLoadedServer servers) ->
   0 <= Rounded.migrationAmountOf rnd servers)%Q /\
  (loadAt servers (findMostLoadedServer servers)
   <= Rounded.calculateAverageLoad rnd servers ->
   Rounded.migrationAmountOf rnd servers <= 0)%Q /\
  representable rnd (Rounded.migrationAmountOf rnd servers).
Proof.
  intros N Hf.
  assert (Hnn : forall k, k < length servers -> (0 <= loadAt servers k)%Q)
    by (intros k Hk; apply Hf; exact Hk).
  pose proof (@rounded_average_nonneg servers N Hnn) as A0.
  destruct (findMostLoadedServer_spec N) as (HA & _).
  destruct (Hf _ HA) as (M0 & MR).
  unfold Rounded.migrationAmountOf, Rounded.fsub.
  set (mx := loadAt servers (findMostLoadedServer servers)) in *.
  set (avg := Rounded.calculateAverageLoad rnd servers) in *.
  assert (D1 : (rnd (mx - avg) <= mx)%Q) by (apply rnd_below; [exact MR | lra]).
  split; [|split; [|split]].
  - apply rnd_below; [exact MR|].
    destruct (Qlt_le_dec (rnd (mx - avg)) 0); lra.
  - intros H. apply rnd_nonneg.
    assert (0 <= rnd (mx - avg))%Q by (apply rnd_nonneg; lra). lra.
  - intros H. apply rnd_nonpos.
    assert (rnd (mx - avg) <= 0)%Q by (apply rnd_nonpos; lra). lra.
  - apply representable_rnd.
Qed.

(** The rounded average exceeds the greatest load by at most twice the
    least load. *)
Lemma rounded_average_upper delta servers :
  FloatArithmetic rnd delta ->
  servers <> [] ->
  floatLoads rnd servers ->
  averageWithinPrecision delta (length servers) ->
  (Rounded.calculateAverageLoad rnd servers
   <= loadAt servers (findMostLoadedServer servers)
      + 2 * loadAt servers (findLeastLoadedServer servers))%Q.
Proof.
  intros FA N Hf P.
  assert (Hnn : forall k, k < length servers -> (0 <= loadAt servers k)%Q)
    by (intros k Hk; apply Hf; exact Hk).
  destruct (@rounded_total_acc delta servers FA 0%Q (Qle_refl 0) representable_zero Hf)
    as (T0 & TU).
  fold (Rounded.totalLoad rnd servers) in T0, TU.
  pose proof (@count_ge_1 servers N) as N1.
  pose proof (@sumLoads_max_min servers N) as SU.
  pose proof (@sumLoads_nonneg servers Hnn) as S0.
  destruct (findMostLoadedServer_spec N) as (HA & Hmax).
  destruct (findLeastLoadedServer_spec N) as (HB & Hmin).
  destruct (Hf _ HA) as (A0 & AR).
  destruct (Hf _ HB) as (B0 & BR).
  pose proof (Hmax _ HB) as Hminmax.
  destruct FA as [D E _].
  pose proof (@errorGrowth_ge_1 delta (length servers) D) as G1.
  assert (Npos : 0 < length servers) by (destruct servers; [contradiction | simpl; lia]).
  pose proof (@errorGrowth_ge_delta delta (length servers) D Npos) as GD.
  unfold averageWithinPrecision in P.
  unfold Rounded.calculateAverageLoad, Rounded.fdiv.
  set (T := Rounded.totalLoad rnd servers) in *.
  set (n := inject_Z (Z.of_nat (length servers))) in *.
  set (g := errorGrowth delta (length servers)) in *.
  set (S := sumLoads servers) in *.
  set (mx := loadAt servers (findMostLoadedServer servers)) in *.
  set (mn := loadAt servers (findLeastLoadedServer servers)) in *.
  assert (Qn : (T / n * n == T)%Q) by (field; lra).
  set (q := (T / n)%Q) in *.
  destruct (Qlt_le_dec mx q) as [Above|Below].
  2:{ assert (rnd q <= mx)%Q by (apply rnd_below; [exact AR | exact Below]). lra. }
  (* the quotient exceeds the greatest load: the loads are close together *)
  assert (G54 : (g <= 5 # 4)%Q).
  { assert (X : (0 <= (g - 1) * (n - 1))%Q) by (apply Qmult_le_0_compat; lra). lra. }
  assert (D14 : (delta <= 1 # 4)%Q) by lra.
  assert (K1 : (n * mx < g * S)%Q).
  { assert (X : (mx * n < q * n)%Q) by (apply Qmult_lt_compat_r; lra).
    assert (Y : (g * (0 + S) == g * S)%Q) by ring. lra. }
  assert (K2 : (g * S <= g * (n * mx - mx + mn))%Q)
    by (apply Qmult_le_l; lra).
  assert (K3 : (g * n * mx <= (n + (1 # 4)) * mx)%Q).
  { apply Qmult_le_compat_r; [lra | exact A0]. }
  assert (K4 : ((3 # 4) * mx <= (g - (1 # 4)) * mx)%Q).
  { apply Qmult_le_compat_r; [lra | exact A0]. }
  assert (K5 : (g * mn <= (5 # 4) * mn)%Q).
  { apply Qmult_le_compat_r; [exact G54 | exact B0]. }
  assert (Close : (mx < (5 # 3) * mn)%Q) by lra.
  assert (Qle1 : (q <= mx + mn)%Q).
  { assert (X : (g * S <= g * (n * mx))%Q) by (apply Qmult_le_l; lra).
    assert (Y : (mn <= mn * n)%Q).
    { assert (1 * mn <= n * mn)%Q by (apply Qmult_le_compat_r; lra). lra. }
    assert (Z : (q * n <= (mx + mn) * n)%Q) by lra.
    apply Qmult_le_r with (z := n); [lra | exact Z]. }
  assert (R1 : (rnd q <= rnd (mx + mn))%Q) by (apply (rnd_monotone R); exact Qle1).
  pose proof (E _ _ A0 B0 AR BR) as R2.
  assert (R3 : (delta * (mx + mn) <= (1 # 4) * (mx + mn))%Q)
    by (apply Qmult_le_compat_r; lra).
  lra.
Qed.

(** When the rounded average exceeds the greatest load, the amount is
    negative, but by no more than the least load. *)
Lemma rounded_migration_lower delta servers :
  FloatArithmetic rnd delta ->
  servers <> [] ->
  floatLoads rnd servers ->
  averageWithinPrecision delta (length servers) ->
  (- loadAt servers (findLeastLoadedServer servers)
   <= Rounded.migrationAmountOf rnd servers)%Q.
Proof.
  intros FA N Hf P.
  pose proof (@rounded_average_upper delta servers FA N Hf P) as AU.
  destruct (findLeastLoadedServer_spec N) as (HB & _).
  destruct (Hf _ HB) as (B0 & BR).
  unfold Rounded.migrationAmountOf, Rounded.fsub.
  set (mx := loadAt servers (findMostLoadedServer servers)) in *.
  set (mn := loadAt servers (findLeastLoadedServer servers)) in *.
  set (avg := Rounded.calculateAverageLoad rnd servers) in *.
  pose proof (@representable_opp mn BR) as BR'.
  pose proof (@representable_opp (2 * mn)%Q (double_representable FA B0 BR)) as BR2.
  assert (D1 : (- (2 * mn) <= rnd (mx - avg))%Q)
    by (apply rnd_above; [exact BR2 | lra]).
  apply rnd_above; [exact BR'|].
  destruct (Qlt_le_dec (rnd (mx - avg)) 0); lra.
Qed.

(** *** The heap mirrors the registry, whatever the rounding *)

Lemma rounded_assignTask_inv servers h taskLoad :
  servers <> [] ->
  sim_inv servers h ->
  exists sid servers' h',
    Rounded.assignTask rnd servers h taskLoad = Some (sid, servers', h') /\
    sim_inv servers' h' /\
    length servers' = length servers /\
    sid < length servers /\
    (forall k, k < length servers -> (loadAt servers sid <= loadAt servers k)%Q) /\
    loadAt servers' sid = Rounded.fadd rnd (loadAt servers sid) taskLoad /\
    (forall k, k <> sid -> loadAt servers' k = loadAt servers k).
Proof.
  intros N (Hs & Ho & Hc).
  assert (Hne : arr h <> []).
  { pose proof (@in_sync_length servers h Hs) as L. unfold size in L.
    destruct (arr h); [|discriminate].
    destruct servers; [contradiction | discriminate]. }
  destruct (@extractMin_some h Hne) as (m & h1 & E).
  destruct (extractMin_spec _ E Ho) as (Em & P & Ho1 & Hc1).
  assert (Hm : In m (arr h))
    by (eapply Permutation_in; [symmetry; exact P | now left]).
  pose proof (@in_sync_id_lt servers h m Hs Hm) as Hlt.
  set (servers' := setCurrentLoad servers (serverId m)
                     (Rounded.fadd rnd (loadAt servers (serverId m)) taskLoad)).
  exists (serverId m), servers',
    (insertHeap h1 (serverId m) (loadAt servers' (serverId m))).
  assert (Ls : length servers' = length servers) by apply length_setCurrentLoad.
  assert (Lsid : loadAt servers' (serverId m)
                 = Rounded.fadd rnd (loadAt servers (serverId m)) taskLoad)
    by (apply loadAt_set_eq; exact Hlt).
  assert (Lne : forall k, k <> serverId m -> loadAt servers' k = loadAt servers k)
    by (intros k Nk; apply loadAt_set_ne; auto).
  assert (Hsz : size h1 < capacity h1).
  { pose proof (@in_sync_length servers h Hs) as L.
    apply Permutation_length in P. unfold size in *. simpl in P. lia. }
  pose proof (@insertHeap_perm h1 (serverId m) (loadAt servers' (serverId m)) Hsz) as Pi.
  pose proof (in_sync_nodup Hs) as ND.
  assert (Pids : Permutation (map serverId (arr h)) (serverId m :: map serverId (arr h1)))
    by (apply (Permutation_map serverId) in P; exact P).
  assert (ND' : NoDup (serverId m :: map serverId (arr h1)))
    by (eapply Permutation_NoDup; eauto).
  split.
  { unfold Rounded.assignTask. rewrite E.
    destruct (Nat.ltb_spec (serverId m) (length servers)); [reflexivity | lia]. }
  split; [|split; [exact Ls | split; [exact Hlt | split; [|split; [exact Lsid | exact Lne]]]]].
  - split; [split | split].
    + rewrite Ls. apply (Permutation_map serverId) in Pi. simpl in Pi.
      rewrite Pi. rewrite <- Pids. apply Hs.
    + intros e He.
      assert (He' : In e (mkHeapNode (serverId m) (loadAt servers' (serverId m)) :: arr h1))
        by (eapply Permutation_in; eauto).
      destruct He' as [<- | He1]; [simpl; reflexivity|].
      assert (Nid : serverId e <> serverId m).
      { intros Eq. inversion ND' as [|? ? Hnot _]. apply Hnot. rewrite <- Eq.
        now apply in_map. }
      rewrite (Lne _ Nid). apply Hs.
      eapply Permutation_in; [symmetry; exact P | now right].
    + now apply insertHeap_ordered.
    + rewrite insertHeap_capacity. lia.
  - intros k Hk. destruct (@in_sync_entry servers h k Hs Hk) as (e & He & <-).
    pose proof (@extractMin_minimal h m h1 E Ho e He) as Hle.
    destruct Hs as (_ & Hl).
    pose proof (Hl m Hm). pose proof (Hl e He). lra.
Qed.

Lemma rounded_rebalanceLoads_inv servers threshold h :
  servers <> [] ->
  sim_inv servers h ->
  sim_inv (fst (fst (Rounded.rebalanceLoads rnd servers threshold h)))
          (snd (fst (Rounded.rebalanceLoads rnd servers threshold h))) /\
  length (fst (fst (Rounded.rebalanceLoads rnd servers threshold h))) = length servers.
Proof.
  intros N (Hs & Ho & Hc). unfold Rounded.rebalanceLoads.
  destruct (fless threshold (Rounded.imbalanceOf rnd servers)); cbn [fst snd];
    [|repeat split; auto; apply Hs].
  destruct (findMostLoadedServer_spec N) as (HA & _).
  destruct (findLeastLoadedServer_spec N) as (HB & _).
  set (A := findMostLoadedServer servers) in *.
  set (B := findLeastLoadedServer servers) in *.
  set (M := rnd (Rounded.fsub rnd (loadAt servers A)
                   (Rounded.calculateAverageLoad rnd servers) * (1 # 2))%Q).
  set (servers1 := setCurrentLoad servers A (Rounded.fsub rnd (loadAt servers A) M)).
  set (servers2 := setCurrentLoad servers1 B (Rounded.fadd rnd (loadAt servers1 B) M)).
  assert (L2 : length servers2 = length servers)
    by (subst servers2 servers1; now rewrite !length_setCurrentLoad).
  set (h1 := updateHeap h A (loadAt servers2 A)).
  set (h2 := updateHeap h1 B (loadAt servers2 B)).
  pose proof (in_sync_nodup Hs) as ND.
  destruct Hs as (Pids & Hl).
  assert (InA : In A (map serverId (arr h)))
    by (eapply Permutation_in; [symmetry; exact Pids | apply in_seq; lia]).
  destruct (@updateHeap_entries h A (loadAt servers2 A) ND InA) as (P1 & E1).
  fold h1 in P1, E1.
  assert (ND1 : NoDup (map serverId (arr h1)))
    by (eapply Permutation_NoDup; [symmetry; exact P1 | exact ND]).
  assert (InB : In B (map serverId (arr h1))).
  { eapply Permutation_in; [symmetry; exact P1|].
    eapply Permutation_in; [symmetry; exact Pids | apply in_seq; lia]. }
  destruct (@updateHeap_entries h1 B (loadAt servers2 B) ND1 InB) as (P2 & E2).
  fold h2 in P2, E2.
  split; [|exact L2]. split; [split|split].
  - rewrite L2, P2, P1. exact Pids.
  - intros e He. destruct (E2 e He) as [(-> & ->) | (NB & He1)]; [reflexivity|].
    destruct (E1 e He1) as [(-> & ->) | (NA & He0)]; [reflexivity|].
    subst servers2 servers1. rewrite !loadAt_set_ne by auto. now apply Hl.
  - subst h2 h1. now apply updateHeap_ordered, updateHeap_ordered.
  - subst h2 h1. rewrite !updateHeap_capacity. lia.
Qed.

(** *** Rebalancing and the sign of the loads *)

Lemma rounded_rebalance_loads servers threshold h :
  servers <> [] ->
  floatLoads rnd servers ->
  let servers' := fst (fst (Rounded.rebalanceLoads rnd servers threshold h)) in
  let B := findLeastLoadedServer servers in
  (forall k, k < length servers -> k <> B ->
     (0 <= loadAt servers' k)%Q /\ representable rnd (loadAt servers' k)) /\
  representable rnd (loadAt servers' B) /\
  ((- loadAt servers B <= Rounded.migrationAmountOf rnd servers)%Q ->
   (0 <= loadAt servers' B)%Q).
Proof.
  intros N Hf. cbv zeta.
  destruct (@rounded_migration_upper servers N Hf) as (MU & _ & _ & MR).
  destruct (findMostLoadedServer_spec N) as (HA & _).
  destruct (findLeastLoadedServer_spec N) as (HB & _).
  unfold Rounded.migrationAmountOf in MU, MR |- *.
  unfold Rounded.rebalanceLoads.
  destruct (fless threshold (Rounded.imbalanceOf rnd servers)); cbn [fst snd].
  2:{ split; [intros k Hk _; now apply Hf|].
      split; [now apply Hf | intros _; now apply Hf]. }
  set (A := findMostLoadedServer servers) in *.
  set (B := findLeastLoadedServer servers) in *.
  set (M := rnd (Rounded.fsub rnd (loadAt servers A)
                   (Rounded.calculateAverageLoad rnd servers) * (1 # 2))%Q) in *.
  set (servers1 := setCurrentLoad servers A (Rounded.fsub rnd (loadAt servers A) M)).
  assert (L1 : length servers1 = length servers) by apply length_setCurrentLoad.
  destruct (Hf _ HA) as (A0 & AR).
  destruct (Hf _ HB) as (B0 & BR).
  assert (F1 : floatLoads rnd servers1).
  { intros k Hk. rewrite L1 in Hk. subst servers1.
    destruct (Nat.eq_dec A k) as [<-|NA].
    - rewrite loadAt_set_eq by exact HA. unfold Rounded.fsub.
      split; [apply rnd_nonneg; lra | apply representable_rnd].
    - rewrite loadAt_set_ne by exact NA. now apply Hf. }
  assert (B1 : (loadAt servers B <= loadAt servers1 B \/ 0 <= M)%Q).
  { destruct (Qlt_le_dec M 0) as [Mneg|Mpos]; [left | right; exact Mpos].
    subst servers1. destruct (Nat.eq_dec A B) as [EAB|NAB].
    - rewrite <- EAB. rewrite loadAt_set_eq by exact HA.
      unfold Rounded.fsub. apply rnd_above; [exact AR | lra].
    - rewrite loadAt_set_ne by exact NAB. lra. }
  split; [|split].
  - intros k Hk NB. rewrite loadAt_set_ne by auto. apply F1. lia.
  - rewrite loadAt_set_eq by lia. unfold Rounded.fadd. apply representable_rnd.
  - intros ML. rewrite loadAt_set_eq by lia. unfold Rounded.fadd.
    apply rnd_nonneg.
    assert (H1 : (0 <= loadAt servers1 B)%Q) by (apply F1; lia).
    destruct B1; lra.
Qed.

Lemma rounded_assign_loads servers h taskLoad sid servers' h' :
  servers <> [] ->
  sim_inv servers h ->
  floatLoads rnd servers ->
  (0 < taskLoad)%Q ->
  Rounded.assignTask rnd servers h taskLoad = Some (sid, servers', h') ->
  floatLoads rnd servers'.
Proof.
  intros N Hinv Hf Hpos Ea.
  destruct (@rounded_assignTask_inv servers h taskLoad N Hinv)
    as (sid0 & s0 & h0 & Ea0 & _ & L & Hlt & _ & Lsid & Lne).
  rewrite Ea in Ea0. injection Ea0 as <- <- <-.
  intros k Hk. rewrite L in Hk.
  destruct (Nat.eq_dec k sid) as [->|Nk].
  - rewrite Lsid. unfold Rounded.fadd.
    split; [|apply representable_rnd].
    apply rnd_nonneg. destruct (Hf _ Hlt). lra.
  - rewrite (Lne k Nk). now apply Hf.
Qed.

Lemma rounded_simRun_safe delta steps :
  FloatArithmetic rnd delta ->
  forall servers h,
    servers <> [] ->
    sim_inv servers h ->
    floatLoads rnd servers ->
    averageWithinPrecision delta (length servers) ->
    Forall positiveTask steps ->
    exists servers' h',
      Rounded.simRun rnd (servers, h) steps = Some (servers', h') /\
      length servers' = length servers /\
      sim_inv servers' h' /\
      floatLoads rnd servers'.
Proof.
  intros RE.
  induction steps as [|step rest IH]; intros servers h N Hinv Hf P Hpos.
  - exists servers, h. simpl. auto.
  - inversion Hpos as [|? ? Hstep Hrest]; subst.
    destruct step as [taskLoad | threshold]; simpl in *.
    + destruct (@rounded_assignTask_inv servers h taskLoad N Hinv)
        as (sid & s1 & h1 & Ea & Hinv' & L' & _).
      pose proof (@rounded_assign_loads servers h taskLoad sid s1 h1 N Hinv Hf Hstep Ea)
        as Hf'.
      rewrite Ea.
      assert (N1 : s1 <> []).
      { intros E0. rewrite E0 in L'. destruct servers; [contradiction | discriminate]. }
      assert (P1 : averageWithinPrecision delta (length s1)) by (rewrite L'; exact P).
      destruct (IH s1 h1 N1 Hinv' Hf' P1 Hrest) as (s' & h' & Er & Ls & Hi & Hn).
      exists s', h'. split; [exact Er|]. split; [lia|]. split; [exact Hi | exact Hn].
    + destruct (@rounded_rebalanceLoads_inv servers threshold h N Hinv) as (Hinv' & L').
      destruct (@rounded_rebalance_loads servers threshold h N Hf) as (Hk & HB & HB0).
      pose proof (@rounded_migration_lower delta servers RE N Hf P) as ML.
      specialize (HB0 ML).
      destruct (Rounded.rebalanceLoads rnd servers threshold h) as [[s1 h1] r].
      simpl in *.
      assert (N1 : s1 <> []).
      { intros E0. rewrite E0 in L'. destruct servers; [contradiction | discriminate]. }
      assert (P1 : averageWithinPrecision delta (length s1)) by (rewrite L'; exact P).
      assert (Hf' : floatLoads rnd s1).
      { intros k Hlt. rewrite L' in Hlt.
        destruct (Nat.eq_dec k (findLeastLoadedServer servers)) as [->|Nk].
        - split; [exact HB0 | exact HB].
        - now apply Hk. }
      destruct (IH s1 h1 N1 Hinv' Hf' P1 Hrest) as (s' & h' & Er & Ls & Hi & Hn).
      exists s', h'. split; [exact Er|]. split; [lia|]. split; [exact Hi | exact Hn].
Qed.

Lemma floatLoads_initServers caps : floatLoads rnd (initServers caps).
Proof.
  intros k _. unfold initServers. rewrite loadAt_initServersFrom.
  split; [lra | apply representable_zero].
Qed.

End RoundingFacts.

Lemma exact_rounding : Rounding (fun x => x).
Proof. split; intros; lra. Qed.

Lemma exact_arithmetic : FloatArithmetic (fun x => x) 0.
Proof. split; unfold representable; intros; lra. Qed.

(** With exact arithmetic the rounded functions are the exact ones. *)
Lemma exact_total_acc (rnd : Q -> Q) servers :
  (forall x, rnd x == x)%Q ->
  forall acc acc',
    (acc == acc')%Q ->
    (fold_left (fun total s => Rounded.fadd rnd total (currentLoad s)) servers acc
     == fold_left (fun total s => total + currentLoad s) servers acc')%Q.
Proof.
  intros E. induction servers as [|s t IH]; intros acc acc' Ea; simpl; [exact Ea|].
  apply IH. unfold Rounded.fadd. rewrite E, Ea. reflexivity.
Qed.

Lemma exact_average (rnd : Q -> Q) servers :
  (forall x, rnd x == x)%Q ->
  (Rounded.calculateAverageLoad rnd servers == calculateAverageLoad servers)%Q.
Proof.
  intros E. unfold Rounded.calculateAverageLoad, calculateAverageLoad, Rounded.fdiv.
  rewrite E. unfold Rounded.totalLoad, totalLoad.
  rewrite (@exact_total_acc rnd servers E 0%Q 0%Q (Qeq_refl 0)). reflexivity.
Qed.

(* ===================================================================== *)
(** ** Rounding to the nearest binary32 value *)
(* ===================================================================== *)

(** *** Rounding to the nearest integer *)

Lemma roundHalfEven_cases y :
  roundHalfEven y = Qfloor y \/ roundHalfEven y = (Qfloor y + 1)%Z.
Proof.
  unfold roundHalfEven.
  destruct (y - inject_Z (Qfloor y) ?= 1 # 2)%Q; auto.
  destruct (Z.even (Qfloor y)); auto.
Qed.

Lemma roundHalfEven_Z n : roundHalfEven (inject_Z n) = n.
Proof.
  unfold roundHalfEven. rewrite Qfloor_Z.
  destruct (Qcompare_spec (inject_Z n - inject_Z n) (1 # 2)) as [E|L|G];
    [exfalso; lra | reflexivity | exfalso; lra].
Qed.

Lemma roundHalfEven_mono y z :
  (y <= z)%Q -> (roundHalfEven y <= roundHalfEven z)%Z.
Proof.
  intros H. pose proof (Qfloor_resp_le _ _ H) as F.
  destruct (Z.eq_dec (Qfloor y) (Qfloor z)) as [E|NE].
  - unfold roundHalfEven. rewrite <- E.
    destruct (Qcompare_spec (y - inject_Z (Qfloor y)) (1 # 2)) as [Ey|Ly|Gy];
      destruct (Qcompare_spec (z - inject_Z (Qfloor y)) (1 # 2)) as [Ez|Lz|Gz];
      try destruct (Z.even (Qfloor y)); try lia; exfalso; lra.
  - destruct (roundHalfEven_cases y) as [-> | ->];
      destruct (roundHalfEven_cases z) as [-> | ->]; lia.
Qed.

Lemma roundHalfEven_eq y n : (y == inject_Z n)%Q -> roundHalfEven y = n.
Proof.
  intros E.
  assert (A : (y <= inject_Z n)%Q) by lra.
  assert (B : (inject_Z n <= y)%Q) by lra.
  apply roundHalfEven_mono in A. apply roundHalfEven_mono in B.
  rewrite roundHalfEven_Z in A, B. lia.
Qed.

(** *** Powers of two *)

Lemma pow2_pos k : (0 < 2 ^ k)%Q.
Proof. apply Qpower_0_lt. lra. Qed.

Lemma pow2_le j k : (j <= k)%Z -> (2 ^ j <= 2 ^ k)%Q.
Proof. intros H. apply Qpower_le_compat_l; [exact H | lra]. Qed.

Lemma pow2_lt j k : (j < k)%Z -> (2 ^ j < 2 ^ k)%Q.
Proof. intros H. apply Qpower_lt_compat_l; [exact H | lra]. Qed.

Lemma pow2_plus j k : (2 ^ (j + k) == 2 ^ j * 2 ^ k)%Q.
Proof. apply Qpower_plus. lra. Qed.

Lemma pow2_Z j : (0 <= j)%Z -> (inject_Z (2 ^ j) == 2 ^ j)%Q.
Proof. intros H. rewrite Zpower_Qpower by exact H. reflexivity. Qed.

(** [2^j] is a multiple of [2^k] for [k <= j]. *)
Lemma pow2_multiple j k :
  (k <= j)%Z -> (2 ^ j == inject_Z (2 ^ (j - k)) * 2 ^ k)%Q.
Proof.
  intros H. rewrite pow2_Z by lia. rewrite <- pow2_plus.
  replace (j - k + k)%Z with j by lia. reflexivity.
Qed.

(** *** The binary exponent *)

Lemma floorLog2_spec x :
  (0 < x)%Q ->
  (2 ^ floorLog2 x <= x)%Q /\ (x < 2 ^ (floorLog2 x + 1))%Q.
Proof.
  intros Hx. destruct x as [n d].
  assert (Hn : (0 < n)%Z) by (unfold Qlt in Hx; simpl in Hx; lia).
  unfold floorLog2. cbn [Qnum Qden].
  destruct (Z.log2_spec n Hn) as (La & Ua).
  destruct (Z.log2_spec (Zpos d) (Pos2Z.is_pos d)) as (Lb & Ub).
  pose proof (Z.log2_nonneg n) as A0.
  pose proof (Z.log2_nonneg (Zpos d)) as B0.
  set (a := Z.log2 n) in *. set (b := Z.log2 (Zpos d)) in *.
  assert (Ex : (n # d == inject_Z n / inject_Z (Zpos d))%Q) by apply Qmake_Qdiv.
  assert (Dpos : (0 < inject_Z (Zpos d))%Q).
  { change 0%Q with (inject_Z 0). rewrite <- Zlt_Qlt. lia. }
  assert (QLa : (2 ^ a <= inject_Z n)%Q).
  { rewrite <- pow2_Z by lia. rewrite <- Zle_Qle. exact La. }
  assert (QUa : (inject_Z n < 2 ^ (a + 1))%Q).
  { rewrite <- pow2_Z by lia. rewrite <- Zlt_Qlt. exact Ua. }
  assert (QLb : (2 ^ b <= inject_Z (Zpos d))%Q).
  { rewrite <- pow2_Z by lia. rewrite <- Zle_Qle. exact Lb. }
  assert (QUb : (inject_Z (Zpos d) < 2 ^ (b + 1))%Q).
  { rewrite <- pow2_Z by lia. rewrite <- Zlt_Qlt. exact Ub. }
  assert (Lo : (2 ^ (a - b - 1) < n # d)%Q).
  { rewrite Ex. apply Qlt_shift_div_l; [exact Dpos|].
    assert (S : (2 ^ a == 2 ^ (a - b - 1) * 2 ^ (b + 1))%Q).
    { rewrite <- pow2_plus. replace (a - b - 1 + (b + 1))%Z with a by lia. reflexivity. }
    pose proof (pow2_pos (a - b - 1)) as P.
    assert (2 ^ (a - b - 1) * inject_Z (Zpos d) < 2 ^ (a - b - 1) * 2 ^ (b + 1))%Q
      by (apply Qmult_lt_l; [exact P | exact QUb]).
    lra. }
  assert (Hi : (n # d < 2 ^ (a - b + 1))%Q).
  { rewrite Ex. apply Qlt_shift_div_r; [exact Dpos|].
    assert (S : (2 ^ (a + 1) == 2 ^ (a - b + 1) * 2 ^ b)%Q).
    { rewrite <- pow2_plus. replace (a - b + 1 + b)%Z with (a + 1)%Z by lia. reflexivity. }
    pose proof (pow2_pos (a - b + 1)) as P.
    assert (2 ^ (a - b + 1) * 2 ^ b <= 2 ^ (a - b + 1) * inject_Z (Zpos d))%Q
      by (apply Qmult_le_l; [exact P | exact QLb]).
    lra. }
  destruct (fless (n # d) (2 ^ (a - b))) eqn:F;
    [apply fless_true in F | apply fless_false in F].
  - replace (a - b - 1 + 1)%Z with (a - b)%Z by lia. split; lra.
  - split; [exact F | exact Hi].
Qed.

Lemma floorLog2_unique x e :
  (2 ^ e <= x)%Q -> (x < 2 ^ (e + 1))%Q -> floorLog2 x = e.
Proof.
  intros L U.
  assert (Hx : (0 < x)%Q) by (pose proof (pow2_pos e); lra).
  destruct (floorLog2_spec Hx) as (L' & U').
  destruct (Z.lt_trichotomy (floorLog2 x) e) as [H|[H|H]]; [|exact H|].
  - assert (2 ^ (floorLog2 x + 1) <= 2 ^ e)%Q by (apply pow2_le; lia). lra.
  - assert (2 ^ (e + 1) <= 2 ^ floorLog2 x)%Q by (apply pow2_le; lia). lra.
Qed.

Lemma floorLog2_mono x y :
  (0 < x)%Q -> (x <= y)%Q -> (floorLog2 x <= floorLog2 y)%Z.
Proof.
  intros Hx H.
  assert (Hy : (0 < y)%Q) by lra.
  destruct (floorLog2_spec Hx) as (Lx & Ux).
  destruct (floorLog2_spec Hy) as (Ly & Uy).
  destruct (Z_le_gt_dec (floorLog2 x) (floorLog2 y)) as [Le|Gt]; [exact Le|].
  assert (2 ^ (floorLog2 y + 1) <= 2 ^ floorLog2 x)%Q by (apply pow2_le; lia). lra.
Qed.

(** *** Rounding a positive number *)

Lemma roundPositive_multiple x c :
  (0 < x)%Q ->
  ((x <= inject_Z c * 2 ^ ulpExponent x)%Q ->
   (roundPositive x <= inject_Z c * 2 ^ ulpExponent x)%Q) /\
  ((inject_Z c * 2 ^ ulpExponent x <= x)%Q ->
   (inject_Z c * 2 ^ ulpExponent x <= roundPositive x)%Q).
Proof.
  intros Hx. unfold roundPositive.
  pose proof (pow2_pos (ulpExponent x)) as U.
  set (u := (2 ^ ulpExponent x)%Q) in *.
  split; intros H.
  - assert (D : (x / u <= inject_Z c)%Q) by (apply Qle_shift_div_r; lra).
    apply roundHalfEven_mono in D. rewrite roundHalfEven_Z in D.
    apply Qmult_le_compat_r; [|lra]. rewrite <- Zle_Qle. exact D.
  - assert (D : (inject_Z c <= x / u)%Q) by (apply Qle_shift_div_l; lra).
    apply roundHalfEven_mono in D. rewrite roundHalfEven_Z in D.
    apply Qmult_le_compat_r; [|lra]. rewrite <- Zle_Qle. exact D.
Qed.

Lemma roundPositive_nonneg x : (0 < x)%Q -> (0 <= roundPositive x)%Q.
Proof.
  intros Hx. destruct (@roundPositive_multiple x 0%Z Hx) as (_ & H).
  assert (E : (inject_Z 0 * 2 ^ ulpExponent x == 0)%Q) by (unfold inject_Z; lra).
  rewrite E in H. apply H. lra.
Qed.

Lemma ulpExponent_mono x y :
  (0 < x)%Q -> (x <= y)%Q -> (ulpExponent x <= ulpExponent y)%Z.
Proof.
  intros Hx H. pose proof (floorLog2_mono Hx H). unfold ulpExponent. lia.
Qed.

Lemma roundPositive_mono x y :
  (0 < x)%Q -> (x <= y)%Q -> (roundPositive x <= roundPositive y)%Q.
Proof.
  intros Hx H.
  assert (Hy : (0 < y)%Q) by lra.
  pose proof (ulpExponent_mono Hx H) as K.
  destruct (Z.eq_dec (ulpExponent x) (ulpExponent y)) as [E|NE].
  - unfold roundPositive. rewrite E.
    pose proof (pow2_pos (ulpExponent y)) as U.
    apply Qmult_le_compat_r; [|lra]. rewrite <- Zle_Qle.
    apply roundHalfEven_mono. apply Qmult_le_compat_r; [exact H|].
    apply Qlt_le_weak. apply Qinv_lt_0_compat. exact U.
  - destruct (floorLog2_spec Hx) as (Lx & Ux).
    destruct (floorLog2_spec Hy) as (Ly & Uy).
    assert (Ky : ulpExponent y = (floorLog2 y - 23)%Z) by (unfold ulpExponent in *; lia).
    assert (Exy : (floorLog2 x + 1 <= floorLog2 y)%Z) by (unfold ulpExponent in *; lia).
    pose proof (pow2_le Exy) as B.
    destruct (@roundPositive_multiple x (2 ^ (floorLog2 y - ulpExponent x)) Hx) as (Hup & _).
    destruct (@roundPositive_multiple y (2 ^ (floorLog2 y - ulpExponent y)) Hy) as (_ & Hlo).
    rewrite <- pow2_multiple in Hup by lia.
    rewrite <- pow2_multiple in Hlo by lia.
    assert (roundPositive x <= 2 ^ floorLog2 y)%Q by (apply Hup; lra).
    assert (2 ^ floorLog2 y <= roundPositive y)%Q by (apply Hlo; lra).
    lra.
Qed.

Lemma roundPositive_compat x y :
  (0 < x)%Q -> (x == y)%Q -> (roundPositive x == roundPositive y)%Q.
Proof.
  intros Hx E. assert (Hy : (0 < y)%Q) by lra.
  apply Qle_antisym; apply roundPositive_mono; lra.
Qed.

(** A positive number whose quotient by its unit is an integer is left
    unchanged. *)
Lemma roundPositive_exact r c :
  (r == inject_Z c * 2 ^ ulpExponent r)%Q -> (roundPositive r == r)%Q.
Proof.
  intros E. unfold roundPositive.
  pose proof (pow2_pos (ulpExponent r)) as U.
  assert (D : (r / 2 ^ ulpExponent r == inject_Z c)%Q).
  { rewrite E at 1. field. lra. }
  rewrite (roundHalfEven_eq D). lra.
Qed.

Lemma roundHalfEven_half : roundHalfEven (1 # 2) = 0%Z.
Proof. reflexivity. Qed.

Lemma roundPositive_idempotent x :
  (0 < x)%Q -> (0 < roundPositive x)%Q ->
  (roundPositive (roundPositive x) == roundPositive x)%Q.
Proof.
  intros Hx Hr.
  destruct (floorLog2_spec Hx) as (Lx & Ux).
  destruct (floorLog2_spec Hr) as (Lr & Ur).
  set (r := roundPositive x) in *.
  set (k := ulpExponent x) in *.
  set (m := roundHalfEven (x / 2 ^ k)).
  assert (Er : (r == inject_Z m * 2 ^ k)%Q) by reflexivity.
  pose proof (pow2_pos k) as U.
  destruct (Z_le_gt_dec (ulpExponent r) k) as [Le|Gt].
  - apply roundPositive_exact with (c := (m * 2 ^ (k - ulpExponent r))%Z).
    rewrite inject_Z_mult. eapply Qeq_trans; [exact Er|].
    rewrite (@pow2_multiple k (ulpExponent r) Le). ring.
  - assert (Kr : ulpExponent r = (floorLog2 r - 23)%Z) by (unfold ulpExponent in *; lia).
    assert (Exr : (floorLog2 x + 1 <= floorLog2 r)%Z)
      by (unfold ulpExponent in *; fold k in Gt; unfold k, ulpExponent in Gt; lia).
    assert (Kx : (k <= floorLog2 x + 1)%Z).
    { destruct (Z_le_gt_dec k (floorLog2 x + 1)) as [L|G]; [exact L|exfalso].
      assert (P : (2 ^ (floorLog2 x + 1) <= 2 ^ (k - 1))%Q) by (apply pow2_le; lia).
      assert (S : (2 ^ k == 2 ^ (k - 1) * 2)%Q).
      { replace k with (k - 1 + 1)%Z at 1 by lia. rewrite pow2_plus. reflexivity. }
      assert (D : (x / 2 ^ k <= 1 # 2)%Q).
      { apply Qle_shift_div_r; [exact U|]. pose proof (pow2_pos (k - 1)). lra. }
      apply roundHalfEven_mono in D. rewrite roundHalfEven_half in D. fold m in D.
      assert (inject_Z m <= inject_Z 0)%Q by (rewrite <- Zle_Qle; exact D).
      assert (inject_Z m * 2 ^ k <= 0 * 2 ^ k)%Q
        by (apply Qmult_le_compat_r; [unfold inject_Z in *; lra | lra]).
      lra. }
    destruct (@roundPositive_multiple x (2 ^ (floorLog2 x + 1 - k)) Hx) as (Hup & _).
    fold k in Hup. rewrite <- pow2_multiple in Hup by exact Kx. fold r in Hup.
    assert (R1 : (r <= 2 ^ (floorLog2 x + 1))%Q) by (apply Hup; lra).
    pose proof (pow2_le Exr) as B.
    assert (R2 : (r == 2 ^ floorLog2 r)%Q) by lra.
    apply roundPositive_exact with (c := (2 ^ (floorLog2 r - ulpExponent r))%Z).
    rewrite <- pow2_multiple by lia. exact R2.
Qed.

(** *** [round32] *)

Lemma round32_pos x : (0 < x)%Q -> round32 x = roundPositive x.
Proof.
  destruct x as [[|p|p] d]; unfold Qlt; simpl; intros H; try lia. reflexivity.
Qed.

Lemma round32_neg x : (x < 0)%Q -> round32 x = (- roundPositive (- x))%Q.
Proof.
  destruct x as [[|p|p] d]; unfold Qlt; simpl; intros H; try lia. reflexivity.
Qed.

Lemma round32_zero x : (x == 0)%Q -> round32 x = 0%Q.
Proof.
  destruct x as [[|p|p] d]; unfold Qeq; simpl; intros H; try lia. reflexivity.
Qed.

Lemma round32_monotone x y : (x <= y)%Q -> (round32 x <= round32 y)%Q.
Proof.
  intros H.
  destruct (Q_dec x 0) as [[Xn|Xp]|Xz]; destruct (Q_dec y 0) as [[Yn|Yp]|Yz];
    try (exfalso; lra).
  - rewrite (round32_neg Xn), (round32_neg Yn).
    assert (roundPositive (- y) <= roundPositive (- x))%Q
      by (apply roundPositive_mono; lra).
    lra.
  - rewrite (round32_neg Xn), (round32_pos Yp).
    assert (0 <= roundPositive (- x))%Q by (apply roundPositive_nonneg; lra).
    assert (0 <= roundPositive y)%Q by (apply roundPositive_nonneg; lra).
    lra.
  - rewrite (round32_neg Xn), (round32_zero Yz).
    assert (0 <= roundPositive (- x))%Q by (apply roundPositive_nonneg; lra).
    lra.
  - rewrite (round32_pos Xp), (round32_pos Yp). now apply roundPositive_mono.
  - rewrite (round32_zero Xz), (round32_pos Yp). now apply roundPositive_nonneg.
  - rewrite (round32_zero Xz), (round32_zero Yz). lra.
Qed.

Lemma round32_opp x : (round32 (- x) == - round32 x)%Q.
Proof.
  destruct (Q_dec x 0) as [[Xn|Xp]|Xz].
  - assert (Hx : (0 < - x)%Q) by lra.
    rewrite (round32_neg Xn), (round32_pos Hx). lra.
  - assert (Hx : (- x < 0)%Q) by lra.
    rewrite (round32_neg Hx), (round32_pos Xp).
    assert (Hx' : (0 < - - x)%Q) by lra.
    rewrite (roundPositive_compat Hx' (Qopp_involutive x)). reflexivity.
  - assert (Hx : (- x == 0)%Q) by lra.
    rewrite (round32_zero Hx), (round32_zero Xz). reflexivity.
Qed.

Lemma round32_idempotent x : (round32 (round32 x) == round32 x)%Q.
Proof.
  destruct (Q_dec x 0) as [[Xn|Xp]|Xz].
  - rewrite (round32_neg Xn).
    assert (Hx : (0 < - x)%Q) by lra.
    pose proof (roundPositive_nonneg Hx) as R0.
    destruct (Qlt_le_dec 0 (roundPositive (- x))) as [Rp|Rz].
    + assert (Rn : (- roundPositive (- x) < 0)%Q) by lra.
      rewrite (round32_neg Rn).
      assert (E : (- - roundPositive (- x) == roundPositive (- x))%Q)
        by apply Qopp_involutive.
      assert (Rp' : (0 < - - roundPositive (- x))%Q) by lra.
      rewrite (roundPositive_compat Rp' E).
      rewrite (roundPositive_idempotent Hx Rp). reflexivity.
    + assert (E : (- roundPositive (- x) == 0)%Q) by lra.
      rewrite (round32_zero E). lra.
  - rewrite (round32_pos Xp).
    pose proof (roundPositive_nonneg Xp) as R0.
    destruct (Qlt_le_dec 0 (roundPositive x)) as [Rp|Rz].
    + rewrite (round32_pos Rp). now apply roundPositive_idempotent.
    + assert (E : (roundPositive x == 0)%Q) by lra.
      rewrite (round32_zero E). lra.
  - rewrite (round32_zero Xz). reflexivity.
Qed.

(** Rounding to the nearest binary32 value is a rounding. *)
Lemma round32_rounding : Rounding round32.
Proof.
  split.
  - exact round32_monotone.
  - exact round32_idempotent.
  - exact round32_opp.
Qed.

(** From [2^-126] on (no underflow), its relative error is at most
    [2^-24]. *)
Lemma round32_relative_error x :
  (2 ^ (-126) <= x)%Q -> (round32 x <= (1 + (1 # 16777216)) * x)%Q.
Proof.
  intros H.
  assert (Hx : (0 < x)%Q) by (pose proof (pow2_pos (-126)); lra).
  rewrite (round32_pos Hx). unfold roundPositive.
  destruct (floorLog2_spec Hx) as (Lx & Ux).
  assert (E126 : (-126 <= floorLog2 x)%Z).
  { destruct (Z_le_gt_dec (-126) (floorLog2 x)) as [L|G]; [exact L|exfalso].
    assert (2 ^ (floorLog2 x + 1) <= 2 ^ (-126))%Q by (apply pow2_le; lia). lra. }
  assert (K : ulpExponent x = (floorLog2 x - 23)%Z) by (unfold ulpExponent; lia).
  rewrite K. set (k := (floorLog2 x - 23)%Z).
  pose proof (pow2_pos k) as U.
  assert (S : (2 ^ floorLog2 x == 2 ^ 23 * 2 ^ k)%Q).
  { rewrite <- pow2_plus. unfold k. replace (23 + (floorLog2 x - 23))%Z with (floorLog2 x) by lia.
    reflexivity. }
  set (z := (x / 2 ^ k)%Q).
  assert (Zx : (z * 2 ^ k == x)%Q) by (unfold z; field; lra).
  assert (Z23 : (2 ^ 23 <= z)%Q).
  { unfold z. apply Qle_shift_div_l; [exact U | lra]. }
  assert (R : (inject_Z (roundHalfEven z) <= z + (1 # 2))%Q).
  { pose proof (Qfloor_le z).
    destruct (roundHalfEven_cases z) as [-> | E].
    - lra.
    - unfold roundHalfEven in E |- *.
      destruct (Qcompare_spec (z - inject_Z (Qfloor z)) (1 # 2)) as [Ez|Lz|Gz].
      + destruct (Z.even (Qfloor z)).
        * lra.
        * rewrite inject_Z_plus. change (inject_Z 1) with 1%Q. lra.
      + lra.
      + rewrite inject_Z_plus. change (inject_Z 1) with 1%Q.
        pose proof (Qlt_floor z) as F. rewrite inject_Z_plus in F.
        change (inject_Z 1) with 1%Q in F. lra. }
  assert (P : (inject_Z (roundHalfEven z) * 2 ^ k <= (z + (1 # 2)) * 2 ^ k)%Q)
    by (apply Qmult_le_compat_r; lra).
  assert (C23 : ((2 ^ 23)%Q == 8388608)%Q) by reflexivity.
  rewrite C23 in Z23.
  assert (H2 : ((1 # 2) * 2 ^ k <= (1 # 16777216) * (z * 2 ^ k))%Q).
  { assert ((1 # 2) * 2 ^ k == (1 # 16777216) * (8388608 * 2 ^ k))%Q by ring.
    assert (8388608 * 2 ^ k <= z * 2 ^ k)%Q by (apply Qmult_le_compat_r; lra).
    lra. }
  fold z. lra.
Qed.

(** A [float] is a multiple of its unit in the last place, hence of
    [2^-149]. *)
Lemma representable_unit r :
  (0 < r)%Q -> representable round32 r ->
  exists m, (r == inject_Z m * 2 ^ ulpExponent r)%Q.
Proof.
  intros Hr E. unfold representable in E. rewrite (round32_pos Hr) in E.
  exists (roundHalfEven (r / 2 ^ ulpExponent r)). symmetry. exact E.
Qed.

Lemma representable_grid r :
  (0 <= r)%Q -> representable round32 r ->
  exists c, (r == inject_Z c * 2 ^ (-149))%Q.
Proof.
  intros Hr E. destruct (Qlt_le_dec 0 r) as [Pos|Z].
  - destruct (representable_unit Pos E) as (m & Em).
    assert (K : (-149 <= ulpExponent r)%Z) by (unfold ulpExponent; lia).
    exists (m * 2 ^ (ulpExponent r - -149))%Z.
    rewrite inject_Z_mult. eapply Qeq_trans; [exact Em|].
    rewrite (@pow2_multiple (ulpExponent r) (-149) K). ring.
  - exists 0%Z. unfold inject_Z. lra.
Qed.

(** The sum of two non-negative [float]s is rounded with a relative error
    of at most [2^-24]: below [2^-126] the sum is itself a [float]. *)
Lemma round32_sum_relative x y :
  (0 <= x)%Q -> (0 <= y)%Q ->
  representable round32 x -> representable round32 y ->
  (round32 (x + y) <= (1 + (1 # 16777216)) * (x + y))%Q.
Proof.
  intros Hx Hy Rx Ry.
  destruct (Qlt_le_dec 0 (x + y)) as [Pos|Z].
  2:{ assert (E : (x + y == 0)%Q) by lra. rewrite (round32_zero E). lra. }
  destruct (Qlt_le_dec (x + y) (2 ^ (-126))) as [Small|Normal].
  2:{ now apply round32_relative_error. }
  destruct (representable_grid Hx Rx) as (a & Ea).
  destruct (representable_grid Hy Ry) as (b & Eb).
  destruct (floorLog2_spec Pos) as (L & U).
  assert (E126 : (floorLog2 (x + y) < -126)%Z).
  { destruct (Z_lt_ge_dec (floorLog2 (x + y)) (-126)) as [Lt|Ge]; [exact Lt|exfalso].
    assert (2 ^ (-126) <= 2 ^ floorLog2 (x + y))%Q by (apply pow2_le; lia). lra. }
  assert (K : ulpExponent (x + y) = (-149)%Z) by (unfold ulpExponent; lia).
  assert (Ex : (roundPositive (x + y) == x + y)%Q).
  { apply roundPositive_exact with (c := (a + b)%Z).
    rewrite K, inject_Z_plus. lra. }
  rewrite (round32_pos Pos), Ex. lra.
Qed.

Lemma round32_double_representable x :
  (0 <= x)%Q -> representable round32 x -> representable round32 (2 * x).
Proof.
  intros Hx Rx. unfold representable.
  destruct (Qlt_le_dec 0 x) as [Pos|Z].
  2:{ assert (E : (2 * x == 0)%Q) by lra. rewrite (round32_zero E). lra. }
  assert (Pos2 : (0 < 2 * x)%Q) by lra.
  rewrite (round32_pos Pos2).
  destruct (representable_unit Pos Rx) as (m & Em).
  destruct (floorLog2_spec Pos) as (L & U).
  assert (S1 : (2 ^ (floorLog2 x + 1) == 2 ^ floorLog2 x * 2)%Q)
    by (rewrite pow2_plus; reflexivity).
  assert (S2 : (2 ^ (floorLog2 x + 1 + 1) == 2 ^ (floorLog2 x + 1) * 2)%Q)
    by (rewrite pow2_plus; reflexivity).
  assert (E2 : floorLog2 (2 * x) = (floorLog2 x + 1)%Z)
    by (apply floorLog2_unique; lra).
  destruct (Z_le_gt_dec (-149) (floorLog2 x - 23)) as [Normal|Sub].
  - assert (K : ulpExponent x = (floorLog2 x - 23)%Z) by (unfold ulpExponent; lia).
    assert (K2 : ulpExponent (2 * x) = (ulpExponent x + 1)%Z)
      by (unfold ulpExponent; rewrite E2; lia).
    apply roundPositive_exact with (c := m).
    rewrite K2, pow2_plus.
    assert (C : ((2 ^ 1)%Q == 2)%Q) by reflexivity. rewrite C.
    set (u := (2 ^ ulpExponent x)%Q) in *. lra.
  - assert (K : ulpExponent x = (-149)%Z) by (unfold ulpExponent; lia).
    assert (K2 : ulpExponent (2 * x) = (-149)%Z)
      by (unfold ulpExponent; rewrite E2; lia).
    apply roundPositive_exact with (c := (2 * m)%Z).
    rewrite K2, inject_Z_mult. rewrite K in Em.
    change (inject_Z 2) with 2%Q.
    set (u := (2 ^ (-149))%Q) in *. lra.
Qed.

(** Rounding to the nearest binary32 value has the precision that the
    results on the loads ask for. *)
Lemma round32_arithmetic : FloatArithmetic round32 (1 # 16777216).
Proof.
  split.
  - unfold Qle; simpl; lia.
  - exact round32_sum_relative.
  - exact round32_double_representable.
Qed.

(** [n] roundings of relative error [delta] enlarge a result by at most
    [2 n delta], as long as that is at most 1. *)
Lemma errorGrowth_linear delta n :
  (0 <= delta)%Q ->
  (2 * inject_Z (Z.of_nat n) * delta <= 1)%Q ->
  (errorGrowth delta n <= 1 + 2 * inject_Z (Z.of_nat n) * delta)%Q.
Proof.
  intros D. induction n as [|n IH]; intros H.
  - simpl. unfold inject_Z. lra.
  - rewrite Nat2Z.inj_succ in *. unfold Z.succ in *. rewrite inject_Z_plus in *.
    change (inject_Z 1) with 1%Q in *.
    assert (N0 : (0 <= inject_Z (Z.of_nat n))%Q).
    { change 0%Q with (inject_Z 0). rewrite <- Zle_Qle. lia. }
    set (k := inject_Z (Z.of_nat n)) in *.
    assert (X : (0 <= k * delta)%Q) by (apply Qmult_le_0_compat; lra).
    assert (IH' : (errorGrowth delta n <= 1 + 2 * k * delta)%Q) by (apply IH; lra).
    simpl errorGrowth.
    assert (Y : ((1 + delta) * errorGrowth delta n <= (1 + delta) * (1 + 2 * k * delta))%Q)
      by (apply Qmult_le_l; lra).
    assert (Z : (2 * k * delta * delta <= 1 * delta)%Q)
      by (apply Qmult_le_compat_r; lra).
    lra.
Qed.

(** With binary32 the additions of [calculateAverageLoad] stay within the
    precision asked for on every fleet of up to 1000 servers. *)
Lemma binary32_average_within_precision n :
  n <= 1000 -> averageWithinPrecision (1 # 16777216) n.
Proof.
  intros H. unfold averageWithinPrecision.
  assert (N0 : (0 <= inject_Z (Z.of_nat n))%Q).
  { change 0%Q with (inject_Z 0). rewrite <- Zle_Qle. lia. }
  assert (N1 : (inject_Z (Z.of_nat n) <= 1000)%Q).
  { change 1000%Q with (inject_Z 1000). rewrite <- Zle_Qle. lia. }
  assert (D : (0 <= 1 # 16777216)%Q) by (unfold Qle; simpl; lia).
  set (k := inject_Z (Z.of_nat n)) in *.
  assert (G : (errorGrowth (1 # 16777216) n <= 1 + 2 * k * (1 # 16777216))%Q)
    by (apply errorGrowth_linear; [exact D | fold k; lra]).
  assert (X : (errorGrowth (1 # 16777216) n * (4 * k)
               <= (1 + 2 * k * (1 # 16777216)) * (4 * k))%Q)
    by (apply Qmult_le_compat_r; lra).
  assert (Y : (0 <= (1000 - k) * k)%Q) by (apply Qmult_le_0_compat; lra).
  lra.
Qed.

(** On the run of the example that follows the next theorem, [round32]
    computes what the standard library's specification of IEEE 754
    arithmetic computes in binary32 (24 bits of precision, exponents below
    128): the additions and the division of [calculateAverageLoad], the
    subtraction and the halving of [rebalanceLoads], and the two updates
    of the loads. *)
Example round32_is_binary32_on_the_run :
  let x := S754_finite false 12230809 (-21) in
  let y := S754_finite false 12230810 (-21) in
  let three := S754_finite false 12582912 (-22) in
  let half := S754_finite false 8388608 (-24) in
  let servers :=
    [mkServer 0 200 (SF2Q x); mkServer 1 50 (SF2Q y); mkServer 2 200 (SF2Q y)] in
  let total := SFadd 24 128 (SFadd 24 128 (SFadd 24 128 (S754_zero false) x) y) y in
  let avgLoad := SFdiv 24 128 total three in
  let migrationAmount := SFmul 24 128 (SFsub 24 128 y avgLoad) half in
  (SF2Q x == load_5_8321042)%Q /\
  (SF2Q y == load_5_8321047)%Q /\
  (SF2Q three == 3)%Q /\
  (SF2Q half == 1 # 2)%Q /\
  (SF2Q total == Rounded.totalLoad round32 servers)%Q /\
  (SF2Q avgLoad == Rounded.calculateAverageLoad round32 servers)%Q /\
  (SF2Q migrationAmount == Rounded.migrationAmountOf round32 servers)%Q /\
  (SF2Q (SFsub 24 128 y migrationAmount)
   == Rounded.fsub round32 (SF2Q y) (SF2Q migrationAmount))%Q /\
  (SF2Q (SFadd 24 128 x migrationAmount)
   == Rounded.fadd round32 (SF2Q x) (SF2Q migrationAmount))%Q.
Proof.
  cbv zeta. repeat split; vm_compute; reflexivity.
Qed.

(** More samples of the same agreement: 0.1f + 0.2f, 20.3f - 0.3f, 1 / 3,
    25 * 0.1f, and two results below [2^-126], one of them half-way between
    two [float]s. *)
Example round32_is_binary32_on_samples :
  let f01 := S754_finite false 13421773 (-27) in
  let f02 := S754_finite false 13421773 (-26) in
  let f203 := S754_finite false 10643046 (-19) in
  let f03 := S754_finite false 10066330 (-25) in
  let one := S754_finite false 8388608 (-23) in
  let three := S754_finite false 12582912 (-22) in
  let f25 := S754_finite false 13107200 (-19) in
  let tiny := S754_finite false 3 (-149) in
  let half := S754_finite false 8388608 (-24) in
  (SF2Q (SFadd 24 128 f01 f02) == round32 (SF2Q f01 + SF2Q f02))%Q /\
  (SF2Q (SFsub 24 128 f203 f03) == round32 (SF2Q f203 - SF2Q f03))%Q /\
  (SF2Q (SFsub 24 128 f203 f03) == 20)%Q /\
  (SF2Q (SFdiv 24 128 one three) == round32 (SF2Q one / SF2Q three))%Q /\
  (SF2Q (SFmul 24 128 f25 f01) == round32 (SF2Q f25 * SF2Q f01))%Q /\
  (SF2Q (SFdiv 24 128 tiny three) == round32 (SF2Q tiny / SF2Q three))%Q /\
  (SF2Q (SFmul 24 128 tiny half) == round32 (SF2Q tiny * SF2Q half))%Q /\
  (SF2Q (SFmul 24 128 tiny half) == 2 ^ (-148))%Q.
Proof.
  cbv zeta. repeat split; vm_compute; reflexivity.
Qed.

(* ===================================================================== *)
(** ** Non-negative loads *)
(* ===================================================================== *)

(** C9. In the program's rounded arithmetic, starting from all loads at 0,
    any sequence of task assignments with positive task loads and of
    rebalancing calls runs to completion and leaves every server's current
    load non-negative.  The migration amount
    [(mostLoaded.currentLoad - averageLoad) * 0.5] is then at most the
    current load of the server it is taken from and at least minus the
    least current load, so that neither of the two servers goes below
    zero.  The amount is at least 0 whenever the computed average does not
    exceed the greatest load, which is always the case when the arithmetic
    is exact; with rounding the average can exceed the greatest load and
    the amount be negative, as the example after this theorem shows.

    The rounding is any [rnd] that keeps the order, is idempotent and odd
    and rounds sums with relative error at most [delta], on a fleet within
    [averageWithinPrecision]: exact arithmetic, and binary32 on every fleet
    of up to 1000 servers ([round32_rounding], [round32_arithmetic],
    [binary32_average_within_precision]). *)
Theorem rounded_loads_stay_non_negative (rnd : Q -> Q) (delta : Q)
  (caps : list Q) (steps : list SimStep) :
  Rounding rnd ->
  FloatArithmetic rnd delta ->
  averageWithinPrecision delta (length caps) ->
  caps <> [] ->
  Forall positiveTask steps ->
  exists servers heap,
    Rounded.simRun rnd (initServers caps, initHeap (length caps)) steps
      = Some (servers, heap) /\
    (forall k, k < length servers -> (0 <= loadAt servers k)%Q) /\
    (Rounded.migrationAmountOf rnd servers
     <= loadAt servers (findMostLoadedServer servers))%Q /\
    (- loadAt servers (findLeastLoadedServer servers)
     <= Rounded.migrationAmountOf rnd servers)%Q /\
    (Rounded.calculateAverageLoad rnd servers
     <= loadAt servers (findMostLoadedServer servers) ->
     0 <= Rounded.migrationAmountOf rnd servers)%Q /\
    ((forall x, rnd x == x) -> 0 <= Rounded.migrationAmountOf rnd servers)%Q.
Proof.
  intros R FA P N Hpos.
  destruct (init_sim_inv caps) as (Hinv & L0 & _).
  pose proof (initServers_nonempty N) as N0.
  assert (P0 : averageWithinPrecision delta (length (initServers caps)))
    by (rewrite L0; exact P).
  destruct (@rounded_simRun_safe rnd R delta steps FA _ _ N0 Hinv
              (floatLoads_initServers R caps) P0 Hpos)
    as (s' & h' & Er & Ls & _ & Hf).
  assert (N' : s' <> []).
  { intros E0. rewrite E0 in Ls.
    destruct (initServers caps); [contradiction | discriminate]. }
  assert (P' : averageWithinPrecision delta (length s')) by (rewrite Ls; exact P0).
  destruct (@rounded_migration_upper rnd R s' N' Hf) as (MU & MP & _ & _).
  pose proof (@rounded_migration_lower rnd R delta s' FA N' Hf P') as ML.
  exists s', h'. split; [exact Er|]. split; [intros k Hk; now apply Hf|].
  split; [exact MU|]. split; [exact ML|]. split; [exact MP|].
  intros E. apply MP. rewrite (@exact_average rnd s' E). now apply average_le_max.
Qed.

Lemma rounded_loads_stay_non_negative_witness :
  exists servers heap,
    Rounded.simRun round32 (initServers [200; 50; 200]%Q, initHeap 3)
      [StepAssign load_5_8321042; StepAssign load_5_8321047;
       StepAssign load_5_8321047; StepRebalance (13421773 # 134217728);
       StepAssign load_5_8321042]
      = Some (servers, heap) /\
    (forall k, k < length servers -> (0 <= loadAt servers k)%Q) /\
    (Rounded.migrationAmountOf round32 servers
     <= loadAt servers (findMostLoadedServer servers))%Q /\
    (- loadAt servers (findLeastLoadedServer servers)
     <= Rounded.migrationAmountOf round32 servers)%Q /\
    (Rounded.calculateAverageLoad round32 servers
     <= loadAt servers (findMostLoadedServer servers) ->
     0 <= Rounded.migrationAmountOf round32 servers)%Q /\
    ((forall x, round32 x == x) -> 0 <= Rounded.migrationAmountOf round32 servers)%Q.
Proof.
  apply (@rounded_loads_stay_non_negative round32 (1 # 16777216) [200; 50; 200]%Q
           [StepAssign load_5_8321042; StepAssign load_5_8321047;
            StepAssign load_5_8321047; StepRebalance (13421773 # 134217728);
            StepAssign load_5_8321042]).
  - exact round32_rounding.
  - exact round32_arithmetic.
  - apply binary32_average_within_precision. simpl. lia.
  - discriminate.
  - repeat constructor.
Defined.

(** The migration amount is not always at least 0.  Three servers of
    capacities 200, 50 and 200 receive tasks of loads 5.8321042, 5.8321047
    and 5.8321047 (as [float]s); the heap hands them to servers 0, 2 and 1.
    The [float] sum of the three loads divided by 3 rounds to 5.8321052,
    above the greatest load: the migration amount is [-2^-22].  With a
    threshold of 0.1 the rebalancing fires (the load percentages are 11.66
    and 2.92) and server 0, the least loaded, loses load.  The capacities,
    the task loads and the threshold are values that the interactive
    program accepts. *)
Lemma migration_amount_negative_counterexample :
  exists servers heap,
    Rounded.simRun round32 (initServers [200; 50; 200]%Q, initHeap 3)
      [StepAssign load_5_8321042; StepAssign load_5_8321047;
       StepAssign load_5_8321047]
      = Some (servers, heap) /\
    (loadAt servers 0 == load_5_8321042)%Q /\
    (loadAt servers 1 == load_5_8321047)%Q /\
    (loadAt servers 2 == load_5_8321047)%Q /\
    (Rounded.calculateAverageLoad round32 servers == 12230811 # 2097152)%Q /\
    (loadAt servers (findMostLoadedServer servers)
     < Rounded.calculateAverageLoad round32 servers)%Q /\
    (Rounded.migrationAmountOf round32 servers == - (1 # 4194304))%Q /\
    (Rounded.migrationAmountOf round32 servers < 0)%Q /\
    exists servers' heap' report,
      Rounded.rebalanceLoads round32 servers (round32 (1 # 10)) heap
      = (servers', heap', Some report) /\
      (rep_migrationAmount report < 0)%Q /\
      (loadAt servers' 0 < loadAt servers 0)%Q.
Proof.
  eexists. eexists. split; [vm_compute; reflexivity|].
  repeat (split; [vm_compute; reflexivity|]).
  eexists. eexists. eexists. split; [vm_compute; reflexivity|].
  split; vm_compute; reflexivity.
Qed.

(* ===================================================================== *)
(** ** The final verdict *)
(* ===================================================================== *)

(** X26. The final verdict says "well balanced" exactly when the [float]
    difference of every two servers' current loads is below the threshold;
    every two loads then differ by less than the threshold, the threshold
    being a [float]. *)
Theorem verdict_compares_rounded_differences
  (rnd : Q -> Q) (servers : list Server) (threshold : Q) :
  Rounding rnd ->
  representable rnd threshold ->
  servers <> [] ->
  (Rounded.wellBalanced rnd servers threshold = true <->
   forall i j, i < length servers -> j < length servers ->
     (Rounded.fsub rnd (loadAt servers i) (loadAt servers j) < threshold)%Q) /\
  (Rounded.wellBalanced rnd servers threshold = true ->
   forall i j, i < length servers -> j < length servers ->
     (loadAt servers i - loadAt servers j < threshold)%Q).
Proof.
  intros R T N. unfold Rounded.wellBalanced. rewrite fless_true.
  destruct (findMostLoadedServer_spec N) as (HA & Hmax).
  destruct (findLeastLoadedServer_spec N) as (HB & Hmin).
  assert (D : forall i j, i < length servers -> j < length servers ->
            (loadAt servers i - loadAt servers j
             <= loadAt servers (findMostLoadedServer servers)
                - loadAt servers (findLeastLoadedServer servers))%Q).
  { intros i j Hi Hj. specialize (Hmax i Hi). specialize (Hmin j Hj). lra. }
  split; [split|].
  - intros H i j Hi Hj. unfold Rounded.fsub in *.
    pose proof (rnd_monotone R (D i j Hi Hj)). lra.
  - intros H. now apply H.
  - intros H i j Hi Hj. unfold Rounded.fsub in H.
    destruct (Qlt_le_dec (loadAt servers i - loadAt servers j) threshold) as [Lt|Ge];
      [exact Lt|].
    assert (G : (threshold <= loadAt servers (findMostLoadedServer servers)
                 - loadAt servers (findLeastLoadedServer servers))%Q)
      by (pose proof (D i j Hi Hj); lra).
    pose proof (rnd_monotone R G) as G'. unfold representable in T. lra.
Qed.

(** The [float]s nearest to 20.3 and 0.3 differ by exactly 20 as [float]s
    (and by a little less exactly): with threshold 20 the verdict is "not
    well balanced". *)
Lemma verdict_compares_rounded_differences_witness :
  let servers := [mkServer 0 100 (5321523 # 262144); mkServer 1 100 (5033165 # 16777216)] in
  Rounded.wellBalanced round32 servers 20 = false /\
  (Rounded.fsub round32 (loadAt servers 0) (loadAt servers 1) == 20)%Q /\
  (Rounded.wellBalanced round32 servers 20 = true <->
   forall i j, i < length servers -> j < length servers ->
     (Rounded.fsub round32 (loadAt servers i) (loadAt servers j) < 20)%Q) /\
  (Rounded.wellBalanced round32 servers 20 = true ->
   forall i j, i < length servers -> j < length servers ->
     (loadAt servers i - loadAt servers j < 20)%Q).
Proof.
  cbv zeta. split; [vm_compute; reflexivity|]. split; [vm_compute; reflexivity|].
  apply (@verdict_compares_rounded_differences round32
           [mkServer 0 100 (5321523 # 262144); mkServer 1 100 (5033165 # 16777216)] 20).
  - exact round32_rounding.
  - unfold representable. vm_compute. reflexivity.
  - discriminate.
Defined.

(* ===================================================================== *)
(** ** What a task assignment does to the loads *)
(* ===================================================================== *)

(** X27. A task assignment, on a registry that the heap mirrors, picks a
    server of least current load, replaces that load by the [float] sum of
    the load and the task load, and leaves every other load as it was; a
    non-negative task load never lowers the load of the server it goes
    to. *)
Theorem assignment_adds_rounded_load
  (rnd : Q -> Q) (servers : list Server) (heap : MinHeap) (taskLoad : Q) :
  Rounding rnd ->
  servers <> [] ->
  sim_inv servers heap ->
  floatLoads rnd servers ->
  (0 <= taskLoad)%Q ->
  exists sid servers' heap',
    Rounded.assignTask rnd servers heap taskLoad = Some (sid, servers', heap') /\
    sid < length servers /\
    length servers' = length servers /\
    (forall k, k < length servers -> (loadAt servers sid <= loadAt servers k)%Q) /\
    loadAt servers' sid = Rounded.fadd rnd (loadAt servers sid) taskLoad /\
    (loadAt servers sid <= loadAt servers' sid)%Q /\
    (forall k, k <> sid -> loadAt servers' k = loadAt servers k).
Proof.
  intros R N Hinv Hf Ht.
  destruct (@rounded_assignTask_inv rnd servers heap taskLoad N Hinv)
    as (sid & s1 & h1 & Ea & _ & L & Hlt & Hmin & Lsid & Lne).
  exists sid, s1, h1. split; [exact Ea|]. split; [exact Hlt|]. split; [exact L|].
  split; [exact Hmin|]. split; [exact Lsid|]. split; [|exact Lne].
  rewrite Lsid. unfold Rounded.fadd. destruct (Hf _ Hlt) as (_ & Rl).
  apply (@rnd_above rnd R); [exact Rl | lra].
Qed.

(** The first two tasks of a run, of loads 0.1 and 0.2 (as [float]s), on
    a single server: the load becomes 0.1, then 0.30000001, the [float]
    nearest to the sum. *)
Lemma assignment_adds_rounded_load_witness :
  let task1 := (13421773 # 134217728)%Q in
  let task2 := (13421773 # 67108864)%Q in
  (Rounded.fadd round32 (Rounded.fadd round32 0 task1) task2 == 5033165 # 16777216)%Q /\
  exists sid servers' heap',
    Rounded.assignTask round32 (initServers [100]%Q) (initHeap 1) task1
      = Some (sid, servers', heap') /\
    sid < 1 /\
    length servers' = 1 /\
    (forall k, k < 1 ->
       (loadAt (initServers [100]%Q) sid <= loadAt (initServers [100]%Q) k)%Q) /\
    loadAt servers' sid
      = Rounded.fadd round32 (loadAt (initServers [100]%Q) sid) task1 /\
    (loadAt (initServers [100]%Q) sid <= loadAt servers' sid)%Q /\
    (forall k, k <> sid -> loadAt servers' k = loadAt (initServers [100]%Q) k).
Proof.
  cbv zeta. split; [vm_compute; reflexivity|].
  apply (@assignment_adds_rounded_load round32 (initServers [100]%Q) (initHeap 1)
           (13421773 # 134217728)%Q).
  - exact round32_rounding.
  - discriminate.
  - exact (proj1 (init_sim_inv [100]%Q)).
  - apply floatLoads_initServers. exact round32_rounding.
  - unfold Qle; simpl; lia.
Defined.
